(** * pi-browser: workflow executor, workflow storage and scheduler

    A shallow embedding of the workflow engine of pi-browser: the class
    [WorkflowExecutor] of [workflow/executor.ts], the functions of
    [workflow/storage.ts] and [workflow/scheduler.ts] and the interfaces of
    [workflow/types.ts], with the properties of the engine stated and
    proved over it.

    Conventions of the embedding.
    - A JavaScript [number] that the code uses as a counter or as an epoch
      time in milliseconds is an integer [Z]; a number that may be [NaN]
      (the result of [Number(...)] on a string) is a [num].  Fractions
      and infinities are left out.
    - An optional field [f?: T] is [option T]; [x || d] on such a field is
      written out by [orDefault] (absent, [0] and [""] are falsy).
    - Strings are [string] (the bytes of the UTF-8 text).
    - Built-in functions of the JavaScript runtime ([String.prototype.trim],
      [Number], [JSON.parse] ...) are the fields of the class [JsBuiltins];
      everything proved holds for every implementation of them.
    - The world outside the program (clock, agent, timers, callbacks of the
      host) is an abstract state [W] threaded through the code.  Every
      [await] is a point at which the host may have called [abort()].
      The callbacks of the host return, and change nothing of the
      program but the world: not the flag, not the logs, not the
      workflow they are given, not the files.
    - A [while] loop is a function by recursion on a bound on its turns
      (fuel), with the test of the loop written as in the source; the
      bounds given are shown to suffice. *)

From Stdlib Require Import ZArith List String Ascii Lia.
From stdpp Require Import gmap strings list fin_maps pretty sorting.

Open Scope Z_scope.

(** ** JavaScript values used by the code *)

(** A number that may be [NaN]. *)
Inductive num :=
  | NaN
  | Num (z : Z).

(** [x || d] for an optional number. *)
Definition orDefault (x : option Z) (d : Z) : Z :=
  match x with
  | Some v => if v =? 0 then d else v
  | None => d
  end.

(** [x || d] for an optional string. *)
Definition orDefaultStr (x : option string) (d : string) : string :=
  match x with
  | Some v => if String.eqb v "" then d else v
  | None => d
  end.

(** Truthiness of [string | undefined]. *)
Definition truthyStr (x : option string) : bool :=
  match x with
  | Some v => negb (String.eqb v "")
  | None => false
  end.

(** The values [JSON.parse] produces.  An object is the list of its
    properties in insertion order; a property that is absent reads as
    [undefined]. *)
#[warnings="-register-all"]
Inductive json :=
  | JNull
  | JBool (b : bool)
  | JNum (z : Z)
  | JStr (s : string)
  | JArr (items : list json)
  | JObj (props : list (string * json)).

(** Built-in functions of the runtime that the code calls. *)
Class JsBuiltins := {
  (** [String.prototype.trim] *)
  String_trim : string → string;
  (** [Number(s)] on a string (a result that is not an integer has no
      counterpart in [num]) *)
  Number_ofString : string → num;
  (** [(ms / 1000).toFixed(1)] *)
  seconds_toFixed1 : Z → string;
  (** [new Date(t).toLocaleString("ko-KR")] *)
  Date_toLocaleString : Z → string;
  (** [LocalTZA(t, isUTC)]: local time minus UTC in milliseconds, in
      force at the instant [t] ([isUTC = true]) or at the local time [t]
      ([isUTC = false]); in a zone with daylight saving it depends on
      [t] *)
  LocalTZA : Z → bool → Z;
  (** [JSON.stringify(v)] and [JSON.stringify(v, null, 2)] *)
  JSON_stringify : json → string;
  JSON_stringify2 : json → string;
  (** [JSON.parse]: [None] when it throws a [SyntaxError] *)
  JSON_parse : string → option json;
}.

(** ** [types.ts] *)

Record Schedule := {
  sc_enabled : bool;
  sc_type : string;
  sc_intervalMinutes : option Z;
  sc_time : option string;
  sc_dayOfWeek : option Z;
  sc_lastRun : option Z;
  sc_nextRun : option Z;
}.

Record WorkflowStep := {
  st_id : string;
  st_name : string;
  st_prompt : string;
  st_maxTurns : option Z;
  st_onSuccess : string;
  st_onFailure : string;
  st_retryCount : option Z;
}.

Record Workflow := {
  wf_id : string;
  wf_name : string;
  wf_description : option string;
  wf_enabled : bool;
  wf_mission : option string;
  wf_maxTurns : option Z;
  wf_steps : list WorkflowStep;
  wf_createdAt : Z;
  wf_updatedAt : Z;
  wf_schedule : option Schedule;
}.

Definition DEFAULT_MAX_TURNS : Z := 20.

Inductive LogType := LInfo | LSuccess | LError | LCondition.

Record WorkflowLog := {
  log_timestamp : Z;
  log_stepId : string;
  log_stepName : string;
  log_type : LogType;
  log_message : string;
}.

Record WorkflowExecutionResult := {
  res_success : bool;
  res_workflowId : string;
  res_startTime : Z;
  res_endTime : Z;
  res_stepsExecuted : Z;
  res_lastStepId : option string;
  res_error : option string;
  res_logs : list WorkflowLog;
}.

#[global] Instance Schedule_eq_dec : EqDecision Schedule.
Proof. solve_decision. Defined.
#[global] Instance WorkflowStep_eq_dec : EqDecision WorkflowStep.
Proof. solve_decision. Defined.
#[global] Instance Workflow_eq_dec : EqDecision Workflow.
Proof. solve_decision. Defined.

(** ** The world around one run of the executor *)

(** What one call of [runStepAgent] does: the lines it passes to its
    [onLog] argument while it runs (each with the clock reading at that
    moment), then the promise settles. *)
Inductive AgentReply :=
  | Resolved (success : bool) (result : string)
  | Rejected (message : string).

Record AgentRun := {
  ar_streamed : list (Z * string);
  ar_reply : AgentReply;
}.

(** [ExecutorContext]: the agent, as a transition of the world. *)
Record ExecutorContext (W : Type) := {
  runStepAgent : string → Z → W → AgentRun * W;
}.
Arguments runStepAgent {W} _ _ _ _.

(** The host of a run: the clock, the timer, and the caller that may call
    [abort()] while the executor is suspended at an [await]. *)
Class Host (W : Type) := {
  (** [Date.now()] *)
  Date_now : W → Z * W;
  (** [await new Promise(resolve => setTimeout(resolve, ms))] *)
  setTimeout_await : Z → W → W;
  (** whether [abort()] was called during the suspension that just ended *)
  abortCalled : W → bool * W;
  (** [Math.random().toString(36).substr(2, 9)] *)
  Math_random36 : W → string * W;
}.

(** Whether an agent call counts as a success for the executor. *)
Definition replyOk (r : AgentReply) : bool :=
  match r with
  | Resolved success _ => success
  | Rejected _ => false
  end.

(** What the executor does to the outside, recorded for the statements
    below (the source keeps no such record): a step handed to
    [executeStepWithRetry], an agent call with its arguments and how it
    ended, a timer awaited. *)
Inductive Event :=
  | EvStep (stepId : string)
  | EvAgent (prompt : string) (maxTurns : Z) (ok : bool)
  | EvSleep (ms : Z).

#[global] Instance Event_eq_dec : EqDecision Event.
Proof. solve_decision. Defined.

(** ** [executor.ts]: class [WorkflowExecutor] *)

Section Executor.
Context {W : Type} `{!JsBuiltins} `{!Host W}.

(** The fields set by the constructor. *)
Record WorkflowExecutor := {
  workflow : Workflow;
  ctx : ExecutorContext W;
  onLog : option (WorkflowLog → W → W);
}.

(** The fields that change during a run, with the world and the record
    of outside calls. *)
Record ExecState := {
  world : W;
  logs : list WorkflowLog;
  aborted : bool;
  trace : list Event;
}.

(** Computations of the executor; [None] is a loop that ran out of fuel
    (shown below never to happen). *)
Definition M (A : Type) : Type := ExecState → option (A * ExecState).

#[global] Instance M_ret : MRet M := λ A x s, Some (x, s).
#[global] Instance M_bind : MBind M := λ A B f m s,
  match m s with
  | Some (x, s') => f x s'
  | None => None
  end.

Definition outOfFuel {A} : M A := λ _, None.

(** [this.aborted] and [this.logs] *)
Definition getAborted : M bool := λ s, Some (aborted s, s).

Definition getLogs : M (list WorkflowLog) := λ s, Some (logs s, s).

(** Notes an event in the record of outside calls. *)
Definition record (e : Event) : M unit := λ s,
  Some ((), {| world := world s; logs := logs s; aborted := aborted s;
               trace := trace s ++ [e] |}).

(** [abort()] *)
Definition abort (s : ExecState) : ExecState :=
  {| world := world s; logs := logs s; aborted := true; trace := trace s |}.

(** The end of a suspension: the flag is set if [abort()] was called. *)
Definition resume : M unit := λ s,
  let '(b, w) := abortCalled (world s) in
  Some ((), {| world := w; logs := logs s; aborted := aborted s || b;
               trace := trace s |}).

(** [Date.now()] *)
Definition now : M Z := λ s,
  let '(t, w) := Date_now (world s) in
  Some (t, {| world := w; logs := logs s; aborted := aborted s;
              trace := trace s |}).

(** [new Promise(resolve => setTimeout(resolve, ms))], awaited *)
Definition sleep (ms : Z) : M unit := λ s,
  Some ((), {| world := setTimeout_await ms (world s); logs := logs s;
               aborted := aborted s; trace := trace s ++ [EvSleep ms] |}).

Section Methods.
Variable self : WorkflowExecutor.

(** [this.logs.push(logEntry); this.onLog?.(logEntry)] *)
Definition pushLog (entry : WorkflowLog) : M unit := λ s,
  let w := match onLog self with
           | Some f => f entry (world s)
           | None => world s
           end in
  Some ((), {| world := w; logs := logs s ++ [entry];
               aborted := aborted s; trace := trace s |}).

Definition log (stepId stepName : string) (type : LogType)
    (message : string) : M unit :=
  t ← now;
  pushLog {| log_timestamp := t; log_stepId := stepId;
             log_stepName := stepName; log_type := type;
             log_message := message |}.

(** The lines an agent call streams through its [onLog] argument. *)
Fixpoint logStreamed (stepId stepName : string)
    (lines : list (Z * string)) : M unit :=
  match lines with
  | [] => mret ()
  | (t, text) :: rest =>
      pushLog {| log_timestamp := t; log_stepId := stepId;
                 log_stepName := stepName; log_type := LInfo;
                 log_message := text |};;
      logStreamed stepId stepName rest
  end.

Definition agentRun (prompt : string) (maxTurns : Z) : M AgentRun := λ s,
  let '(r, w) := runStepAgent (ctx self) prompt maxTurns (world s) in
  Some (r, {| world := w; logs := logs s; aborted := aborted s;
              trace := trace s |}).

(** [await this.ctx.runStepAgent(prompt, maxTurns, text => this.log(..))] *)
Definition callAgent (stepId stepName prompt : string) (maxTurns : Z)
    : M AgentReply :=
  run ← agentRun prompt maxTurns;
  record (EvAgent prompt maxTurns (replyOk (ar_reply run)));;
  logStreamed stepId stepName (ar_streamed run);;
  resume;;
  mret (ar_reply run).

Definition executeStep (step : WorkflowStep) : M bool :=
  log (st_id step) (st_name step) LInfo ("🤖 AI 실행: " +:+ st_prompt step);;
  r ← callAgent (st_id step) (st_name step) (st_prompt step)
        (orDefault (st_maxTurns step) DEFAULT_MAX_TURNS);
  match r with
  | Resolved true result =>
      log (st_id step) (st_name step) LSuccess ("✅ 완료: " +:+ result);;
      mret true
  | Resolved false result =>
      log (st_id step) (st_name step) LError ("❌ 실패: " +:+ result);;
      mret false
  | Rejected message =>
      log (st_id step) (st_name step) LError ("오류: " +:+ message);;
      mret false
  end.

(** The [while (attempt <= maxRetries)] loop of [executeStepWithRetry]. *)
Fixpoint retryLoop (fuel : nat) (step : WorkflowStep)
    (maxRetries attempt : Z) : M bool :=
  if attempt <=? maxRetries then
    match fuel with
    | O => outOfFuel
    | S fuel' =>
        ab ← getAborted;
        if ab : bool then
          log (st_id step) (st_name step) LError "워크플로우 중단됨";;
          mret false
        else
          (if 0 <? attempt then
             log (st_id step) (st_name step) LInfo
               ("🔄 재시도 " +:+ pretty attempt +:+ "/" +:+ pretty maxRetries);;
             sleep 1000;;
             resume
           else mret ());;
          success ← executeStep step;
          resume;;
          if success : bool then mret true
          else retryLoop fuel' step maxRetries (attempt + 1)
    end
  else mret false.

Definition executeStepWithRetry (step : WorkflowStep) : M bool :=
  let maxRetries := orDefault (st_retryCount step) 0 in
  retryLoop (Z.to_nat (maxRetries + 1)) step maxRetries 0.

(** [steps.findIndex(s => s.id === id)], [-1] as [None] *)
Definition findIndex (id : string) (steps : list WorkflowStep) : option nat :=
  fst <$> list_find (λ s, st_id s = id) steps.

(** [steps.find(s => s.id === id) || null] *)
Definition findById (id : string) (steps : list WorkflowStep)
    : option WorkflowStep :=
  snd <$> list_find (λ s, st_id s = id) steps.

Definition findNextStep (step : WorkflowStep) (success : bool)
    : option WorkflowStep :=
  let nextStepRef := if success then st_onSuccess step else st_onFailure step in
  if String.eqb nextStepRef "end" then None
  else if String.eqb nextStepRef "next" then
    match findIndex (st_id step) (wf_steps (workflow self)) with
    | None => None
    | Some currentIndex =>
        if Z.of_nat currentIndex >=? Z.of_nat (length (wf_steps (workflow self))) - 1
        then None
        else wf_steps (workflow self) !! S currentIndex
    end
  else if String.eqb nextStepRef "retry" then None
  else findById nextStepRef (wf_steps (workflow self)).

Definition executeMission : M WorkflowExecutionResult :=
  startTime ← now;
  let mission := default "" (wf_mission (workflow self)) in
  let maxTurns := orDefault (wf_maxTurns (workflow self)) 30 in
  log "mission" "미션" LInfo ("🎯 미션: " +:+ mission);;
  log "mission" "미션" LInfo
    ("🤖 AI가 작업을 수행합니다 (최대 " +:+ pretty maxTurns +:+ "턴)...");;
  r ← callAgent "mission" "미션" mission maxTurns;
  match r with
  | Resolved success result =>
      endTime ← now;
      log "mission" "미션" (if success then LSuccess else LError)
        (if success
         then "🎉 미션 완료: " +:+ result +:+ " (" +:+
              seconds_toFixed1 (endTime - startTime) +:+ "초)"
         else "❌ 미션 실패: " +:+ result);;
      l ← getLogs;
      mret {| res_success := success;
                     res_workflowId := wf_id (workflow self);
                     res_startTime := startTime;
                     res_endTime := endTime;
                     res_stepsExecuted := 1;
                     res_lastStepId := Some "mission";
                     res_error := if success then None else Some result;
                     res_logs := l |}
  | Rejected errorMsg =>
      endTime ← now;
      log "mission" "미션" LError ("오류: " +:+ errorMsg);;
      l ← getLogs;
      mret {| res_success := false;
                     res_workflowId := wf_id (workflow self);
                     res_startTime := startTime;
                     res_endTime := endTime;
                     res_stepsExecuted := 1;
                     res_lastStepId := Some "mission";
                     res_error := Some errorMsg;
                     res_logs := l |}
  end.

Definition limitError : string := "단계 실행 횟수 초과 (50회)".
Definition stepFailureError : string := "단계 실패로 워크플로우 종료".
Definition abortError : string := "사용자에 의해 중단됨".
Definition emptyError : string := "미션 또는 단계를 입력하세요".

(** The local variables of [execute] that its loop updates. *)
Record Walk := {
  stepsExecuted : Z;
  lastStepId : option string;
  error : option string;
}.

(** The [while (currentStep && !this.aborted)] loop of [execute]. *)
Fixpoint walk (fuel : nat) (currentStep : option WorkflowStep)
    (v : Walk) : M Walk :=
  ab ← getAborted;
  match currentStep with
  | Some cur =>
      if ab : bool then mret v
      else
        match fuel with
        | O => outOfFuel
        | S fuel' =>
            let lastStepId' := Some (st_id cur) in
            let stepsExecuted' := stepsExecuted v + 1 in
            if 50 <? stepsExecuted' then
              log (st_id cur) (st_name cur) LError limitError;;
              mret {| stepsExecuted := stepsExecuted';
                      lastStepId := lastStepId';
                      error := Some limitError |}
            else
              record (EvStep (st_id cur));;
              success ← executeStepWithRetry cur;
              resume;;
              let next := findNextStep cur success in
              if negb success && negb (bool_decide (is_Some next)) then
                mret {| stepsExecuted := stepsExecuted';
                        lastStepId := lastStepId';
                        error := Some stepFailureError |}
              else
                walk fuel' next
                  {| stepsExecuted := stepsExecuted';
                     lastStepId := lastStepId';
                     error := error v |}
        end
  | None => mret v
  end.

(** [this.workflow.mission && this.workflow.mission.trim()] *)
Definition missionMode : bool :=
  truthyStr (wf_mission (workflow self)) &&
  truthyStr (String_trim <$> wf_mission (workflow self)).

Definition execute : M WorkflowExecutionResult :=
  startTime ← now;
  log "workflow" (wf_name (workflow self)) LInfo
    ("🚀 워크플로우 시작: " +:+ wf_name (workflow self));;
  if missionMode then executeMission
  else
    match wf_steps (workflow self) with
    | [] =>
        endTime ← now;
        l ← getLogs;
      mret {| res_success := false;
                       res_workflowId := wf_id (workflow self);
                       res_startTime := startTime;
                       res_endTime := endTime;
                       res_stepsExecuted := 0;
                       res_lastStepId := None;
                       res_error := Some emptyError;
                       res_logs := l |}
    | first :: _ =>
        v ← walk 51 (Some first)
               {| stepsExecuted := 0; lastStepId := None; error := None |};
        ab ← getAborted;
        let error' := if ab : bool then Some abortError else error v in
        endTime ← now;
        let success := negb (truthyStr error') && negb ab in
        log "workflow" (wf_name (workflow self))
          (if success then LSuccess else LError)
          (if success
           then "🎉 워크플로우 완료 (" +:+ pretty (stepsExecuted v) +:+ "단계, " +:+
                seconds_toFixed1 (endTime - startTime) +:+ "초)"
           else "워크플로우 실패: " +:+ default "undefined" error');;
        l ← getLogs;
      mret {| res_success := success;
                       res_workflowId := wf_id (workflow self);
                       res_startTime := startTime;
                       res_endTime := endTime;
                       res_stepsExecuted := stepsExecuted v;
                       res_lastStepId := lastStepId v;
                       res_error := error';
                       res_logs := l |}
    end.

End Methods.
End Executor.

Arguments WorkflowExecutor : clear implicits.
Arguments ExecState : clear implicits.
Arguments M : clear implicits.

(** ** [storage.ts] *)

(** *** Workflows as the objects that [JSON] reads and writes *)

(** [obj[k]], [None] for [undefined]. *)
Fixpoint lookupProp (k : string) (props : list (string * json)) : option json :=
  match props with
  | [] => None
  | (k', v) :: rest => if String.eqb k k' then Some v else lookupProp k rest
  end.

Definition getProp (k : string) (v : json) : option json :=
  match v with
  | JObj props => lookupProp k props
  | _ => None
  end.

(** [obj[k] = v]: an existing property keeps its place, a new one goes last. *)
Fixpoint assignProp (k : string) (v : json) (props : list (string * json))
    : list (string * json) :=
  match props with
  | [] => [(k, v)]
  | (k', v') :: rest =>
      if String.eqb k k' then (k, v) :: rest else (k', v') :: assignProp k v rest
  end.

Definition setProp (k : string) (v : json) (o : json) : json :=
  match o with
  | JObj props => JObj (assignProp k v props)
  | _ => o
  end.

(** Truthiness of a value that may be [undefined]. *)
Definition truthy (v : option json) : bool :=
  match v with
  | None | Some JNull => false
  | Some (JBool b) => b
  | Some (JNum z) => negb (z =? 0)
  | Some (JStr s) => negb (String.eqb s "")
  | Some (JArr _) | Some (JObj _) => true
  end.

(** [Array.isArray] *)
Definition isArray (v : option json) : bool :=
  match v with
  | Some (JArr _) => true
  | _ => false
  end.

(** The object of a value of a TypeScript interface: an optional field
    that is absent has no property. *)
Definition optProp {A} (k : string) (f : A → json) (x : option A)
    : list (string * json) :=
  match x with
  | Some a => [(k, f a)]
  | None => []
  end.

Definition stepToJson (s : WorkflowStep) : json :=
  JObj ([("id", JStr (st_id s)); ("name", JStr (st_name s));
         ("prompt", JStr (st_prompt s))]
        ++ optProp "maxTurns" JNum (st_maxTurns s)
        ++ [("onSuccess", JStr (st_onSuccess s));
            ("onFailure", JStr (st_onFailure s))]
        ++ optProp "retryCount" JNum (st_retryCount s)).

Definition scheduleToJson (c : Schedule) : json :=
  JObj ([("enabled", JBool (sc_enabled c)); ("type", JStr (sc_type c))]
        ++ optProp "intervalMinutes" JNum (sc_intervalMinutes c)
        ++ optProp "time" JStr (sc_time c)
        ++ optProp "dayOfWeek" JNum (sc_dayOfWeek c)
        ++ optProp "lastRun" JNum (sc_lastRun c)
        ++ optProp "nextRun" JNum (sc_nextRun c)).

Definition toJson (w : Workflow) : json :=
  JObj ([("id", JStr (wf_id w)); ("name", JStr (wf_name w))]
        ++ optProp "description" JStr (wf_description w)
        ++ [("enabled", JBool (wf_enabled w))]
        ++ optProp "mission" JStr (wf_mission w)
        ++ optProp "maxTurns" JNum (wf_maxTurns w)
        ++ [("steps", JArr (stepToJson <$> wf_steps w));
            ("createdAt", JNum (wf_createdAt w));
            ("updatedAt", JNum (wf_updatedAt w))]
        ++ optProp "schedule" scheduleToJson (wf_schedule w)).

(** Record updates used by the code. *)
Definition withIdentity (id name : string) (createdAt updatedAt : Z)
    (w : Workflow) : Workflow :=
  {| wf_id := id; wf_name := name; wf_description := wf_description w;
     wf_enabled := wf_enabled w; wf_mission := wf_mission w;
     wf_maxTurns := wf_maxTurns w; wf_steps := wf_steps w;
     wf_createdAt := createdAt; wf_updatedAt := updatedAt;
     wf_schedule := wf_schedule w |}.

Definition withUpdatedAt (t : Z) (w : Workflow) : Workflow :=
  withIdentity (wf_id w) (wf_name w) (wf_createdAt w) t w.

Definition withSchedule (c : Schedule) (w : Workflow) : Workflow :=
  {| wf_id := wf_id w; wf_name := wf_name w;
     wf_description := wf_description w; wf_enabled := wf_enabled w;
     wf_mission := wf_mission w; wf_maxTurns := wf_maxTurns w;
     wf_steps := wf_steps w; wf_createdAt := wf_createdAt w;
     wf_updatedAt := wf_updatedAt w; wf_schedule := Some c |}.

Definition withLastRun (t : option Z) (c : Schedule) : Schedule :=
  {| sc_enabled := sc_enabled c; sc_type := sc_type c;
     sc_intervalMinutes := sc_intervalMinutes c; sc_time := sc_time c;
     sc_dayOfWeek := sc_dayOfWeek c; sc_lastRun := t;
     sc_nextRun := sc_nextRun c |}.

Definition withNextRun (t : option Z) (c : Schedule) : Schedule :=
  {| sc_enabled := sc_enabled c; sc_type := sc_type c;
     sc_intervalMinutes := sc_intervalMinutes c; sc_time := sc_time c;
     sc_dayOfWeek := sc_dayOfWeek c; sc_lastRun := sc_lastRun c;
     sc_nextRun := t |}.

Section Storage.
Context {W : Type} `{!JsBuiltins} `{!Host W}.

(** [`wf-${Date.now()}-${Math.random().toString(36).substr(2, 9)}`] *)
Definition generateWorkflowId (w : W) : string * W :=
  let '(t, w1) := Date_now w in
  let '(r, w2) := Math_random36 w1 in
  ("wf-" +:+ pretty t +:+ "-" +:+ r, w2).

(** The properties [{...clone}] copies.  The clone of an object is an
    object; a clone of another shape cannot come out of
    [JSON.stringify] of an object and is given no properties here. *)
Definition spread (clone : json) : json :=
  match clone with
  | JObj props => JObj props
  | _ => JObj []
  end.

(** [duplicateWorkflow]; [None] when [JSON.parse] throws. *)
Definition duplicateWorkflow (workflow : Workflow) (w : W) : option json * W :=
  let '(now, w1) := Date_now w in
  match JSON_parse (JSON_stringify (toJson workflow)) with
  | None => (None, w1)
  | Some clone =>
      let '(id, w2) := generateWorkflowId w1 in
      (Some (setProp "updatedAt" (JNum now)
              (setProp "createdAt" (JNum now)
                (setProp "name" (JStr (wf_name workflow +:+ " (복사본)"))
                  (setProp "id" (JStr id) (spread clone))))), w2)
  end.

Definition exportWorkflow (workflow : Workflow) : string :=
  JSON_stringify2 (toJson workflow).

(** [importWorkflow]; [None] is [null].  Reading [.name] of [null]
    throws, which the [catch] turns into [null] like a syntax error
    (the [console.error] of the [catch] is not modelled). *)
Definition importWorkflow (jsonStr : string) (w : W) : option json * W :=
  match JSON_parse jsonStr with
  | None => (None, w)
  | Some JNull => (None, w)
  | Some workflow =>
      if negb (truthy (getProp "name" workflow))
         || negb (isArray (getProp "steps" workflow))
      then (None, w)
      else
        let '(now, w1) := Date_now w in
        let '(id, w2) := generateWorkflowId w1 in
        (Some (setProp "updatedAt" (JNum now)
                (setProp "createdAt" (JNum now)
                  (setProp "id" (JStr id) workflow))), w2)
  end.

(** *** The directory of workflow files

    The files [<id>.json] of [WORKFLOWS_DIR] whose content parses, as a
    map from the file's stem to the workflow it holds. *)

(** [loadWorkflows]: newest first. *)
Definition newerFirst (a b : Workflow) : Prop := wf_updatedAt b ≤ wf_updatedAt a.

#[global] Instance newerFirst_dec a b : Decision (newerFirst a b).
Proof. unfold newerFirst. apply _. Defined.

Definition loadWorkflows (store : gmap string Workflow) : list Workflow :=
  merge_sort newerFirst (snd <$> map_to_list store).

(** [saveWorkflow]: stamps [updatedAt] on the object and writes the file. *)
Definition saveWorkflow (workflow : Workflow) (store : gmap string Workflow)
    (w : W) : Workflow * gmap string Workflow * W :=
  let '(t, w1) := Date_now w in
  let workflow' := withUpdatedAt t workflow in
  (workflow', <[wf_id workflow := workflow']> store, w1).
End Storage.

(** ** [scheduler.ts] *)

(** [s.split(sep)] for a one-character separator. *)
Fixpoint splitOn (sep : ascii) (s : string) : list string :=
  match s with
  | EmptyString => [""]
  | String c rest =>
      let parts := splitOn sep rest in
      if Ascii.eqb c sep then "" :: parts
      else match parts with
           | [] => [String c ""]
           | p :: ps => String c p :: ps
           end
  end.

Module Scheduler.
Section Scheduler.
Context {W : Type} `{!JsBuiltins} `{!Host W}.

(** How the promise of [onWorkflowRun] settles. *)
Inductive RunOutcome :=
  | RunResolved
  | RunRejected (message : string).

Record SchedulerCallbacks := {
  onWorkflowRun : Workflow → W → RunOutcome * W;
  onLog : string → W → W;
}.

(** The world, the workflow files, and the calls of [onWorkflowRun] made
    so far (the last is kept for the statements only).  The files hold
    workflows of the type [Workflow]; nothing but [saveWorkflow] writes
    them during a tick. *)
Record SchedState := {
  world : W;
  store : gmap string Workflow;
  invoked : list (Workflow * RunOutcome);
}.

(** *** Dates

    A [Date] is its time value, [NaN] when invalid.  Local time is told
    from UTC, and UTC from local time, by the offset [LocalTZA] of the
    zone, as ECMAScript defines [LocalTime] and [UTC]; the range check
    of [TimeClip] is left out (no time here comes near 8.64e15 ms). *)

Definition msPerDay : Z := 86400000.
Definition msPerHour : Z := 3600000.
Definition msPerMinute : Z := 60000.

(** [LocalTime(t)] *)
Definition LocalTime (t : Z) : Z := t + LocalTZA t true.

(** [UTC(t)] of a local time [t] *)
Definition UTC (t : Z) : Z := t - LocalTZA t false.

(** [Day(LocalTime(t))] *)
Definition localDay (t : Z) : Z := LocalTime t / msPerDay.

(** [TimeWithinDay(LocalTime(t))] *)
Definition localTimeOfDay (t : Z) : Z := LocalTime t mod msPerDay.

(** [d.setHours(hours, minutes, 0, 0)]:
    [UTC(MakeDate(Day(LocalTime(t)), MakeTime(hours, minutes, 0, 0)))] *)
Definition Date_setHours (hours minutes : num) (t : Z) : num :=
  match hours, minutes with
  | Num h, Num m =>
      Num (UTC (localDay t * msPerDay + (h * msPerHour + m * msPerMinute)))
  | _, _ => NaN
  end.

(** [d.getDay()]: 1 January 1970 was a Thursday. *)
Definition Date_getDay (t : Z) : Z := (localDay t + 4) mod 7.

(** [d.setDate(d.getDate() + k)]: with [l = LocalTime(t)] it is
    [UTC(MakeDate(MakeDay(year(l), month(l), date(l) + k), TimeWithinDay(l)))].
    [MakeDay] counts days past the end of the month into the next one,
    so the local time moves by [k] whole days; the instant moves by as
    much only where the offset of the zone stays the same. *)
Definition Date_addDays (k : Z) (t : Z) : Z := UTC (LocalTime t + k * msPerDay).

(** [const [hours, minutes] = (time || "09:00").split(":").map(Number)];
    a missing second part is [undefined], which [setHours] reads as
    [NaN]. *)
Definition parseTime (time : option string) : num * num :=
  let parts := Number_ofString <$> splitOn ":" (orDefaultStr time "09:00") in
  (default NaN (parts !! 0%nat), default NaN (parts !! 1%nat)).

(** The ["interval"] case. *)
Definition intervalNext (schedule : Schedule) : Z :=
  let intervalMs := orDefault (sc_intervalMinutes schedule) 60 * 60 * 1000 in
  let lastRun := orDefault (sc_lastRun schedule) 0 in
  lastRun + intervalMs.

(** The ["daily"] case; [now] is the reading of [Date.now()] and [date]
    that of [new Date()]. *)
Definition dailyNext (schedule : Schedule) (now date : Z) : num :=
  let '(hours, minutes) := parseTime (sc_time schedule) in
  match Date_setHours hours minutes date with
  | Num next => if next <=? now then Num (Date_addDays 1 next) else Num next
  | NaN => NaN
  end.

(** The ["weekly"] case; [dayOfWeek ?? 1]. *)
Definition weeklyNext (schedule : Schedule) (now date : Z) : num :=
  let '(hours, minutes) := parseTime (sc_time schedule) in
  let targetDay := default 1 (sc_dayOfWeek schedule) in
  match Date_setHours hours minutes date with
  | Num next =>
      let currentDay := Date_getDay next in
      let daysUntil := targetDay - currentDay in
      let daysUntil :=
        if (daysUntil <? 0) || ((daysUntil =? 0) && (next <=? now))
        then daysUntil + 7 else daysUntil in
      Num (Date_addDays daysUntil next)
  | NaN => NaN
  end.

(** [calculateNextRun]; [None] is [null]. *)
Definition calculateNextRun (workflow : Workflow) (w : W) : option num * W :=
  match wf_schedule workflow with
  | None => (None, w)
  | Some schedule =>
      if negb (sc_enabled schedule) then (None, w)
      else
        let '(now, w1) := Date_now w in
        if String.eqb (sc_type schedule) "interval" then
          (Some (Num (intervalNext schedule)), w1)
        else if String.eqb (sc_type schedule) "daily" then
          let '(date, w2) := Date_now w1 in
          (Some (dailyNext schedule now date), w2)
        else if String.eqb (sc_type schedule) "weekly" then
          let '(date, w2) := Date_now w1 in
          (Some (weeklyNext schedule now date), w2)
        else (None, w1)
  end.

(** [calculateNextRun(workflow) || undefined] *)
Definition orUndefined (r : option num) : option Z :=
  match r with
  | Some (Num z) => if z =? 0 then None else Some z
  | _ => None
  end.

(** Truthiness of [number | undefined]. *)
Definition truthyNum (x : option Z) : bool :=
  match x with
  | Some z => negb (z =? 0)
  | None => false
  end.

(** [nextRun ? new Date(nextRun).toLocaleString("ko-KR") : "없음"] *)
Definition nextRunText (nextRun : option Z) : string :=
  match nextRun with
  | Some t => if t =? 0 then "없음" else Date_toLocaleString t
  | None => "없음"
  end.

(** The body of the [for] loop of [checkSchedules]; [now] is the
    reading of the clock at the start of the tick. *)
Definition checkOne (cb : SchedulerCallbacks) (now : Z) (workflow : Workflow)
    (s : SchedState) : SchedState :=
  match wf_schedule workflow with
  | None => s
  | Some schedule =>
      if negb (sc_enabled schedule) || negb (wf_enabled workflow) then s
      else if negb (truthyNum (sc_nextRun schedule)) then
        let '(r, w1) := calculateNextRun workflow (world s) in
        let workflow1 :=
          withSchedule (withNextRun (orUndefined r) schedule) workflow in
        let '(_, store', w2) := saveWorkflow workflow1 (store s) w1 in
        {| world := w2; store := store'; invoked := invoked s |}
      else if default 0 (sc_nextRun schedule) <=? now then
        let w1 := onLog cb ("[Scheduler] 워크플로우 실행: " +:+ wf_name workflow)
                    (world s) in
        let '(outcome, w2) := onWorkflowRun cb workflow w1 in
        match outcome with
        | RunResolved =>
            let schedule1 := withLastRun (Some now) schedule in
            let '(r, w3) := calculateNextRun (withSchedule schedule1 workflow) w2 in
            let schedule2 := withNextRun (orUndefined r) schedule1 in
            let '(workflow3, store', w4) :=
              saveWorkflow (withSchedule schedule2 workflow) (store s) w3 in
            let w5 := onLog cb ("[Scheduler] 완료: " +:+ wf_name workflow +:+
                                ", 다음 실행: " +:+ nextRunText (sc_nextRun schedule2))
                        w4 in
            {| world := w5; store := store';
               invoked := invoked s ++ [(workflow, RunResolved)] |}
        | RunRejected message =>
            let w3 := onLog cb ("[Scheduler] 오류: " +:+ wf_name workflow +:+
                                " - " +:+ message) w2 in
            {| world := w3; store := store s;
               invoked := invoked s ++ [(workflow, RunRejected message)] |}
        end
      else s
  end.

(** [checkSchedules]; [callbacks] is the module variable of that name. *)
Definition checkSchedules (callbacks : option SchedulerCallbacks)
    (s : SchedState) : SchedState :=
  match callbacks with
  | None => s
  | Some cb =>
      let workflows := loadWorkflows (store s) in
      let '(now, w1) := Date_now (world s) in
      foldl (λ s workflow, checkOne cb now workflow s)
        {| world := w1; store := store s; invoked := invoked s |}
        workflows
  end.

(** The tests under which [checkSchedules] runs a workflow at a tick
    that reads [now]. *)
Definition isDue (workflow : Workflow) (now : Z) : bool :=
  match wf_schedule workflow with
  | None => false
  | Some schedule =>
      sc_enabled schedule && wf_enabled workflow &&
      truthyNum (sc_nextRun schedule) &&
      (default 0 (sc_nextRun schedule) <=? now)
  end.
End Scheduler.

Arguments SchedulerCallbacks : clear implicits.
Arguments SchedState : clear implicits.
End Scheduler.

(** ** A runtime and a scripted world to run the code on

    One implementation of [JsBuiltins] (on ASCII text and integers) and
    one of [Host], used to evaluate the definitions on concrete inputs. *)

Module Sim.

Definition isSpace (c : ascii) : bool :=
  let n := nat_of_ascii c in
  ((9 <=? n) && (n <=? 13))%nat || (n =? 32)%nat.

Fixpoint trimStart (s : string) : string :=
  match s with
  | String c rest => if isSpace c then trimStart rest else s
  | EmptyString => EmptyString
  end.

Definition trim (s : string) : string :=
  String.rev (trimStart (String.rev (trimStart s))).

Definition digitOf (c : ascii) : option Z :=
  let n := nat_of_ascii c in
  if ((48 <=? n) && (n <=? 57))%nat then Some (Z.of_nat n - 48) else None.

Fixpoint digitsFrom (acc : Z) (s : string) : option Z :=
  match s with
  | EmptyString => Some acc
  | String c rest =>
      match digitOf c with
      | Some d => digitsFrom (10 * acc + d) rest
      | None => None
      end
  end.

(** [Number] on a string of decimal digits; the empty string is [0]. *)
Definition numberOfString (s : string) : num :=
  match digitsFrom 0 s with
  | Some z => Num z
  | None => NaN
  end.

(** Tenths of a second, rounded down. *)
Definition toFixed1 (ms : Z) : string :=
  pretty (ms / 1000) +:+ "." +:+ pretty ((ms / 100) mod 10).

(** *** JSON text *)

Definition dquote : string := String "034"%char EmptyString.

Fixpoint escape (s : string) : string :=
  match s with
  | EmptyString => EmptyString
  | String c rest =>
      if Ascii.eqb c "034"%char || Ascii.eqb c "\"%char
      then String "\"%char (String c (escape rest))
      else String c (escape rest)
  end.

Definition quoted (s : string) : string := dquote +:+ escape s +:+ dquote.

Fixpoint spaces (n : nat) : string :=
  match n with
  | O => EmptyString
  | S n' => String " "%char (spaces n')
  end.

(** [indent = None] prints on one line, [Some k] with the nesting depth
    [k] and two spaces per level. *)
Definition newline (indent : option nat) : string :=
  match indent with
  | Some k => String "010"%char (spaces (2 * k))
  | None => EmptyString
  end.

Definition deeper (indent : option nat) : option nat := S <$> indent.

Fixpoint stringify (indent : option nat) (v : json) : string :=
  match v with
  | JNull => "null"
  | JBool true => "true"
  | JBool false => "false"
  | JNum z => pretty z
  | JStr s => quoted s
  | JArr [] => "[]"
  | JArr (x :: xs) =>
      "[" +:+ newline (deeper indent) +:+ stringify (deeper indent) x +:+
      (fix items (l : list json) : string :=
         match l with
         | [] => EmptyString
         | y :: ys =>
             "," +:+ newline (deeper indent) +:+ stringify (deeper indent) y +:+
             items ys
         end) xs +:+
      newline indent +:+ "]"
  | JObj [] => "{}"
  | JObj ((k, x) :: xs) =>
      let colon := match indent with Some _ => ": " | None => ":" end in
      "{" +:+ newline (deeper indent) +:+ quoted k +:+ colon +:+
      stringify (deeper indent) x +:+
      (fix members (l : list (string * json)) : string :=
         match l with
         | [] => EmptyString
         | (k', y) :: ys =>
             "," +:+ newline (deeper indent) +:+ quoted k' +:+ colon +:+
             stringify (deeper indent) y +:+ members ys
         end) xs +:+
      newline indent +:+ "}"
  end.

Definition skipSpace (s : string) : string := trimStart s.

(** The text of a string literal after its opening quote. *)
Fixpoint parseString (s : string) : option (string * string) :=
  match s with
  | EmptyString => None
  | String c rest =>
      if Ascii.eqb c "034"%char then Some (EmptyString, rest)
      else if Ascii.eqb c "\"%char then
        match rest with
        | String c' rest' =>
            match parseString rest' with
            | Some (body, tail) => Some (String c' body, tail)
            | None => None
            end
        | EmptyString => None
        end
      else
        match parseString rest with
        | Some (body, tail) => Some (String c body, tail)
        | None => None
        end
  end.

Fixpoint parseDigits (acc : Z) (any : bool) (s : string) : option (Z * string) :=
  match s with
  | String c rest =>
      match digitOf c with
      | Some d => parseDigits (10 * acc + d) true rest
      | None => if any then Some (acc, s) else None
      end
  | EmptyString => if any then Some (acc, s) else None
  end.

Definition dropPrefix (p s : string) : option string :=
  if String.prefix p s
  then Some (String.substring (String.length p) (String.length s - String.length p) s)
  else None.

(** A value, then the rest of the text. *)
Fixpoint parseValue (fuel : nat) (s : string) : option (json * string) :=
  match fuel with
  | O => None
  | S fuel' =>
      let parseItems :=
        fix parseItems (n : nat) (acc : list json) (s : string)
            : option (json * string) :=
          match n with
          | O => None
          | S n' =>
              match parseValue fuel' s with
              | Some (v, rest) =>
                  match skipSpace rest with
                  | String "," rest' => parseItems n' (acc ++ [v]) rest'
                  | String "]" rest' => Some (JArr (acc ++ [v]), rest')
                  | _ => None
                  end
              | None => None
              end
          end in
      let parseMembers :=
        fix parseMembers (n : nat) (acc : list (string * json)) (s : string)
            : option (json * string) :=
          match n with
          | O => None
          | S n' =>
              match skipSpace s with
              | String "034" s1 =>
                  match parseString s1 with
                  | Some (k, s2) =>
                      match skipSpace s2 with
                      | String ":" s3 =>
                          match parseValue fuel' s3 with
                          | Some (v, rest) =>
                              match skipSpace rest with
                              | String "," rest' =>
                                  parseMembers n' (acc ++ [(k, v)]) rest'
                              | String "}" rest' =>
                                  Some (JObj (acc ++ [(k, v)]), rest')
                              | _ => None
                              end
                          | None => None
                          end
                      | _ => None
                      end
                  | None => None
                  end
              | _ => None
              end
          end in
      match skipSpace s with
      | String "034" rest =>
          match parseString rest with
          | Some (body, tail) => Some (JStr body, tail)
          | None => None
          end
      | String "[" rest =>
          match skipSpace rest with
          | String "]" rest' => Some (JArr [], rest')
          | _ => parseItems (String.length rest) [] rest
          end
      | String "{" rest =>
          match skipSpace rest with
          | String "}" rest' => Some (JObj [], rest')
          | _ => parseMembers (String.length rest) [] rest
          end
      | String "-" rest =>
          match parseDigits 0 false rest with
          | Some (z, tail) => Some (JNum (- z), tail)
          | None => None
          end
      | String _ _ as s' =>
          match dropPrefix "null" s', dropPrefix "true" s', dropPrefix "false" s' with
          | Some tail, _, _ => Some (JNull, tail)
          | _, Some tail, _ => Some (JBool true, tail)
          | _, _, Some tail => Some (JBool false, tail)
          | _, _, _ =>
              match parseDigits 0 false s' with
              | Some (z, tail) => Some (JNum z, tail)
              | None => None
              end
          end
      | EmptyString => None
      end
  end.

Definition parse (s : string) : option json :=
  match parseValue (S (String.length s)) s with
  | Some (v, rest) =>
      match skipSpace rest with
      | EmptyString => Some v
      | _ => None
      end
  | None => None
  end.

#[global] Instance builtins : JsBuiltins := {|
  String_trim := trim;
  Number_ofString := numberOfString;
  seconds_toFixed1 := toFixed1;
  Date_toLocaleString := pretty;
  LocalTZA := λ _ _, 9 * 3600000;
  JSON_stringify := stringify None;
  JSON_stringify2 := stringify (Some O);
  JSON_parse := parse;
|}.

(** *** A scripted world

    The clock advances by one millisecond at each reading and by the
    delay of each timer; agent calls, [abort()] calls and scheduled
    runs answer from lists, with a default once a list is used up. *)
Record World := {
  clock : Z;
  replies : list AgentRun;
  aborts : list bool;
  outcomes : list (option string);
}.

Definition ok (result : string) : AgentRun :=
  {| ar_streamed := []; ar_reply := Resolved true result |}.
Definition ko (result : string) : AgentRun :=
  {| ar_streamed := []; ar_reply := Resolved false result |}.
Definition raised (message : string) : AgentRun :=
  {| ar_streamed := []; ar_reply := Rejected message |}.

#[global] Instance host : Host World := {|
  Date_now w :=
    (clock w, {| clock := clock w + 1; replies := replies w;
                 aborts := aborts w; outcomes := outcomes w |});
  setTimeout_await ms w :=
    {| clock := clock w + ms; replies := replies w; aborts := aborts w;
       outcomes := outcomes w |};
  abortCalled w :=
    (default false (head (aborts w)),
     {| clock := clock w; replies := replies w; aborts := tail (aborts w);
        outcomes := outcomes w |});
  Math_random36 w := ("k3x9q0z7a", w);
|}.

Definition agent : ExecutorContext World := {|
  runStepAgent prompt maxTurns w :=
    (default (ok "done") (head (replies w)),
     {| clock := clock w + 1; replies := tail (replies w);
        aborts := aborts w; outcomes := outcomes w |});
|}.

Definition callbacks : Scheduler.SchedulerCallbacks World := {|
  Scheduler.onWorkflowRun workflow w :=
    (match default None (head (outcomes w)) with
     | Some message => Scheduler.RunRejected message
     | None => Scheduler.RunResolved
     end,
     {| clock := clock w + 1; replies := replies w; aborts := aborts w;
        outcomes := tail (outcomes w) |});
  Scheduler.onLog message w := w;
|}.

Definition world0 (t : Z) (rs : list AgentRun) (abs : list bool) : World :=
  {| clock := t; replies := rs; aborts := abs; outcomes := [] |}.

Definition start (w : World) : ExecState World :=
  {| world := w; logs := []; aborted := false; trace := [] |}.

Definition executor (wf : Workflow) : WorkflowExecutor World :=
  {| workflow := wf; ctx := agent; onLog := None |}.

Definition step (id onSuccess onFailure : string) (retryCount : option Z)
    : WorkflowStep :=
  {| st_id := id; st_name := id; st_prompt := "do " +:+ id;
     st_maxTurns := None; st_onSuccess := onSuccess;
     st_onFailure := onFailure; st_retryCount := retryCount |}.

Definition flow (steps : list WorkflowStep) : Workflow :=
  {| wf_id := "wf-1"; wf_name := "demo"; wf_description := None;
     wf_enabled := true; wf_mission := None; wf_maxTurns := None;
     wf_steps := steps; wf_createdAt := 1000; wf_updatedAt := 2000;
     wf_schedule := None |}.

End Sim.

(** ** Concrete workflows *)

Module Ex.

(** One step whose success branch names the step itself. *)
Definition loopFlow : Workflow := Sim.flow [Sim.step "a" "a" "end" None].

(** Two steps in sequence; the first may be retried twice. *)
Definition firstStep : WorkflowStep := Sim.step "a" "next" "retry" (Some 2).
Definition secondStep : WorkflowStep := Sim.step "b" "next" "end" None.
Definition twoSteps : Workflow := Sim.flow [firstStep; secondStep].

(** A mission, with steps that are to be ignored. *)
Definition missionFlow : Workflow :=
  {| wf_id := "wf-2"; wf_name := "inbox"; wf_description := None;
     wf_enabled := true; wf_mission := Some "open the inbox";
     wf_maxTurns := None; wf_steps := [firstStep];
     wf_createdAt := 1000; wf_updatedAt := 2000; wf_schedule := None |}.

Definition scheduleOf (type : string) (intervalMinutes : option Z)
    (time : option string) (dayOfWeek nextRun : option Z) : Schedule :=
  {| sc_enabled := true; sc_type := type;
     sc_intervalMinutes := intervalMinutes; sc_time := time;
     sc_dayOfWeek := dayOfWeek; sc_lastRun := None; sc_nextRun := nextRun |}.

Definition scheduled (schedule : Schedule) : Workflow :=
  {| wf_id := "wf-3"; wf_name := "poll"; wf_description := Some "poll a page";
     wf_enabled := true; wf_mission := Some "check the page";
     wf_maxTurns := Some 10; wf_steps := []; wf_createdAt := 1000;
     wf_updatedAt := 2000; wf_schedule := Some schedule |}.

(** An interval of zero minutes. *)
Definition everyZeroMinutes : Workflow :=
  scheduled (scheduleOf "interval" (Some 0) None None None).

(** Every Monday at 09:00, and every day at 09:00. *)
Definition mondays : Workflow :=
  scheduled (scheduleOf "weekly" None (Some "09:00") (Some 1) None).
Definition mornings : Workflow :=
  scheduled (scheduleOf "daily" None (Some "09:00") None None).

(** Monday 7 October 2024, 10:00 and 09:30 and 08:30 local time (UTC+9). *)
Definition monday0000 : Z := 20003 * 86400000 - 9 * 3600000.
Definition monday1000 : Z := monday0000 + 10 * 3600000.
Definition monday0930 : Z := monday0000 + 9 * 3600000 + 30 * 60000.
Definition monday0830 : Z := monday0000 + 8 * 3600000 + 30 * 60000.

(** A workflow that was due at time 500, the only file of the directory. *)
Definition overdue : Workflow :=
  scheduled (scheduleOf "interval" (Some 5) None None (Some 500)).

Definition overdueStore : gmap string Workflow := {[ "wf-3" := overdue ]}.

(** A tick at time 1000 at which [onWorkflowRun] raises. *)
Definition failingTick : Scheduler.SchedState Sim.World :=
  {| Scheduler.world := {| Sim.clock := 1000; Sim.replies := []; Sim.aborts := [];
                           Sim.outcomes := [Some "browser closed"] |};
     Scheduler.store := overdueStore;
     Scheduler.invoked := [] |}.

(** The text [{"name":42,"steps":[null]}]. *)
Definition illTyped : json := JObj [("name", JNum 42); ("steps", JArr [JNull])].
Definition illTypedText : string := Sim.stringify None illTyped.

End Ex.

(** ** A zone with daylight saving

    A runtime like [Sim.builtins], in a zone that is on UTC until the
    instant [change] and one hour ahead from then on: at [change] the
    clocks go from 02:00 to 03:00.  A local time that the change skips
    is read with the offset before the change, as ECMAScript has it. *)

Module Dst.

(** 02:00 UTC on 6 October 2024. *)
Definition change : Z := 20002 * 86400000 + 2 * 3600000.

Definition builtins : JsBuiltins := {|
  String_trim := Sim.trim;
  Number_ofString := Sim.numberOfString;
  seconds_toFixed1 := Sim.toFixed1;
  Date_toLocaleString := pretty;
  LocalTZA t isUTC :=
    if (if isUTC : bool then t <? change else t <? change + 3600000)
    then 0 else 3600000;
  JSON_stringify := Sim.stringify None;
  JSON_stringify2 := Sim.stringify (Some O);
  JSON_parse := Sim.parse;
|}.

(** Every day at 00:30. *)
Definition nightly : Workflow :=
  Ex.scheduled (Ex.scheduleOf "daily" None (Some "00:30") None None).

End Dst.

(** ** Vocabulary of the statements *)

(** [m] run from [s] returns, with a result and a final state that
    satisfy [Q]. *)
Definition Runs {W A} (m : M W A) (s : ExecState W)
    (Q : A → ExecState W → Prop) : Prop :=
  ∃ a s', m s = Some (a, s') ∧ Q a s'.

(** What an operation that neither touches the flag nor calls outside
    leaves behind. *)
Definition quiet {W} (s : ExecState W) : unit → ExecState W → Prop :=
  λ _ s', aborted s' = aborted s ∧ trace s' = trace s.

(** The calls made by consecutive attempts on one step, the first of
    them being attempt number [k]: an attempt after the first comes
    after a timer of 1000 ms. *)
Fixpoint attemptsFrom (prompt : string) (maxTurns : Z) (k : nat)
    (outs : list bool) : list Event :=
  match outs with
  | [] => []
  | ok :: rest =>
      (match k with O => [] | S _ => [EvSleep 1000] end) ++
      EvAgent prompt maxTurns ok :: attemptsFrom prompt maxTurns (S k) rest
  end.

(** *** The outside calls, told from the world

    The record [trace] is kept by the embedding.  What a run did to the
    outside is told by the world it leaves behind. *)

(** A move of the world that is no agent call and no timer: a reading
    of the clock, an entry given to the log sink of the executor, or a
    poll for [abort()] at the end of a suspension, which alone tells
    whether [abort()] was called. *)
Inductive hostMove {W} `{!Host W} (self : WorkflowExecutor W)
    : bool → W → W → Prop :=
  | move_clock w : hostMove self false w (Date_now w).2
  | move_sink sink entry w :
      onLog self = Some sink → hostMove self false w (sink entry w)
  | move_poll w : hostMove self (abortCalled w).1 w (abortCalled w).2.

(** [path self events seen w w']: the world goes from [w] to [w'] by the
    agent calls and timers of [events], these and no others, in that
    order.  An agent call is [runStepAgent] of the executor's context on
    the prompt and turn bound of the event, applied to the world as it
    is at that point, and it ends as the event says; a timer is
    [setTimeout] awaited.  Before, between and after them the world
    moves by [hostMove] only, and [seen] tells whether one of the polls
    on the way found [abort()] called. *)
Inductive path {W} `{!Host W} (self : WorkflowExecutor W)
    : list Event → bool → W → W → Prop :=
  | path_nil w : path self [] false w w
  | path_move b events seen seen' w w1 w' :
      hostMove self b w w1 → path self events seen w1 w' →
      seen' = b || seen → path self events seen' w w'
  | path_step stepId events seen w w' :
      path self events seen w w' → path self (EvStep stepId :: events) seen w w'
  | path_agent prompt maxTurns ok events seen w w' :
      ok = replyOk (ar_reply (runStepAgent (ctx self) prompt maxTurns w).1) →
      path self events seen (runStepAgent (ctx self) prompt maxTurns w).2 w' →
      path self (EvAgent prompt maxTurns ok :: events) seen w w'
  | path_sleep ms events seen w w' :
      path self events seen (setTimeout_await ms w) w' →
      path self (EvSleep ms :: events) seen w w'.

(** The state [s'] is reached from [s] by outside calls that the record
    tells truly, and the flag is set in [s'] exactly if it was set in
    [s] or a poll found [abort()] called. *)
Definition accounted {W} `{!Host W} (self : WorkflowExecutor W)
    (s s' : ExecState W) : Prop :=
  ∃ events seen,
    trace s' = trace s ++ events ∧
    aborted s' = aborted s || seen ∧
    path self events seen (world s) (world s').

(** The state [s'] is reached from [s] without an outside call and
    without a poll that found [abort()] called. *)
Definition still {W} `{!Host W} (self : WorkflowExecutor W)
    (s s' : ExecState W) : Prop :=
  trace s' = trace s ∧ aborted s' = aborted s ∧
  path self [] false (world s) (world s').

(** The [error] that a reply of the agent leaves in the result of a
    mission: none after a success, the result text after a failure, the
    message of the exception after a call that raised. *)
Definition errorOf (r : AgentReply) : option string :=
  match r with
  | Resolved true _ => None
  | Resolved false result => Some result
  | Rejected message => Some message
  end.

Definition isStep (e : Event) : bool :=
  match e with
  | EvStep _ => true
  | _ => false
  end.

(** The number of steps handed to [executeStepWithRetry]. *)
Definition stepsRun (events : list Event) : Z :=
  Z.of_nat (length (List.filter isStep events)).

Definition executorOf {W} (agent : ExecutorContext W)
    (sink : option (WorkflowLog → W → W)) (w : Workflow) : WorkflowExecutor W :=
  {| workflow := w; ctx := agent; onLog := sink |}.

Definition withStepList (steps : list WorkflowStep) (w : Workflow) : Workflow :=
  {| wf_id := wf_id w; wf_name := wf_name w;
     wf_description := wf_description w; wf_enabled := wf_enabled w;
     wf_mission := wf_mission w; wf_maxTurns := wf_maxTurns w;
     wf_steps := steps; wf_createdAt := wf_createdAt w;
     wf_updatedAt := wf_updatedAt w; wf_schedule := wf_schedule w |}.

(** The executor with other steps in its workflow. *)
Definition withSteps {W} (steps : list WorkflowStep) (self : WorkflowExecutor W)
    : WorkflowExecutor W :=
  executorOf (ctx self) (onLog self) (withStepList steps (workflow self)).

Definition withOnFailure (ref : string) (step : WorkflowStep) : WorkflowStep :=
  {| st_id := st_id step; st_name := st_name step; st_prompt := st_prompt step;
     st_maxTurns := st_maxTurns step; st_onSuccess := st_onSuccess step;
     st_onFailure := ref; st_retryCount := st_retryCount step |}.

(** The executor whose [i]-th step has [onFailure = ref]. *)
Definition setOnFailure {W} (i : nat) (ref : string) (self : WorkflowExecutor W)
    : WorkflowExecutor W :=
  withSteps (alter (withOnFailure ref) i (wf_steps (workflow self))) self.

(** [execute] in step mode up to the point where the first step has
    settled and the executor has resumed from it. *)
Definition throughFirstStep {W} `{!JsBuiltins} `{!Host W}
    (self : WorkflowExecutor W) (first : WorkflowStep) : M W bool :=
  now;;
  log self "workflow" (wf_name (workflow self)) LInfo
    ("🚀 워크플로우 시작: " +:+ wf_name (workflow self));;
  record (EvStep (st_id first));;
  success ← executeStepWithRetry self first;
  resume;;
  mret success.

(** Branch references that end the walk. *)
Definition terminalRef (ref : string) : Prop := ref = "end" ∨ ref = "retry".

(** Two steps that differ at most in which terminal reference their
    [onFailure] holds. *)
Definition sameButTerminal (a b : WorkflowStep) : Prop :=
  st_id a = st_id b ∧ st_name a = st_name b ∧ st_prompt a = st_prompt b ∧
  st_maxTurns a = st_maxTurns b ∧ st_onSuccess a = st_onSuccess b ∧
  st_retryCount a = st_retryCount b ∧
  (st_onFailure a = st_onFailure b ∨
   (terminalRef (st_onFailure a) ∧ terminalRef (st_onFailure b))).

(** What [importWorkflow] checks of the parsed value. *)
Definition importable (v : json) : bool :=
  truthy (getProp "name" v) && isArray (getProp "steps" v).

(** A time of day that a clock shows. *)
Definition validTime (hours minutes : Z) : Prop :=
  0 ≤ hours < 24 ∧ 0 ≤ minutes < 60.

(** The instant of the local day of [t] at which the clock shows [h:m]. *)
Definition atTime `{!JsBuiltins} (h m t : Z) : Z :=
  Scheduler.UTC
    (Scheduler.localDay t * Scheduler.msPerDay +
     (h * Scheduler.msPerHour + m * Scheduler.msPerMinute)).

(** A zone whose local time is UTC plus [offset] at every instant: no
    daylight saving, no change of the zone's rules. *)
Definition fixedOffset `{!JsBuiltins} (offset : Z) : Prop :=
  ∀ t isUTC, LocalTZA t isUTC = offset.

(** Every file [<id>.json] holds the workflow of that id. *)
Definition storeOK (store : gmap string Workflow) : Prop :=
  ∀ k v, store !! k = Some v → wf_id v = k.

(** The loop of [checkSchedules] over the loaded workflows. *)
Definition pass {W} `{!JsBuiltins} `{!Host W}
    (cb : Scheduler.SchedulerCallbacks W) (now : Z)
    : Scheduler.SchedState W → list Workflow → Scheduler.SchedState W :=
  foldl (λ s workflow, Scheduler.checkOne cb now workflow s).

(** The record of a due workflow [w] as [checkSchedules] writes it after
    a run that returned: [lastRun] is the tick's [now], [nextRun] is
    computed anew (in the world [wa] that the run left), and
    [saveWorkflow] stamps [updatedAt = t]. *)
Definition rescheduled {W} `{!JsBuiltins} `{!Host W} (now : Z) (wa : W) (t : Z)
    (schedule : Schedule) (w : Workflow) : Workflow :=
  withUpdatedAt t
    (withSchedule
       (withNextRun
          (Scheduler.orUndefined
             (Scheduler.calculateNextRun
                (withSchedule (withLastRun (Some now) schedule) w) wa).1)
          (withLastRun (Some now) schedule)) w).

(** The file of [w] after a pass that ran it with [outcome]. *)
Definition settledAt {W} `{!JsBuiltins} `{!Host W} (now : Z) (w : Workflow)
    (outcome : Scheduler.RunOutcome) (entry : option Workflow) : Prop :=
  match outcome with
  | Scheduler.RunRejected _ => entry = Some w
  | Scheduler.RunResolved =>
      ∃ schedule (wa : W) t,
        wf_schedule w = Some schedule ∧
        entry = Some (rescheduled now wa t schedule w)
  end.

(** *** The runs of a tick, told from the world

    The list [invoked] is kept by the embedding.  What a tick did to the
    outside is told by the world it leaves behind. *)

(** A move of the world at a tick that is no run of a workflow: a
    reading of the clock, or a line given to [onLog]. *)
Inductive tickMove {W} `{!Host W} (cb : Scheduler.SchedulerCallbacks W)
    : W → W → Prop :=
  | tick_clock w : tickMove cb w (Date_now w).2
  | tick_log message w : tickMove cb w (Scheduler.onLog cb message w).

(** [ran cb calls w w']: the world goes from [w] to [w'] by the calls
    of [onWorkflowRun] listed in [calls], these and no others, in that
    order.  Each is [onWorkflowRun] of the callbacks applied to the
    workflow of the entry and to the world as it is at that point, and
    the entry holds how that call settled.  Before, between and after
    the calls the world moves by [tickMove] only. *)
Inductive ran {W} `{!Host W} (cb : Scheduler.SchedulerCallbacks W)
    : list (Workflow * Scheduler.RunOutcome) → W → W → Prop :=
  | ran_nil w : ran cb [] w w
  | ran_move calls w w1 w' :
      tickMove cb w w1 → ran cb calls w1 w' → ran cb calls w w'
  | ran_call workflow outcome calls w w' :
      outcome = (Scheduler.onWorkflowRun cb workflow w).1 →
      ran cb calls (Scheduler.onWorkflowRun cb workflow w).2 w' →
      ran cb ((workflow, outcome) :: calls) w w'.


(** ** Vocabulary of the further statements *)

(** Every run of [m] that returns relates the state it starts from to
    the state it leaves by [R]. *)
Definition Keeps {W A} (R : ExecState W → ExecState W → Prop) (m : M W A)
    : Prop :=
  ∀ s a s', m s = Some (a, s') → R s s'.

(** The log of [s'] is that of [s] with entries added at its end. *)
Definition grows {W} (s s' : ExecState W) : Prop :=
  ∃ added, logs s' = logs s ++ added.

(** The entry with which [execute] opens its log. *)
Definition startEntry (t : Z) (w : Workflow) : WorkflowLog :=
  {| log_timestamp := t; log_stepId := "workflow"; log_stepName := wf_name w;
     log_type := LInfo;
     log_message := "🚀 워크플로우 시작: " +:+ wf_name w |}.

(** The variables of the walk after a turn on [cur] that leaves [err]
    as the error. *)
Definition stepped (cur : WorkflowStep) (err : option string) (v : Walk) : Walk :=
  {| stepsExecuted := stepsExecuted v + 1; lastStepId := Some (st_id cur);
     error := err |}.

(** An outside call that a workflow with the steps [steps] accounts for:
    a step of the workflow handed to the retry loop, an agent call with
    the prompt and the turn bound of one of its steps, or the timer of
    a retry. *)
Definition ofWorkflow (steps : list WorkflowStep) (e : Event) : Prop :=
  match e with
  | EvStep id => ∃ st, st ∈ steps ∧ st_id st = id
  | EvAgent prompt maxTurns _ =>
      ∃ st, st ∈ steps ∧ st_prompt st = prompt ∧
            orDefault (st_maxTurns st) DEFAULT_MAX_TURNS = maxTurns
  | EvSleep ms => ms = 1000
  end.

(** The course of a run in step mode: the steps handed to the retry
    loop, in order, each with the outcomes of its attempts. *)
Definition Course : Type := list (WorkflowStep * list bool).

(** Whether the attempts on a step ended in a success. *)
Definition succeeded (outs : list bool) : bool := default false (last outs).

(** The outside calls of a course. *)
Definition traceOf (course : Course) : list Event :=
  course ≫= λ '(st, outs),
    EvStep (st_id st) ::
    attemptsFrom (st_prompt st) (orDefault (st_maxTurns st) DEFAULT_MAX_TURNS)
      0 outs.

(** Each step of the course but the last is followed by the step that
    [findNextStep] gives for it and the outcome of its attempts. *)
Fixpoint followed {W} (self : WorkflowExecutor W) (course : Course) : Prop :=
  match course with
  | (a, outs) :: (((b, _) :: _) as rest) =>
      findNextStep self a (succeeded outs) = Some b ∧ followed self rest
  | _ => True
  end.

(** The course ends with a step whose attempts ended as [ok] says and
    for which [findNextStep] then gives no step; [lastStepId] is
    its id. *)
Definition endsWith {W} (self : WorkflowExecutor W) (course : Course)
    (ok : bool) (lastStepId : option string) : Prop :=
  ∃ a outs,
    last course = Some (a, outs) ∧ succeeded outs = ok ∧
    findNextStep self a ok = None ∧ lastStepId = Some (st_id a).

(** A step in a chain: success leads to the step that follows, and the
    retry count is not negative. *)
Definition chained (st : WorkflowStep) : Prop :=
  st_onSuccess st = "next" ∧ 0 ≤ orDefault (st_retryCount st) 0.

(** The outside calls of a run through [steps] in which every step
    succeeds at its first attempt. *)
Definition straightRun (steps : list WorkflowStep) : list Event :=
  steps ≫= λ st,
    [EvStep (st_id st);
     EvAgent (st_prompt st) (orDefault (st_maxTurns st) DEFAULT_MAX_TURNS) true].

(** *** A world in which nothing goes wrong

    The agent succeeds at every call and nobody calls [abort()]; the
    world is the clock. *)
Module Calm.

Definition host : Host Z := {|
  Date_now t := (t, t + 1);
  setTimeout_await ms t := t + ms;
  abortCalled t := (false, t);
  Math_random36 t := ("k3x9q0z7a", t);
|}.

Definition agent : ExecutorContext Z := {|
  runStepAgent prompt maxTurns t := (Sim.ok "done", t + 1);
|}.

Definition executor (wf : Workflow) : WorkflowExecutor Z :=
  {| workflow := wf; ctx := agent; onLog := None |}.

Definition start (t : Z) : ExecState Z :=
  {| world := t; logs := []; aborted := false; trace := [] |}.

End Calm.

(** ** [storage.ts]: the rest of the module *)

Section StorageMore.
Context {W : Type} `{!JsBuiltins} `{!Host W}.

(** [createWorkflow]; [description] may be left out. *)
Definition createWorkflow (name : string) (description : option string)
    (w : W) : Workflow * W :=
  let '(now, w1) := Date_now w in
  let '(id, w2) := generateWorkflowId w1 in
  ({| wf_id := id; wf_name := name; wf_description := description;
      wf_enabled := true; wf_mission := None; wf_maxTurns := None;
      wf_steps := []; wf_createdAt := now; wf_updatedAt := now;
      wf_schedule := None |}, w2).

End StorageMore.

(** *** The files themselves

    [WORKFLOWS_DIR] as the file system has it: [None] while the
    directory does not exist, else the text of each file by its name.
    [path.join] is not modelled beyond the joining: an id is taken to
    hold no path separator.  A file that exists can be read; whether
    it can be unlinked is for the file system to say. *)

Module Files.
Section Files.
Context {W : Type} `{!JsBuiltins} `{!Host W}.

Definition Dir : Type := option (gmap string string).

(** [fs.readFileSync(path, "utf-8")]; [None] when it throws. *)
Definition readFileSync (name : string) (d : Dir) : option string :=
  d ≫= (.!! name).

(** [fs.existsSync(path)] for a file of the directory. *)
Definition existsSync (name : string) (d : Dir) : bool :=
  bool_decide (is_Some (readFileSync name d)).

Definition writeFileSync (name content : string) (d : Dir) : Dir :=
  (λ files, <[name := content]> files) <$> d.

(** [fs.unlinkSync(path)]; [None] when it throws.  [refused] tells the
    names that the file system does not let go (no permission on the
    directory, a file system mounted read-only): on these, and on a
    name that does not exist, it throws. *)
Definition unlinkSync (refused : string → bool) (name : string) (d : Dir)
    : option Dir :=
  if refused name || negb (existsSync name d) then None
  else Some ((λ files, delete name files) <$> d).

(** [if (!fs.existsSync(WORKFLOWS_DIR)) fs.mkdirSync(WORKFLOWS_DIR, ..)] *)
Definition ensureWorkflowsDir (d : Dir) : Dir :=
  match d with
  | None => Some ∅
  | Some _ => d
  end.

(** The name of the file of [id] in the directory. *)
Definition getWorkflowPath (id : string) : string := id +:+ ".json".

(** [loadWorkflow]; [None] is [null] (also what [JSON.parse] makes of
    the text [null]). *)
Definition loadWorkflow (id : string) (d : Dir) : option json :=
  let filePath := getWorkflowPath id in
  if negb (existsSync filePath d) then None
  else
    match readFileSync filePath d ≫= JSON_parse with
    | Some JNull => None
    | r => r
    end.

(** [saveWorkflow] on the files. *)
Definition saveWorkflow (workflow : Workflow) (d : Dir) (w : W)
    : Workflow * Dir * W :=
  let d1 := ensureWorkflowsDir d in
  let filePath := getWorkflowPath (wf_id workflow) in
  let '(t, w1) := Date_now w in
  let workflow' := withUpdatedAt t workflow in
  (workflow', writeFileSync filePath (JSON_stringify2 (toJson workflow')) d1, w1).

(** [deleteWorkflow]: an exception of [unlinkSync] is caught, and
    [false] returned (the [console.error] of the [catch] is not
    modelled). *)
Definition deleteWorkflow (refused : string → bool) (id : string) (d : Dir)
    : bool * Dir :=
  let filePath := getWorkflowPath id in
  if negb (existsSync filePath d) then (false, d)
  else
    match unlinkSync refused filePath d with
    | Some d' => (true, d')
    | None => (false, d)
    end.

End Files.
End Files.

(** ** [web-client.ts]: the message [saveWorkflow]

    The branch [msg.type === "saveWorkflow"] of the message handler that
    [startWebClient] installs: the workflow it stores and sends back in
    its reply, and the files.  The workflow of a message that carries
    no [id] reads as one with the empty id. *)

Section WebClient.
Context {W : Type} `{!JsBuiltins} `{!Host W}.

Definition onSaveWorkflow (wfData : Workflow) (d : Files.Dir) (w : W)
    : Workflow * Files.Dir * W :=
  let '(wfData1, w2) :=
    if negb (truthyStr (Some (wf_id wfData))) then
      let '(id, w1) := generateWorkflowId w in
      let '(createdAt, w2) := Date_now w1 in
      (withIdentity id (wf_name wfData) createdAt (wf_updatedAt wfData) wfData,
       w2)
    else (wfData, w) in
  let '(updatedAt, w3) := Date_now w2 in
  Files.saveWorkflow (withUpdatedAt updatedAt wfData1) d w3.

End WebClient.

(** No character of [s] is a dash. *)
Fixpoint dashFree (s : string) : bool :=
  match s with
  | EmptyString => true
  | String c rest => negb (Ascii.eqb c "-") && dashFree rest
  end.

(** ** [scheduler.ts]: the rest of the module *)

(** Two schedules that differ at most in [lastRun] and [nextRun], and
    two workflows that differ at most in those and in [updatedAt]. *)
Definition sameSchedule (c c' : Schedule) : Prop :=
  sc_enabled c = sc_enabled c' ∧ sc_type c = sc_type c' ∧
  sc_intervalMinutes c = sc_intervalMinutes c' ∧ sc_time c = sc_time c' ∧
  sc_dayOfWeek c = sc_dayOfWeek c'.

Definition sameDefinition (v v' : Workflow) : Prop :=
  wf_id v = wf_id v' ∧ wf_name v = wf_name v' ∧
  wf_description v = wf_description v' ∧ wf_enabled v = wf_enabled v' ∧
  wf_mission v = wf_mission v' ∧ wf_maxTurns v = wf_maxTurns v' ∧
  wf_steps v = wf_steps v' ∧ wf_createdAt v = wf_createdAt v' ∧
  option_Forall2 sameSchedule (wf_schedule v) (wf_schedule v').

(** The files before ([st0]) and after ([st]): the same ids, each with
    the same definition. *)
Definition sameFiles (st0 st : gmap string Workflow) : Prop :=
  ∀ k, option_Forall2 sameDefinition (st0 !! k) (st !! k).

(** [w.schedule?.enabled] *)
Definition scheduleEnabled (workflow : Workflow) : bool :=
  match wf_schedule workflow with
  | Some schedule => sc_enabled schedule
  | None => false
  end.

(** A schedule type for which [calculateNextRun] has no case. *)
Definition unknownType (schedule : Schedule) : Prop :=
  sc_type schedule ≠ "interval" ∧ sc_type schedule ≠ "daily" ∧
  sc_type schedule ≠ "weekly".

Section SchedulerControl.
Import Scheduler.
Context {W : Type} `{!JsBuiltins} `{!Host W}.

(** [getNextRunTime]: the time value of the [Date] returned, [None] for
    [null]. *)
Definition getNextRunTime (workflow : Workflow) (w : W) : option Z * W :=
  let '(nextRun, w1) := calculateNextRun workflow w in
  (orUndefined nextRun, w1).

(** The module variables [schedulerInterval] (the handle of the timer)
    and [callbacks], the state the scheduler works on, and the interval
    timers of the runtime that are armed, by their handles; each of them
    calls [checkSchedules] when it fires. *)
Record SchedulerModule := {
  schedulerInterval : option nat;
  callbacks : option (SchedulerCallbacks W);
  sched : SchedState W;
  timers : list nat;
  nextTimer : nat;
}.

(** [setInterval(checkSchedules, 60 * 1000)] *)
Definition setInterval (p : SchedulerModule) : nat * SchedulerModule :=
  (nextTimer p,
   {| schedulerInterval := schedulerInterval p; callbacks := callbacks p;
      sched := sched p; timers := timers p ++ [nextTimer p];
      nextTimer := S (nextTimer p) |}).

(** [clearInterval(handle)] *)
Definition clearInterval (handle : nat) (p : SchedulerModule) : SchedulerModule :=
  {| schedulerInterval := schedulerInterval p; callbacks := callbacks p;
     sched := sched p; timers := filter (λ h, h ≠ handle) (timers p);
     nextTimer := nextTimer p |}.

(** The body of the first loop of [startScheduler]: the workflow as the
    loop leaves it, and the state. *)
Definition initOne (s : SchedState W) (workflow : Workflow)
    : Workflow * SchedState W :=
  match wf_schedule workflow with
  | None => (workflow, s)
  | Some schedule =>
      if sc_enabled schedule && negb (truthyNum (sc_nextRun schedule)) then
        let '(r, w1) := calculateNextRun workflow (world s) in
        let workflow1 :=
          withSchedule (withNextRun (orUndefined r) schedule) workflow in
        let '(workflow2, store', w2) := saveWorkflow workflow1 (store s) w1 in
        (workflow2, {| world := w2; store := store'; invoked := invoked s |})
      else (workflow, s)
  end.

Fixpoint initAll (workflows : list Workflow) (s : SchedState W)
    : list Workflow * SchedState W :=
  match workflows with
  | [] => ([], s)
  | workflow :: rest =>
      let '(workflow', s1) := initOne s workflow in
      let '(rest', s2) := initAll rest s1 in
      (workflow' :: rest', s2)
  end.

(** The last loop of [startScheduler]: a line for each scheduled
    workflow that has a [nextRun]. *)
Definition listScheduled (cb : SchedulerCallbacks W) (scheduled : list Workflow)
    (w : W) : W :=
  foldl (λ w x,
           match wf_schedule x ≫= sc_nextRun with
           | Some nextRun =>
               if nextRun =? 0 then w
               else onLog cb ("  - " +:+ wf_name x +:+ ": " +:+
                              Date_toLocaleString nextRun) w
           | None => w
           end) w scheduled.

Definition startScheduler (cb : SchedulerCallbacks W) (p : SchedulerModule)
    : SchedulerModule :=
  let p1 := match schedulerInterval p with
            | Some handle => clearInterval handle p
            | None => p
            end in
  let workflows := loadWorkflows (store (sched p1)) in
  let '(workflows', s1) := initAll workflows (sched p1) in
  let '(handle, p2) := setInterval p1 in
  let w1 := onLog cb "[Scheduler] 스케줄러 시작됨" (world s1) in
  let scheduled :=
    filter (λ x, scheduleEnabled x && wf_enabled x = true) workflows' in
  let w2 :=
    if bool_decide (0 < length scheduled)%nat then
      listScheduled cb scheduled
        (onLog cb ("[Scheduler] 활성화된 스케줄: " +:+
                   pretty (length scheduled) +:+ "개") w1)
    else w1 in
  {| schedulerInterval := Some handle; callbacks := Some cb;
     sched := {| world := w2; store := store s1; invoked := invoked s1 |};
     timers := timers p2; nextTimer := nextTimer p2 |}.

Definition stopScheduler (p : SchedulerModule) : SchedulerModule :=
  let p1 := match schedulerInterval p with
            | Some handle => clearInterval handle p
            | None => p
            end in
  {| schedulerInterval := None; callbacks := None; sched := sched p1;
     timers := timers p1; nextTimer := nextTimer p1 |}.

(** An armed timer fires: [checkSchedules] runs, with the [callbacks]
    that the module holds at that moment. *)
Definition tick (p : SchedulerModule) : SchedulerModule :=
  {| schedulerInterval := schedulerInterval p; callbacks := callbacks p;
     sched := checkSchedules (callbacks p) (sched p);
     timers := timers p; nextTimer := nextTimer p |}.

(** A minute passes: every armed timer fires. *)
Definition minute (p : SchedulerModule) : SchedulerModule :=
  foldl (λ p _, tick p) p (timers p).

(** What happens to the module over time. *)
Inductive Call :=
  | Start (cb : SchedulerCallbacks W)
  | Stop
  | Minute.

Definition call (p : SchedulerModule) (c : Call) : SchedulerModule :=
  match c with
  | Start cb => startScheduler cb p
  | Stop => stopScheduler p
  | Minute => minute p
  end.

(** The module as it is loaded, over the state [s]. *)
Definition loaded (s : SchedState W) : SchedulerModule :=
  {| schedulerInterval := None; callbacks := None; sched := s;
     timers := []; nextTimer := 0 |}.

(** [n] ticks of [checkSchedules] in a row. *)
Fixpoint ticks (n : nat) (cb : SchedulerCallbacks W) (s : SchedState W)
    : SchedState W :=
  match n with
  | O => s
  | S n' => ticks n' cb (checkSchedules (Some cb) s)
  end.

End SchedulerControl.

Arguments SchedulerModule : clear implicits.
Arguments Call : clear implicits.

(** Whether the first loop of [startScheduler] computes a [nextRun] for
    the workflow: [workflow.schedule?.enabled && !workflow.schedule.nextRun]. *)
Definition needsNextRun (workflow : Workflow) : bool :=
  match wf_schedule workflow with
  | Some schedule =>
      sc_enabled schedule && negb (Scheduler.truthyNum (sc_nextRun schedule))
  | None => false
  end.

(** ** More concrete workflows *)

Module Cases.

(** Every five minutes, never run so far. *)
Definition neverRun : Workflow :=
  Ex.scheduled (Ex.scheduleOf "interval" (Some 5) None None None).

(** A schedule of a type the scheduler does not know. *)
Definition hourly : Workflow :=
  Ex.scheduled (Ex.scheduleOf "hourly" None None None None).

(** The same, switched off: the schedule is enabled, the workflow is
    not. *)
Definition switchedOff : Workflow :=
  {| wf_id := "wf-4"; wf_name := "off"; wf_description := None;
     wf_enabled := false; wf_mission := Some "check the page";
     wf_maxTurns := None; wf_steps := []; wf_createdAt := 1000;
     wf_updatedAt := 2000;
     wf_schedule := Some (Ex.scheduleOf "interval" (Some 5) None None None) |}.

(** Four steps, the first and the third with the same id. *)
Definition again : WorkflowStep :=
  {| st_id := "a"; st_name := "again"; st_prompt := "do a again";
     st_maxTurns := None; st_onSuccess := "next"; st_onFailure := "end";
     st_retryCount := None |}.

Definition twins : Workflow :=
  Sim.flow [Sim.step "a" "next" "end" None; Sim.step "b" "next" "end" None;
            again; Sim.step "c" "b" "a" None].

(** The directory with [w] as its only file, at the time [t], nothing
    run so far; every run of the host returns. *)
Definition only (w : Workflow) (t : Z) : Scheduler.SchedState Sim.World :=
  {| Scheduler.world := {| Sim.clock := t; Sim.replies := []; Sim.aborts := [];
                           Sim.outcomes := [] |};
     Scheduler.store := {[ wf_id w := w ]};
     Scheduler.invoked := [] |}.

End Cases.

(** The timer that the module remembers is the one timer armed, and
    the module holds callbacks exactly while it remembers a timer. *)
Definition wired {W} (p : SchedulerModule W) : Prop :=
  timers p = option_list (schedulerInterval p) ∧
  (callbacks p = None ↔ schedulerInterval p = None).

(** * Properties *)
(** ** Branch resolution *)

Section FindNextStep.
Context {W : Type}.
Variable self : WorkflowExecutor W.
Local Abbreviation steps := (wf_steps (workflow self)).

Lemma findIndex_unique (step : WorkflowStep) (i : nat) :
  NoDup (st_id <$> steps) → steps !! i = Some step →
  findIndex (st_id step) steps = Some i.
Proof.
  intros Hnd Hi. unfold findIndex.
  destruct (list_find _ steps) as [[j t]|] eqn:E; simpl.
  - apply list_find_Some in E as (Hj & Hid & _).
    f_equal. eapply NoDup_lookup; [exact Hnd | |].
    + rewrite list_lookup_fmap, Hj. simpl. by rewrite Hid.
    + by rewrite list_lookup_fmap, Hi.
  - apply list_find_None in E.
    rewrite Forall_forall in E. exfalso. eapply E; [|reflexivity].
    eapply list_elem_of_lookup_2; eauto.
Qed.

Lemma findIndex_absent (id : string) :
  (∀ t, t ∈ steps → st_id t ≠ id) → findIndex id steps = None.
Proof.
  intros Hno. unfold findIndex.
  destruct (list_find _ steps) as [[j t]|] eqn:E; [|done].
  apply list_find_Some in E as (Hj & Hid & _).
  exfalso. eapply Hno; [|exact Hid]. eapply list_elem_of_lookup_2; eauto.
Qed.

Lemma findById_spec (id : string) :
  match findById id steps with
  | Some t => t ∈ steps ∧ st_id t = id
  | None => ∀ t, t ∈ steps → st_id t ≠ id
  end.
Proof.
  unfold findById.
  destruct (list_find _ steps) as [[j t]|] eqn:E; simpl.
  - apply list_find_Some in E as (Hj & Hid & _).
    split; [eapply list_elem_of_lookup_2; eauto | done].
  - apply list_find_None in E. rewrite Forall_forall in E. exact E.
Qed.

(** C4.  [findNextStep] reads [onSuccess] after a success and [onFailure]
    after a failure.  ["end"] and ["retry"] give no next step.  ["next"]
    gives the step that follows the current one in [steps] (ids being
    unique), none when the current step is the last one or is not among
    [steps].  Any other reference is looked up by id: the result is a
    step of [steps] with that id, or none when no step has it. *)
Theorem findNextStep_resolves (step : WorkflowStep) (success : bool) :
  let ref := if success then st_onSuccess step else st_onFailure step in
  (ref = "end" ∨ ref = "retry" → findNextStep self step success = None) ∧
  (ref = "next" →
     (∀ i, NoDup (st_id <$> steps) → steps !! i = Some step →
           findNextStep self step success = steps !! S i ∧
           (S i = length steps → findNextStep self step success = None)) ∧
     ((∀ t, t ∈ steps → st_id t ≠ st_id step) →
        findNextStep self step success = None)) ∧
  (ref ≠ "end" → ref ≠ "next" → ref ≠ "retry" →
     match findNextStep self step success with
     | Some t => t ∈ steps ∧ st_id t = ref
     | None => ∀ t, t ∈ steps → st_id t ≠ ref
     end).
Proof.
  intros ref. unfold findNextStep. fold ref.
  split; [|split].
  - intros [-> | ->]; reflexivity.
  - intros ->. simpl. split.
    + intros i Hnd Hi. rewrite (findIndex_unique step i Hnd Hi).
      assert (Hlt : (i < length steps)%nat) by (eapply lookup_lt_Some; eauto).
      destruct (Z.geb_spec (Z.of_nat i) (Z.of_nat (length steps) - 1)) as [Hge|Hlt'].
      * assert (S i = length steps) by lia.
        split; [|done]. symmetry. apply lookup_ge_None. lia.
      * split; [done|]. intros. lia.
    + intros Hno. by rewrite (findIndex_absent _ Hno).
  - intros Hend Hnext Hretry.
    apply String.eqb_neq in Hend, Hnext, Hretry.
    rewrite Hend, Hnext, Hretry. apply findById_spec.
Qed.
End FindNextStep.

Lemma findNextStep_resolves_witness :
  NoDup (st_id <$> wf_steps Ex.twoSteps) ∧
  wf_steps Ex.twoSteps !! 0%nat = Some Ex.firstStep ∧
  findNextStep (Sim.executor Ex.twoSteps) Ex.firstStep true = Some Ex.secondStep ∧
  findNextStep (Sim.executor Ex.twoSteps) Ex.secondStep true = None ∧
  findNextStep (Sim.executor Ex.twoSteps) Ex.firstStep false = None ∧
  match findNextStep (Sim.executor Ex.loopFlow) (Sim.step "a" "a" "end" None) true with
  | Some t => st_id t = "a"
  | None => False
  end.
Proof.
  assert (Hnd : NoDup (st_id <$> wf_steps Ex.twoSteps)).
  { refine (bool_decide_unpack (NoDup _) _). vm_compute. exact I. }
  split; [exact Hnd|]. split; [reflexivity|].
  destruct (findNextStep_resolves (Sim.executor Ex.twoSteps) Ex.firstStep true)
    as (_ & Hnext & _).
  destruct (findNextStep_resolves (Sim.executor Ex.twoSteps) Ex.secondStep true)
    as (_ & Hlast & _).
  destruct (findNextStep_resolves (Sim.executor Ex.twoSteps) Ex.firstStep false)
    as (Hend & _ & _).
  destruct (findNextStep_resolves (Sim.executor Ex.loopFlow)
              (Sim.step "a" "a" "end" None) true) as (_ & _ & Hid).
  destruct (Hnext eq_refl) as [Hin _].
  destruct (Hin 0%nat Hnd eq_refl) as [Hfollow _].
  destruct (Hlast eq_refl) as [Hin2 _].
  destruct (Hin2 1%nat Hnd eq_refl) as [_ Hnone].
  split; [exact Hfollow|]. split; [exact (Hnone eq_refl)|].
  split; [apply Hend; right; reflexivity|].
  specialize (Hid ltac:(discriminate) ltac:(discriminate) ltac:(discriminate)).
  destruct (findNextStep (Sim.executor Ex.loopFlow) (Sim.step "a" "a" "end" None) true)
    as [t|].
  - exact (proj2 Hid).
  - apply (Hid (Sim.step "a" "a" "end" None)); [left|reflexivity].
Defined.

(** ** Running the executor *)

Section Running.
Context {W : Type} `{!JsBuiltins} `{!Host W}.
Implicit Types (s : ExecState W).

Lemma Runs_ret {A} (a : A) s (Q : A → ExecState W → Prop) :
  Q a s → Runs (mret a) s Q.
Proof. intros HQ. exists a, s. done. Qed.

Lemma Runs_bind {A B} (m : M W A) (f : A → M W B) s
    (Q : B → ExecState W → Prop) :
  Runs m s (λ a s', Runs (f a) s' Q) → Runs (m ≫= f) s Q.
Proof.
  intros (a & s' & Hm & b & s'' & Hf & HQ).
  exists b, s''. split; [|done].
  unfold mbind, M_bind. by rewrite Hm.
Qed.

Lemma bind_run {A B} (m : M W A) (f : A → M W B) s a s' :
  m s = Some (a, s') → (m ≫= f) s = f a s'.
Proof. intros Hm. unfold mbind, M_bind. by rewrite Hm. Qed.

Lemma bind_inv {A B} (m : M W A) (f : A → M W B) s b s'' :
  (m ≫= f) s = Some (b, s'') →
  ∃ a s', m s = Some (a, s') ∧ f a s' = Some (b, s'').
Proof.
  unfold mbind, M_bind. destruct (m s) as [[a s']|]; [|done]. eauto.
Qed.

Lemma Runs_inv {A} (m : M W A) s (Q : A → ExecState W → Prop) a s' :
  Runs m s Q → m s = Some (a, s') → Q a s'.
Proof. intros (a0 & s0 & Hm & HQ) Hrun. congruence. Qed.

Lemma Runs_mono {A} (m : M W A) s (P Q : A → ExecState W → Prop) :
  Runs m s P → (∀ a s', P a s' → Q a s') → Runs m s Q.
Proof. intros (a & s' & Hm & HP) HPQ. exists a, s'. eauto. Qed.

End Running.

(** Runs the first operation of a sequence by the lemma [lem] about it. *)
Ltac run_by lem :=
  apply Runs_bind; eapply Runs_mono; [apply lem|].

(** *** The operations of the executor *)

Section ExecutorFacts.
Context {W : Type} `{!JsBuiltins} `{!Host W}.
Implicit Types (s : ExecState W).

Variable self : WorkflowExecutor W.

Lemma now_runs s :
  Runs now s (λ _ s', aborted s' = aborted s ∧ trace s' = trace s).
Proof.
  unfold Runs, now. destruct (Date_now (world s)) as [t w]. eauto.
Qed.

Lemma pushLog_runs entry s : Runs (pushLog self entry) s (quiet s).
Proof. unfold Runs, pushLog, quiet. eauto. Qed.

Lemma log_runs stepId stepName type message s :
  Runs (log self stepId stepName type message) s (quiet s).
Proof.
  unfold log. run_by (now_runs). intros t s1 [Hab Htr].
  eapply Runs_mono; [apply pushLog_runs|]. intros u2 s2 [Hab2 Htr2].
  split; congruence.
Qed.

Lemma logStreamed_runs stepId stepName lines s :
  Runs (logStreamed self stepId stepName lines) s (quiet s).
Proof.
  revert s. induction lines as [|[t text] rest IH]; intros s; simpl.
  - apply Runs_ret. done.
  - run_by (pushLog_runs). intros u1 s1 [Hab Htr].
    eapply Runs_mono; [apply IH|]. intros u2 s2 [Hab2 Htr2].
    split; congruence.
Qed.

Lemma resume_runs s :
  Runs resume s (λ _ s', (aborted s = true → aborted s' = true) ∧
                         trace s' = trace s).
Proof.
  unfold Runs, resume. destruct (abortCalled (world s)) as [b w].
  eexists _, _. split; [done|]. simpl. split; [|done].
  intros ->. done.
Qed.

Lemma sleep_runs ms s :
  Runs (sleep ms) s (λ _ s', aborted s' = aborted s ∧
                             trace s' = trace s ++ [EvSleep ms]).
Proof. unfold Runs, sleep. eauto. Qed.

Lemma callAgent_runs stepId stepName prompt maxTurns s :
  Runs (callAgent self stepId stepName prompt maxTurns) s
    (λ r s', (aborted s = true → aborted s' = true) ∧
             trace s' = trace s ++ [EvAgent prompt maxTurns (replyOk r)]).
Proof.
  unfold callAgent. apply Runs_bind.
  unfold Runs at 1, agentRun.
  destruct (runStepAgent (ctx self) prompt maxTurns (world s)) as [run w].
  eexists _, _. split; [done|].
  apply Runs_bind. eexists _, _. split; [done|].
  run_by (logStreamed_runs). intros u1 s1 [Hab Htr].
  run_by (resume_runs). intros u2 s2 [Hab2 Htr2].
  apply Runs_ret. simpl in *. split; [|congruence].
  intros Ha. apply Hab2. congruence.
Qed.

Lemma executeStep_runs step s :
  Runs (executeStep self step) s
    (λ ok s', (aborted s = true → aborted s' = true) ∧
              trace s' = trace s ++
                [EvAgent (st_prompt step)
                   (orDefault (st_maxTurns step) DEFAULT_MAX_TURNS) ok]).
Proof.
  unfold executeStep. run_by (log_runs). intros u1 s1 [Hab Htr].
  run_by (callAgent_runs). intros r s2 [Hab2 Htr2].
  destruct r as [[] result|message]; simpl in *;
    (apply Runs_bind;
     eapply Runs_mono; [apply log_runs|]; intros u3 s3 [Hab3 Htr3];
     apply Runs_ret; split; [intros; rewrite Hab3; apply Hab2; congruence
                            | congruence]).
Qed.


(** *** The retry loop *)

Lemma getAborted_runs s (Q : bool → ExecState W → Prop) :
  Q (aborted s) s → Runs getAborted s Q.
Proof. intros HQ. exists (aborted s), s. done. Qed.

(** The loop entered at attempt [k] returns when its fuel covers the
    attempts left. *)
Lemma retryLoop_runs step (maxRetries : Z) (fuel : nat) :
  ∀ (k : nat) s,
  (Z.to_nat (maxRetries + 1 - Z.of_nat k) ≤ fuel)%nat →
  Runs (retryLoop self fuel step maxRetries (Z.of_nat k)) s
    (λ r s', ∃ outs,
       trace s' = trace s ++
         attemptsFrom (st_prompt step)
           (orDefault (st_maxTurns step) DEFAULT_MAX_TURNS) k outs ∧
       Z.of_nat (k + length outs) ≤ Z.max (Z.of_nat k) (maxRetries + 1) ∧
       (aborted s = true → aborted s' = true ∧ outs = []) ∧
       (if r then ∃ n, outs = repeat false n ++ [true]
        else outs = repeat false (length outs) ∧
             (aborted s' = true ∨
              Z.of_nat (k + length outs) = Z.max (Z.of_nat k) (maxRetries + 1)))).
Proof.
  induction fuel as [|fuel IH]; intros k s Hfuel.
  - assert (Hk : (Z.of_nat k <=? maxRetries) = false) by (apply Z.leb_gt; lia).
    simpl. rewrite Hk. apply Runs_ret. exists [].
    rewrite app_nil_r. simpl. repeat split; try done; try lia; right; lia.
  - simpl. destruct (Z.leb_spec (Z.of_nat k) maxRetries) as [Hle|Hgt].
    2:{ apply Runs_ret. exists []. rewrite app_nil_r. simpl.
        repeat split; try done; try lia; right; lia. }
    apply Runs_bind, getAborted_runs.
    destruct (aborted s) eqn:Hab.
    { run_by (log_runs).
      intros u1 s1 [Hab1 Htr1]. apply Runs_ret. exists [].
      rewrite app_nil_r. simpl. repeat split; try done; try lia; try congruence.
      left. congruence. }
    apply Runs_bind.
    assert (Hpre : Runs
      (if 0 <? Z.of_nat k
       then log self (st_id step) (st_name step) LInfo
              ("🔄 재시도 " +:+ pretty (Z.of_nat k) +:+ "/" +:+ pretty maxRetries);;
            sleep 1000;; resume
       else mret ()) s
      (λ _ s', trace s' = trace s ++
                 match k with O => [] | S _ => [EvSleep 1000] end)).
    { destruct k as [|k'].
      - simpl. apply Runs_ret. by rewrite app_nil_r.
      - replace (0 <? Z.of_nat (S k')) with true by (symmetry; apply Z.ltb_lt; lia).
        run_by (log_runs).
        intros u1 s1 [Hab1 Htr1].
        run_by (sleep_runs).
        intros u2 s2 [Hab2 Htr2].
        eapply Runs_mono; [apply resume_runs|].
        intros u3 s3 [Hab3 Htr3]. simpl in *. congruence. }
    eapply Runs_mono; [apply Hpre|]. clear Hpre. intros u1 s1 Htr1.
    run_by (executeStep_runs).
    intros ok s2 [Hab2 Htr2].
    run_by (resume_runs).
    intros u3 s3 [Hab3 Htr3].
    destruct ok.
    + apply Runs_ret. exists [true]. simpl.
      split; [rewrite Htr3, Htr2, Htr1, <- app_assoc; done|].
      split; [lia|]. split; [done|]. by exists 0%nat.
    + replace (Z.of_nat k + 1) with (Z.of_nat (S k)) by lia.
      eapply Runs_mono; [apply IH; lia|].
      intros r s4 (outs & Htr4 & Hlen & Hab4 & Hr).
      exists (false :: outs). simpl.
      split; [rewrite Htr4, Htr3, Htr2, Htr1, <- !app_assoc; done|].
      split; [lia|]. split; [done|].
      destruct r.
      * destruct Hr as [n ->]. by exists (S n).
      * destruct Hr as [Hrep Hend]. split; [by f_equal|].
        destruct Hend as [?|Hend]; [by left|right]. lia.
Qed.

Lemma executeStepWithRetry_runs step s :
  let maxRetries := orDefault (st_retryCount step) 0 in
  Runs (executeStepWithRetry self step) s
    (λ r s', ∃ outs,
       trace s' = trace s ++
         attemptsFrom (st_prompt step)
           (orDefault (st_maxTurns step) DEFAULT_MAX_TURNS) 0 outs ∧
       Z.of_nat (length outs) ≤ Z.max 0 (maxRetries + 1) ∧
       (aborted s = true → aborted s' = true ∧ outs = []) ∧
       (if r then ∃ n, outs = repeat false n ++ [true]
        else outs = repeat false (length outs) ∧
             (aborted s' = true ∨
              Z.of_nat (length outs) = Z.max 0 (maxRetries + 1)))).
Proof.
  intros maxRetries. unfold executeStepWithRetry. fold maxRetries.
  eapply Runs_mono; [apply (retryLoop_runs step maxRetries _ 0%nat); simpl; lia|].
  intros r s' (outs & Htr & Hlen & Hab & Hr). exists outs.
  simpl in *. done.
Qed.


(** *** The walk over the steps *)

Lemma stepsRun_app (a b : list Event) : stepsRun (a ++ b) = stepsRun a + stepsRun b.
Proof. unfold stepsRun. rewrite List.filter_app, length_app. lia. Qed.

Lemma stepsRun_attempts prompt maxTurns k outs :
  stepsRun (attemptsFrom prompt maxTurns k outs) = 0.
Proof.
  revert k. induction outs as [|ok rest IH]; intros k; [done|].
  simpl. rewrite stepsRun_app.
  change (EvAgent prompt maxTurns ok :: attemptsFrom prompt maxTurns (S k) rest)
    with ([EvAgent prompt maxTurns ok] ++ attemptsFrom prompt maxTurns (S k) rest).
  rewrite stepsRun_app, IH. by destruct k.
Qed.

Lemma record_runs e s :
  Runs (record e) s (λ _ s', aborted s' = aborted s ∧ trace s' = trace s ++ [e]).
Proof. unfold Runs, record. eauto. Qed.

(** The loop returns when its fuel covers the turns left up to 51; it
    counts the steps it runs, up to the limit. *)
Lemma walk_runs (fuel : nat) :
  ∀ cur v s,
  (Z.to_nat (51 - stepsExecuted v) ≤ fuel)%nat →
  0 ≤ stepsExecuted v ≤ 50 →
  Runs (walk self fuel cur v) s
    (λ v' s',
       stepsExecuted v ≤ stepsExecuted v' ≤ 51 ∧
       (aborted s = true → aborted s' = true ∧ v' = v) ∧
       (∃ delta, trace s' = trace s ++ delta ∧
                 stepsRun delta = Z.min (stepsExecuted v') 50 - stepsExecuted v) ∧
       (50 < stepsExecuted v' →
          error v' = Some limitError ∧ aborted s' = false)).
Proof.
  induction fuel as [|fuel IH]; intros cur v s Hfuel Hv; [lia|].
  simpl. apply Runs_bind, getAborted_runs.
  assert (Hstop : Runs (mret v) s
    (λ v' s',
       stepsExecuted v ≤ stepsExecuted v' ≤ 51 ∧
       (aborted s = true → aborted s' = true ∧ v' = v) ∧
       (∃ delta, trace s' = trace s ++ delta ∧
                 stepsRun delta = Z.min (stepsExecuted v') 50 - stepsExecuted v) ∧
       (50 < stepsExecuted v' →
          error v' = Some limitError ∧ aborted s' = false))).
  { apply Runs_ret. split; [lia|]. split; [done|]. split; [|lia].
    exists []. rewrite app_nil_r. split; [done|]. unfold stepsRun. simpl. lia. }
  destruct cur as [cur|]; [|exact Hstop].
  destruct (aborted s) eqn:Hab; [exact Hstop|]. clear Hstop.
  destruct (Z.ltb_spec 50 (stepsExecuted v + 1)) as [Hlim|Hok].
  - run_by (log_runs).
    intros u1 s1 [Hab1 Htr1]. apply Runs_ret. simpl.
    split; [lia|]. split; [done|]. split.
    + exists []. rewrite app_nil_r. split; [done|]. unfold stepsRun. simpl. lia.
    + intros _. split; [done|congruence].
  - run_by (record_runs).
    intros u1 s1 [Hab1 Htr1].
    run_by (executeStepWithRetry_runs).
    intros ok s2 (outs & Htr2 & _).
    run_by (resume_runs).
    intros u3 s3 [Hab3 Htr3].
    assert (Htr : trace s3 = trace s ++ EvStep (st_id cur) ::
              attemptsFrom (st_prompt cur)
                (orDefault (st_maxTurns cur) DEFAULT_MAX_TURNS) 0 outs).
    { rewrite Htr3, Htr2, Htr1, <- app_assoc. done. }
    assert (Hcount : ∀ rest, stepsRun ((EvStep (st_id cur) ::
              attemptsFrom (st_prompt cur)
                (orDefault (st_maxTurns cur) DEFAULT_MAX_TURNS) 0 outs) ++ rest)
              = 1 + stepsRun rest).
    { intros rest. rewrite stepsRun_app.
      change (EvStep (st_id cur) :: ?l) with ([EvStep (st_id cur)] ++ l).
      rewrite stepsRun_app, stepsRun_attempts. done. }
    destruct (negb ok && negb (bool_decide (is_Some (findNextStep self cur ok)))).
    + apply Runs_ret. simpl. split; [lia|]. split; [done|]. split; [|lia].
      eexists. split; [exact Htr|].
      rewrite <- (app_nil_r (_ :: _)), Hcount. unfold stepsRun. simpl. lia.
    + eapply Runs_mono; [apply IH; simpl; lia|].
      intros v' s4 (Hbound & _ & (delta & Htr4 & Hsteps) & Hlimit).
      simpl in Hbound, Hsteps.
      split; [lia|]. split; [done|]. split; [|done].
      eexists. split; [rewrite Htr4, Htr, <- app_assoc; reflexivity|].
      rewrite Hcount. lia.
Qed.


(** With the flag set the loop stops at its test. *)
Lemma walk_aborted fuel cur v s :
  aborted s = true → walk self fuel cur v s = Some (v, s).
Proof.
  intros Hab. destruct fuel, cur; simpl;
    rewrite (bind_run getAborted _ s (aborted s) s eq_refl); by rewrite ?Hab.
Qed.

(** One turn of the loop after which the flag is set is the last. *)
Lemma walk_first_step fuel cur v s s1 s2 s3 ok :
  aborted s = false →
  stepsExecuted v + 1 ≤ 50 →
  record (EvStep (st_id cur)) s = Some ((), s1) →
  executeStepWithRetry self cur s1 = Some (ok, s2) →
  resume s2 = Some ((), s3) →
  aborted s3 = true →
  ∃ err, walk self (S fuel) (Some cur) v s =
         Some ({| stepsExecuted := stepsExecuted v + 1;
                  lastStepId := Some (st_id cur); error := err |}, s3).
Proof.
  intros Hab Hlim Hrec Hstep Hres Hab3. simpl.
  rewrite (bind_run getAborted _ s (aborted s) s eq_refl), Hab.
  replace (50 <? stepsExecuted v + 1) with false by (symmetry; apply Z.ltb_ge; lia).
  rewrite (bind_run _ _ _ _ _ Hrec).
  rewrite (bind_run _ _ _ _ _ Hstep).
  rewrite (bind_run _ _ _ _ _ Hres).
  destruct (negb ok && negb (bool_decide (is_Some (findNextStep self cur ok)))).
  - by eexists.
  - exists (error v). by apply walk_aborted.
Qed.

(** *** Mission mode *)

Lemma getLogs_runs s (Q : list WorkflowLog → ExecState W → Prop) :
  Q (logs s) s → Runs getLogs s Q.
Proof. intros HQ. exists (logs s), s. done. Qed.

Lemma executeMission_runs s :
  Runs (executeMission self) s
    (λ r s', res_stepsExecuted r = 1 ∧
             res_lastStepId r = Some "mission" ∧
             (res_success r = true ↔ res_error r = None) ∧
             trace s' = trace s ++
               [EvAgent (default "" (wf_mission (workflow self)))
                  (orDefault (wf_maxTurns (workflow self)) 30)
                  (res_success r)]).
Proof.
  unfold executeMission. run_by (now_runs). intros startTime s1 [Hab1 Htr1].
  run_by (log_runs).
  intros u2 s2 [Hab2 Htr2].
  run_by (log_runs).
  intros u3 s3 [Hab3 Htr3].
  run_by (callAgent_runs).
  intros reply s4 [Hab4 Htr4].
  destruct reply as [success result|message];
    (run_by (now_runs);
     intros endTime s5 [Hab5 Htr5];
     run_by (log_runs);
     intros u6 s6 [Hab6 Htr6];
     apply Runs_bind, getLogs_runs, Runs_ret; simpl;
     split; [done|]; split; [done|]; split;
     [|simpl in Htr4; congruence]).
  - by destruct success.
  - done.
Qed.

Lemma execute_mission :
  missionMode self = true →
  execute self =
  (now;;
   log self "workflow" (wf_name (workflow self)) LInfo
     ("🚀 워크플로우 시작: " +:+ wf_name (workflow self));;
   executeMission self).
Proof. intros Hm. unfold execute. by rewrite Hm. Qed.

End ExecutorFacts.

(** *** Workflows that differ in a terminal reference *)

Section RetryEnd.
Context {W : Type} `{!JsBuiltins} `{!Host W}.
Implicit Types (s : ExecState W).

Lemma sameButTerminal_refl a : sameButTerminal a a.
Proof. unfold sameButTerminal. tauto. Qed.

Lemma findIndex_same id (l1 l2 : list WorkflowStep) :
  Forall2 sameButTerminal l1 l2 → findIndex id l1 = findIndex id l2.
Proof.
  unfold findIndex. induction 1 as [|a b l1 l2 Hab Hl IH]; [done|].
  simpl. destruct Hab as (Hid & _). rewrite <- Hid.
  destruct (decide (st_id a = id)); [done|].
  destruct (list_find _ l1) as [[i x]|], (list_find _ l2) as [[j y]|];
    simplify_eq/=; done.
Qed.

Lemma findById_same id (l1 l2 : list WorkflowStep) :
  Forall2 sameButTerminal l1 l2 →
  option_Forall2 sameButTerminal (findById id l1) (findById id l2).
Proof.
  unfold findById. induction 1 as [|a b l1 l2 Hab Hl IH]; [constructor|].
  simpl. destruct Hab as (Hid & Hrest). rewrite <- Hid.
  destruct (decide (st_id a = id)).
  - simpl. constructor. by split.
  - destruct (list_find _ l1) as [[i x]|], (list_find _ l2) as [[j y]|];
      simpl in *; inversion IH; subst; by constructor.
Qed.

Variables (w1 w2 : Workflow) (agent : ExecutorContext W)
  (sink : option (WorkflowLog → W → W)).
Local Abbreviation self1 := (executorOf agent sink w1).
Local Abbreviation self2 := (executorOf agent sink w2).
Hypothesis Hsteps : Forall2 sameButTerminal (wf_steps w1) (wf_steps w2).

Lemma bind_ext {A B} (m1 m2 : M W A) (f1 f2 : A → M W B) s :
  m1 s = m2 s → (∀ a s', f1 a s' = f2 a s') →
  (m1 ≫= f1) s = (m2 ≫= f2) s.
Proof.
  intros Hm Hf. unfold mbind, M_bind. rewrite Hm.
  destruct (m2 s) as [[a s']|]; [apply Hf|done].
Qed.

Lemma executeStep_same a b :
  sameButTerminal a b → executeStep self1 a = executeStep self2 b.
Proof.
  destruct a, b. unfold sameButTerminal. simpl.
  intros (-> & -> & -> & -> & _ & -> & _). exact eq_refl.
Qed.

Lemma retryLoop_same a b maxRetries (fuel : nat) :
  sameButTerminal a b →
  ∀ attempt s,
  retryLoop self1 fuel a maxRetries attempt s =
  retryLoop self2 fuel b maxRetries attempt s.
Proof.
  intros Hab. pose proof Hab as (Hid & Hname & _).
  induction fuel as [|fuel IH]; intros attempt s; simpl;
    (destruct (attempt <=? maxRetries); [|reflexivity]); [reflexivity|].
  rewrite <- Hid, <- Hname, <- (executeStep_same a b Hab).
  apply bind_ext; [reflexivity|]. intros ab s1.
  destruct ab; [exact eq_refl|].
  apply bind_ext; [exact eq_refl|]. intros u2 s2.
  apply bind_ext; [reflexivity|]. intros ok s3.
  apply bind_ext; [reflexivity|]. intros u4 s4.
  destruct ok; [reflexivity|]. apply IH.
Qed.

Lemma executeStepWithRetry_same a b s :
  sameButTerminal a b →
  executeStepWithRetry self1 a s = executeStepWithRetry self2 b s.
Proof.
  intros Hab. unfold executeStepWithRetry.
  destruct Hab as (Hid & Hname & Hprompt & Hturns & Hsucc & Hretry & Hfail).
  rewrite <- Hretry. apply retryLoop_same.
  unfold sameButTerminal. tauto.
Qed.

Lemma findNextStep_same a b ok :
  sameButTerminal a b →
  option_Forall2 sameButTerminal (findNextStep self1 a ok) (findNextStep self2 b ok).
Proof.
  intros (Hid & _ & _ & _ & Hsucc & _ & Hfail).
  unfold findNextStep. simpl.
  assert (Hgo : ∀ ref,
    option_Forall2 sameButTerminal
      (if String.eqb ref "end" then None
       else if String.eqb ref "next" then
         match findIndex (st_id a) (wf_steps w1) with
         | None => None
         | Some i => if Z.of_nat i >=? Z.of_nat (length (wf_steps w1)) - 1 then None
                     else wf_steps w1 !! S i
         end
       else if String.eqb ref "retry" then None
       else findById ref (wf_steps w1))
      (if String.eqb ref "end" then None
       else if String.eqb ref "next" then
         match findIndex (st_id b) (wf_steps w2) with
         | None => None
         | Some i => if Z.of_nat i >=? Z.of_nat (length (wf_steps w2)) - 1 then None
                     else wf_steps w2 !! S i
         end
       else if String.eqb ref "retry" then None
       else findById ref (wf_steps w2))).
  { intros ref. destruct (String.eqb ref "end"); [constructor|].
    destruct (String.eqb ref "next").
    - rewrite <- Hid, <- (findIndex_same _ _ _ Hsteps), <- (Forall2_length _ _ _ Hsteps).
      destruct (findIndex _ _) as [i|]; [|constructor].
      destruct (_ >=? _); [constructor|].
      by apply Forall2_lookup.
    - destruct (String.eqb ref "retry"); [constructor|].
      by apply findById_same. }
  destruct ok.
  - rewrite <- Hsucc. apply Hgo.
  - destruct Hfail as [<- | [Ha Hb]]; [apply Hgo|].
    destruct Ha as [-> | ->], Hb as [-> | ->]; simpl; constructor.
Qed.

Lemma walk_same (fuel : nat) :
  ∀ cur1 cur2 v s,
  option_Forall2 sameButTerminal cur1 cur2 →
  walk self1 fuel cur1 v s = walk self2 fuel cur2 v s.
Proof.
  induction fuel as [|fuel IH]; intros cur1 cur2 v s Hcur.
  - destruct Hcur as [a b Hab|]; reflexivity.
  - destruct Hcur as [a b Hab|]; [|reflexivity].
    simpl. apply bind_ext; [reflexivity|]. intros ab s0.
    destruct ab; [reflexivity|].
    pose proof Hab as (Hid & Hname & _).
    rewrite <- Hid, <- Hname.
    destruct (50 <? stepsExecuted v + 1); [exact eq_refl|].
    apply bind_ext; [reflexivity|]. intros u1 s1.
    apply bind_ext; [by apply executeStepWithRetry_same|]. intros ok s2.
    apply bind_ext; [reflexivity|]. intros u3 s3.
    pose proof (findNextStep_same a b ok Hab) as Hnext.
    destruct Hnext as [n1 n2 Hn|].
    + rewrite !bool_decide_true by eauto.
      rewrite !andb_false_r. apply IH. by constructor.
    + rewrite !bool_decide_false by (intros [? ?]; done).
      rewrite !andb_true_r.
      destruct (negb ok); [reflexivity|]. apply IH. constructor.
Qed.

Lemma executeMission_same :
  wf_id w1 = wf_id w2 → wf_mission w1 = wf_mission w2 →
  wf_maxTurns w1 = wf_maxTurns w2 →
  executeMission self1 = executeMission self2.
Proof.
  intros Hid Hmission Hturns. unfold executeMission.
  change (workflow self1) with w1.
  change (workflow self2) with w2.
  rewrite <- Hid, <- Hmission, <- Hturns. exact eq_refl.
Qed.

Lemma execute_same s :
  wf_id w1 = wf_id w2 → wf_name w1 = wf_name w2 →
  wf_mission w1 = wf_mission w2 → wf_maxTurns w1 = wf_maxTurns w2 →
  execute self1 s = execute self2 s.
Proof.
  intros Hid Hname Hmission Hturns.
  unfold execute, missionMode.
  rewrite <- (executeMission_same Hid Hmission Hturns).
  change (workflow self1) with w1.
  change (workflow self2) with w2.
  rewrite <- Hid, <- Hname, <- Hmission.
  apply bind_ext; [reflexivity|]. intros startTime sa.
  apply bind_ext; [exact eq_refl|]. intros u sb.
  destruct (truthyStr (wf_mission w1) && truthyStr (String_trim <$> wf_mission w1));
    [reflexivity|].
  pose proof Hsteps as Hs.
  case_eq (wf_steps w1); [intros E1|intros a l1 E1];
    (case_eq (wf_steps w2); [intros E2|intros b l2 E2]);
    rewrite E1, E2 in Hs;
    [reflexivity | inversion Hs | inversion Hs |].
  apply Forall2_cons_1 in Hs as [Hab _].
  apply bind_ext; [apply walk_same; by constructor|]. intros v sc.
  exact eq_refl.
Qed.

End RetryEnd.

Lemma alter_onFailure_same (i : nat) (l : list WorkflowStep) :
  Forall2 sameButTerminal (alter (withOnFailure "retry") i l)
    (alter (withOnFailure "end") i l).
Proof.
  revert i. induction l as [|a l IH]; intros i; [constructor|].
  destruct i as [|i]; simpl.
  - constructor.
    + unfold sameButTerminal, terminalRef. simpl. tauto.
    + apply Forall2_same_length_lookup_2; [done|].
      intros j x y Hx Hy. simplify_eq. apply sameButTerminal_refl.
  - constructor; [apply sameButTerminal_refl | apply IH].
Qed.

(** *** What [execute] guarantees *)

Section ExecutorClaims.
Context {W : Type} `{!JsBuiltins} `{!Host W}.
Implicit Types (s : ExecState W) (self : WorkflowExecutor W).

Lemma execute_steps_runs self s :
  missionMode self = false →
  Runs (execute self) s
    (λ r s',
       0 ≤ res_stepsExecuted r ≤ 51 ∧
       (∃ delta, trace s' = trace s ++ delta ∧
                 stepsRun delta = Z.min (res_stepsExecuted r) 50) ∧
       (50 < res_stepsExecuted r →
          res_success r = false ∧ res_error r = Some limitError)).
Proof.
  intros Hmode. unfold execute. rewrite Hmode.
  run_by (now_runs).
  intros startTime s1 [Hab1 Htr1].
  run_by (log_runs).
  intros u2 s2 [Hab2 Htr2].
  destruct (wf_steps (workflow self)) as [|first rest].
  - run_by (now_runs).
    intros endTime s3 [Hab3 Htr3].
    apply Runs_bind, getLogs_runs, Runs_ret. simpl.
    split; [lia|]. split; [|lia].
    exists []. rewrite app_nil_r. split; [congruence|done].
  - apply Runs_bind. eapply Runs_mono; [apply walk_runs; simpl; lia|].
    intros v s3 (Hbound & _ & (delta & Htr3 & Hsteps) & Hlimit).
    simpl in Hbound, Hsteps.
    apply Runs_bind, getAborted_runs.
    run_by (now_runs).
    intros endTime s4 [Hab4 Htr4].
    run_by (log_runs).
    intros u5 s5 [Hab5 Htr5].
    apply Runs_bind, getLogs_runs, Runs_ret. simpl.
    split; [lia|]. split.
    + exists delta. split; [congruence|lia].
    + intros Hover. destruct (Hlimit Hover) as [Herr Hnot].
      rewrite Hnot, Herr. done.
Qed.

Lemma execute_total self s : Runs (execute self) s (λ _ _, True).
Proof.
  destruct (missionMode self) eqn:Hmode.
  - rewrite (execute_mission self Hmode).
    run_by (now_runs).
    intros startTime s1 _.
    run_by (log_runs).
    intros u2 s2 _.
    eapply Runs_mono; [apply executeMission_runs|]. done.
  - eapply Runs_mono; [by apply execute_steps_runs|]. done.
Qed.


(** C2, amended.  In step mode [execute] returns; the steps it hands to
    [executeStepWithRetry] number at most 50, and [stepsExecuted] counts
    them, but the count is raised before the limit is checked: it never
    exceeds 51, and when it exceeds 50 (the limit stopped the walk) the
    result has [success = false] and the limit error. *)
Theorem execute_step_limit self s :
  missionMode self = false →
  Runs (execute self) s
    (λ r s',
       0 ≤ res_stepsExecuted r ≤ 51 ∧
       (∃ delta, trace s' = trace s ++ delta ∧
                 stepsRun delta = Z.min (res_stepsExecuted r) 50) ∧
       (50 < res_stepsExecuted r →
          res_success r = false ∧ res_error r = Some limitError)).
Proof. exact (execute_steps_runs self s). Qed.

(** C7.  A run in step mode starts with the flag unset, and [abort()] is
    called before the first step has settled and the executor has
    resumed from it (state [s1]).  Then [execute] returns [success =
    false] with the abort error, whether the first step succeeded or
    failed, with [stepsExecuted = 1] and [lastStepId] the first step; no
    call is made to the outside after [s1], and all agent calls of the
    run are attempts on the first step. *)
Theorem abort_before_second_step self s (first : WorkflowStep)
    (rest : list WorkflowStep) (ok : bool) (s1 : ExecState W) :
  missionMode self = false →
  wf_steps (workflow self) = first :: rest →
  aborted s = false →
  throughFirstStep self first s = Some (ok, s1) →
  aborted s1 = true →
  Runs (execute self) s
    (λ r s',
       res_success r = false ∧
       res_error r = Some abortError ∧
       res_stepsExecuted r = 1 ∧
       res_lastStepId r = Some (st_id first) ∧
       trace s' = trace s1 ∧
       ∃ outs, trace s' = trace s ++ EvStep (st_id first) ::
                 attemptsFrom (st_prompt first)
                   (orDefault (st_maxTurns first) DEFAULT_MAX_TURNS) 0 outs).
Proof.
  intros Hmode Hsteps Hab Hfirst Hab1.
  unfold throughFirstStep in Hfirst.
  apply bind_inv in Hfirst as (startTime & sa & Hnow & Hfirst).
  apply bind_inv in Hfirst as (ua & sb & Hlog & Hfirst).
  apply bind_inv in Hfirst as (ub & sc & Hrec & Hfirst).
  apply bind_inv in Hfirst as (ok' & sd & Hstep & Hfirst).
  apply bind_inv in Hfirst as (ud & se & Hres & Hfirst).
  unfold mret, M_ret in Hfirst. simplify_eq. destruct ua, ub, ud.
  destruct (Runs_inv _ _ _ _ _ (now_runs s) Hnow) as [Haba Htra].
  destruct (Runs_inv _ _ _ _ _ (log_runs self _ _ _ _ sa) Hlog) as [Habb Htrb].
  destruct (Runs_inv _ _ _ _ _ (record_runs _ sb) Hrec) as [Habc Htrc].
  destruct (Runs_inv _ _ _ _ _ (executeStepWithRetry_runs self first sc) Hstep)
    as (outs & Htrd & _).
  destruct (Runs_inv _ _ _ _ _ (resume_runs sd) Hres) as [_ Htre].
  assert (Habb' : aborted sb = false) by congruence.
  assert (Htr1 : trace s1 = trace s ++ EvStep (st_id first) ::
            attemptsFrom (st_prompt first)
              (orDefault (st_maxTurns first) DEFAULT_MAX_TURNS) 0 outs).
  { rewrite Htre, Htrd, Htrc, Htrb, Htra, <- app_assoc. done. }
  destruct (walk_first_step self 50 first
              {| stepsExecuted := 0; lastStepId := None; error := None |}
              sb sc sd s1 ok Habb' ltac:(simpl; lia) Hrec Hstep Hres Hab1)
    as [err Hwalk].
  unfold execute. rewrite Hmode, Hsteps.
  unfold Runs. change 51%nat with (S 50).
  rewrite (bind_run _ _ _ _ _ Hnow), (bind_run _ _ _ _ _ Hlog).
  rewrite (bind_run _ _ _ _ _ Hwalk).
  rewrite (bind_run _ _ s1 (aborted s1) s1 eq_refl), Hab1.
  destruct (now_runs s1) as (endTime & s2 & Hend & Hab2 & Htr2).
  rewrite (bind_run _ _ _ _ _ Hend).
  match goal with
  | |- context [log self ?a ?b ?c ?d] =>
      destruct (log_runs self a b c d s2) as (u3 & s3 & Hlog3 & Hab3 & Htr3)
  end.
  rewrite (bind_run _ _ _ _ _ Hlog3).
  rewrite (bind_run _ _ s3 (logs s3) s3 eq_refl).
  eexists _, _. split; [reflexivity|]. simpl.
  repeat split; try done; try congruence.
  exists outs. congruence.
Qed.

End ExecutorClaims.

(** *** Runs of concrete workflows *)

(** The first step fails twice and succeeds at its second retry; the
    second step succeeds. *)
Example twoSteps_retried :
  ∃ r s',
    execute (Sim.executor Ex.twoSteps)
      (Sim.start (Sim.world0 0 [Sim.ko "x"; Sim.ko "y"; Sim.ok "z"; Sim.ok "w"] []))
      = Some (r, s') ∧
    res_success r = true ∧ res_stepsExecuted r = 2 ∧
    res_lastStepId r = Some "b" ∧ res_error r = None ∧
    trace s' = [EvStep "a"; EvAgent "do a" 20 false; EvSleep 1000;
                EvAgent "do a" 20 false; EvSleep 1000; EvAgent "do a" 20 true;
                EvStep "b"; EvAgent "do b" 20 true].
Proof. vm_compute. eexists _, _. repeat split; reflexivity. Qed.

(** The first step fails at every attempt; [onFailure = "retry"] ends the
    walk. *)
Example twoSteps_exhausted :
  ∃ r s',
    execute (Sim.executor Ex.twoSteps)
      (Sim.start (Sim.world0 0 [Sim.ko "x"; Sim.ko "y"; Sim.raised "z"] []))
      = Some (r, s') ∧
    res_success r = false ∧ res_stepsExecuted r = 1 ∧
    res_lastStepId r = Some "a" ∧ res_error r = Some stepFailureError.
Proof. vm_compute. eexists _, _. repeat split; reflexivity. Qed.

(** C2, as stated, fails: a step that names itself as its successor and
    always succeeds is run 50 times, and the result records 51. *)
Lemma stepsExecuted_exceeds_50 :
  ∃ r s', execute (Sim.executor Ex.loopFlow) (Sim.start (Sim.world0 0 [] []))
            = Some (r, s') ∧
          ¬ (res_stepsExecuted r ≤ 50).
Proof.
  vm_compute. eexists _, _. split; [reflexivity|]. vm_compute. congruence.
Qed.

Lemma execute_step_limit_witness :
  missionMode (Sim.executor Ex.loopFlow) = false ∧
  Runs (execute (Sim.executor Ex.loopFlow)) (Sim.start (Sim.world0 0 [] []))
    (λ r s', 0 ≤ res_stepsExecuted r ≤ 51).
Proof.
  split; [reflexivity|].
  eapply Runs_mono.
  - apply (execute_step_limit (Sim.executor Ex.loopFlow)). reflexivity.
  - intros r s' (Hbound & _). exact Hbound.
Defined.

Lemma abort_before_second_step_witness :
  ∃ s1,
    missionMode (Sim.executor Ex.twoSteps) = false ∧
    wf_steps (workflow (Sim.executor Ex.twoSteps)) = [Ex.firstStep; Ex.secondStep] ∧
    aborted (Sim.start (Sim.world0 0 [Sim.ok "x"] [true])) = false ∧
    throughFirstStep (Sim.executor Ex.twoSteps) Ex.firstStep
      (Sim.start (Sim.world0 0 [Sim.ok "x"] [true])) = Some (true, s1) ∧
    aborted s1 = true ∧
    Runs (execute (Sim.executor Ex.twoSteps))
      (Sim.start (Sim.world0 0 [Sim.ok "x"] [true]))
      (λ r s', res_success r = false ∧ res_error r = Some abortError ∧
               res_stepsExecuted r = 1).
Proof.
  eexists. split; [reflexivity|]. split; [reflexivity|]. split; [reflexivity|].
  split; [vm_compute; reflexivity|]. split; [reflexivity|].
  eapply Runs_mono.
  - eapply (abort_before_second_step (Sim.executor Ex.twoSteps)
              (Sim.start (Sim.world0 0 [Sim.ok "x"] [true]))
              Ex.firstStep [Ex.secondStep] true);
      [reflexivity|reflexivity|reflexivity|vm_compute; reflexivity|reflexivity].
  - intros r s' (H1 & H2 & H3 & _). done.
Defined.
(** ** What every operation of the executor keeps *)

Section Keeping.
Context {W : Type} `{!JsBuiltins} `{!Host W}.
Implicit Types (s : ExecState W).

Variable R : ExecState W → ExecState W → Prop.
Hypothesis R_refl : ∀ s, R s s.
Hypothesis R_trans : ∀ s1 s2 s3, R s1 s2 → R s2 s3 → R s1 s3.

Lemma Keeps_ret {A} (a : A) : Keeps R (mret a).
Proof. intros s b s' Hrun. unfold mret, M_ret in Hrun. by simplify_eq. Qed.

Lemma Keeps_bind {A B} (m : M W A) (f : A → M W B) :
  Keeps R m → (∀ a, Keeps R (f a)) → Keeps R (m ≫= f).
Proof.
  intros Hm Hf s b s'' Hrun.
  apply bind_inv in Hrun as (a & s' & H1 & H2).
  eapply R_trans; [eapply Hm | eapply Hf]; eauto.
Qed.

Lemma getAborted_keeps : Keeps R getAborted.
Proof. intros s b s' Hrun. unfold getAborted in Hrun. by simplify_eq. Qed.

Lemma getLogs_keeps : Keeps R getLogs.
Proof. intros s b s' Hrun. unfold getLogs in Hrun. by simplify_eq. Qed.

Lemma outOfFuel_keeps {A} : Keeps R (outOfFuel (A := A)).
Proof. intros s b s' Hrun. discriminate Hrun. Qed.

Variable self : WorkflowExecutor W.
Hypothesis now_keeps : Keeps R now.
Hypothesis pushLog_keeps : ∀ entry, Keeps R (pushLog self entry).
Hypothesis record_keeps : ∀ e, Keeps R (record e).
Hypothesis resume_keeps : Keeps R resume.
Hypothesis sleep_keeps : ∀ ms, Keeps R (sleep ms).
Hypothesis agentRun_keeps : ∀ prompt maxTurns, Keeps R (agentRun self prompt maxTurns).

Lemma log_keeps stepId stepName type message :
  Keeps R (log self stepId stepName type message).
Proof. apply Keeps_bind; [exact now_keeps | intros t; apply pushLog_keeps]. Qed.

Lemma logStreamed_keeps stepId stepName lines :
  Keeps R (logStreamed self stepId stepName lines).
Proof.
  induction lines as [|[t text] rest IH]; simpl; [apply Keeps_ret|].
  apply Keeps_bind; [apply pushLog_keeps | intros _; exact IH].
Qed.

Lemma callAgent_keeps stepId stepName prompt maxTurns :
  Keeps R (callAgent self stepId stepName prompt maxTurns).
Proof.
  unfold callAgent.
  apply Keeps_bind; [apply agentRun_keeps | intros run].
  apply Keeps_bind; [apply record_keeps | intros _].
  apply Keeps_bind; [apply logStreamed_keeps | intros _].
  apply Keeps_bind; [apply resume_keeps | intros _]. apply Keeps_ret.
Qed.

Lemma executeStep_keeps step : Keeps R (executeStep self step).
Proof.
  unfold executeStep.
  apply Keeps_bind; [apply log_keeps | intros _].
  apply Keeps_bind; [apply callAgent_keeps | intros r].
  destruct r as [[] result|message];
    (apply Keeps_bind; [apply log_keeps | intros _; apply Keeps_ret]).
Qed.

Lemma retryLoop_keeps step maxRetries (fuel : nat) :
  ∀ attempt, Keeps R (retryLoop self fuel step maxRetries attempt).
Proof.
  induction fuel as [|fuel IH]; intros attempt; simpl;
    (destruct (attempt <=? maxRetries); [|apply Keeps_ret]);
    [apply outOfFuel_keeps|].
  apply Keeps_bind; [apply getAborted_keeps | intros ab].
  destruct ab.
  { apply Keeps_bind; [apply log_keeps | intros _; apply Keeps_ret]. }
  apply Keeps_bind.
  { destruct (0 <? attempt); [|apply Keeps_ret].
    apply Keeps_bind; [apply log_keeps | intros _].
    apply Keeps_bind; [apply sleep_keeps | intros _]. apply resume_keeps. }
  intros _.
  apply Keeps_bind; [apply executeStep_keeps | intros ok].
  apply Keeps_bind; [apply resume_keeps | intros _].
  destruct ok; [apply Keeps_ret | apply IH].
Qed.

Lemma executeStepWithRetry_keeps step : Keeps R (executeStepWithRetry self step).
Proof. apply retryLoop_keeps. Qed.

Lemma walk_keeps (fuel : nat) : ∀ cur v, Keeps R (walk self fuel cur v).
Proof.
  induction fuel as [|fuel IH]; intros cur v; simpl;
    (apply Keeps_bind; [apply getAborted_keeps | intros ab]);
    (destruct cur as [cur|]; [|apply Keeps_ret]);
    (destruct ab; [apply Keeps_ret|]); [apply outOfFuel_keeps|].
  destruct (50 <? stepsExecuted v + 1).
  { apply Keeps_bind; [apply log_keeps | intros _; apply Keeps_ret]. }
  apply Keeps_bind; [apply record_keeps | intros _].
  apply Keeps_bind; [apply executeStepWithRetry_keeps | intros ok].
  apply Keeps_bind; [apply resume_keeps | intros _].
  destruct (negb ok && _); [apply Keeps_ret | apply IH].
Qed.

Lemma executeMission_keeps : Keeps R (executeMission self).
Proof.
  unfold executeMission.
  apply Keeps_bind; [apply now_keeps | intros startTime].
  apply Keeps_bind; [apply log_keeps | intros _].
  apply Keeps_bind; [apply log_keeps | intros _].
  apply Keeps_bind; [apply callAgent_keeps | intros r].
  destruct r as [success result|message];
    (apply Keeps_bind; [apply now_keeps | intros endTime];
     apply Keeps_bind; [apply log_keeps | intros _];
     apply Keeps_bind; [apply getLogs_keeps | intros l]; apply Keeps_ret).
Qed.

Lemma execute_keeps : Keeps R (execute self).
Proof.
  unfold execute.
  apply Keeps_bind; [apply now_keeps | intros startTime].
  apply Keeps_bind; [apply log_keeps | intros _].
  destruct (missionMode self); [apply executeMission_keeps|].
  destruct (wf_steps (workflow self)) as [|first rest].
  - apply Keeps_bind; [apply now_keeps | intros endTime].
    apply Keeps_bind; [apply getLogs_keeps | intros l]. apply Keeps_ret.
  - change 51%nat with (S 50).
    apply Keeps_bind; [apply walk_keeps | intros v].
    apply Keeps_bind; [apply getAborted_keeps | intros ab].
    apply Keeps_bind; [apply now_keeps | intros endTime].
    apply Keeps_bind; [apply log_keeps | intros _].
    apply Keeps_bind; [apply getLogs_keeps | intros l]. apply Keeps_ret.
Qed.

End Keeping.

(** Splits a run of [m ≫= f] that returned into the run of [m] and the
    run of [f]. *)
Ltac inv_bind H :=
  let a := fresh "a" in
  let s := fresh "s" in
  let Hm := fresh "Hm" in
  apply bind_inv in H as (a & s & Hm & H).

Ltac inv_ret H := unfold mret, M_ret in H; simplify_eq.


(** ** The outside calls of a run, told from the world *)

Section Calls.
Context {W : Type} `{!JsBuiltins} `{!Host W}.
Implicit Types (s : ExecState W) (w : W).

Variable self : WorkflowExecutor W.

Lemma path_app events1 seen1 w w1 :
  path self events1 seen1 w w1 →
  ∀ events2 seen2 w2,
    path self events2 seen2 w1 w2 →
    path self (events1 ++ events2) (seen1 || seen2) w w2.
Proof.
  induction 1 as [w|b events seen seen' w w1 w' Hmove Hpath IH Hseen
                 |stepId events seen w w' Hpath IH
                 |prompt maxTurns ok events seen w w' Hok Hpath IH
                 |ms events seen w w' Hpath IH];
    intros events2 seen2 w2 Hrest; simpl.
  - exact Hrest.
  - eapply path_move; [exact Hmove | apply IH; exact Hrest |].
    subst seen'. by rewrite orb_assoc.
  - apply path_step. by apply IH.
  - apply path_agent; [exact Hok | by apply IH].
  - apply path_sleep. by apply IH.
Qed.

Lemma path_one b w w1 : hostMove self b w w1 → path self [] b w w1.
Proof.
  intros Hmove. eapply path_move; [exact Hmove | apply path_nil |].
  by rewrite orb_false_r.
Qed.

(** A path goes on through moves in which no poll finds [abort()]
    called. *)
Lemma path_then events seen w w1 w2 :
  path self events seen w w1 → path self [] false w1 w2 →
  path self events seen w w2.
Proof.
  intros H1 H2. pose proof (path_app _ _ _ _ H1 _ _ _ H2) as Hp.
  by rewrite app_nil_r, orb_false_r in Hp.
Qed.

Lemma still_refl s : still self s s.
Proof. split; [done|]. split; [done|]. apply path_nil. Qed.

Lemma still_trans s1 s2 s3 : still self s1 s2 → still self s2 s3 → still self s1 s3.
Proof.
  intros (Ht1 & Ha1 & Hp1) (Ht2 & Ha2 & Hp2).
  split; [congruence|]. split; [congruence|]. by eapply path_then.
Qed.

Lemma now_still : Keeps (still self) now.
Proof.
  intros s t s' Hrun. unfold now in Hrun.
  destruct (Date_now (world s)) as [t0 w0] eqn:E. simplify_eq.
  split; [done|]. split; [done|]. simpl.
  replace w0 with (Date_now (world s)).2 by (by rewrite E).
  apply path_one, move_clock.
Qed.

Lemma pushLog_still entry : Keeps (still self) (pushLog self entry).
Proof.
  intros s u s' Hrun. unfold pushLog in Hrun. simplify_eq.
  split; [done|]. split; [done|]. simpl.
  destruct (onLog self) as [sink|] eqn:E;
    [apply path_one; by apply move_sink | apply path_nil].
Qed.

Lemma log_still stepId stepName type message :
  Keeps (still self) (log self stepId stepName type message).
Proof.
  apply log_keeps;
    first [exact still_trans | exact now_still | exact pushLog_still].
Qed.

Lemma logStreamed_still stepId stepName lines :
  Keeps (still self) (logStreamed self stepId stepName lines).
Proof.
  apply logStreamed_keeps;
    first [exact still_refl | exact still_trans | exact pushLog_still].
Qed.

(** One agent call: [runStepAgent] on the world as it is, then the lines
    it streamed go to the log, then the executor resumes. *)
Lemma callAgent_call stepId stepName prompt maxTurns s reply s' :
  callAgent self stepId stepName prompt maxTurns s = Some (reply, s') →
  reply = ar_reply (runStepAgent (ctx self) prompt maxTurns (world s)).1 ∧
  trace s' = trace s ++ [EvAgent prompt maxTurns (replyOk reply)] ∧
  ∃ seen,
    aborted s' = aborted s || seen ∧
    path self [] seen (runStepAgent (ctx self) prompt maxTurns (world s)).2 (world s').
Proof.
  unfold callAgent. intros Hrun.
  apply bind_inv in Hrun as (run & s1 & Hagent & Hrun). unfold agentRun in Hagent.
  destruct (runStepAgent (ctx self) prompt maxTurns (world s)) as [run0 w1].
  simplify_eq.
  apply bind_inv in Hrun as (u2 & s2 & Hrec & Hrun). unfold record in Hrec.
  simplify_eq.
  apply bind_inv in Hrun as (u3 & s3 & Hlines & Hrun).
  apply logStreamed_still in Hlines as (Ht & Ha & Hp). simpl in Ht, Ha, Hp.
  apply bind_inv in Hrun as (u4 & s4 & Hres & Hrun).
  pose proof (path_one _ _ _ (move_poll self (world s3))) as Hpoll.
  unfold resume in Hres.
  destruct (abortCalled (world s3)) as [b w2]. simplify_eq.
  unfold mret, M_ret in Hrun. simplify_eq. simpl.
  split; [done|]. split; [done|]. exists b. split; [by rewrite Ha|].
  exact (path_app _ _ _ _ Hp _ _ _ Hpoll).
Qed.

Lemma accounted_refl s : accounted self s s.
Proof.
  exists [], false. rewrite app_nil_r, orb_false_r.
  split; [done|]. split; [done|]. apply path_nil.
Qed.

Lemma accounted_trans s1 s2 s3 :
  accounted self s1 s2 → accounted self s2 s3 → accounted self s1 s3.
Proof.
  intros (e1 & b1 & Ht1 & Ha1 & Hp1) (e2 & b2 & Ht2 & Ha2 & Hp2).
  exists (e1 ++ e2), (b1 || b2).
  split; [by rewrite Ht2, Ht1, app_assoc|].
  split; [by rewrite Ha2, Ha1, orb_assoc|]. by eapply path_app.
Qed.

Lemma still_accounted s s' : still self s s' → accounted self s s'.
Proof.
  intros (Ht & Ha & Hp). exists [], false. by rewrite app_nil_r, orb_false_r.
Qed.

Lemma log_accounted stepId stepName type message :
  Keeps (accounted self) (log self stepId stepName type message).
Proof. intros s u s' Hrun. eapply still_accounted, log_still, Hrun. Qed.

Lemma resume_accounted : Keeps (accounted self) resume.
Proof.
  intros s u s' Hrun. unfold resume in Hrun.
  destruct (abortCalled (world s)) as [b w1] eqn:E. simplify_eq.
  exists [], b. rewrite app_nil_r. split; [done|]. split; [done|]. simpl.
  pose proof (path_one _ _ _ (move_poll self (world s))) as Hq.
  rewrite E in Hq. exact Hq.
Qed.

Lemma sleep_accounted ms : Keeps (accounted self) (sleep ms).
Proof.
  intros s u s' Hrun. unfold sleep in Hrun. simplify_eq.
  exists [EvSleep ms], false. rewrite orb_false_r.
  split; [done|]. split; [done|]. apply path_sleep, path_nil.
Qed.

Lemma callAgent_accounted stepId stepName prompt maxTurns :
  Keeps (accounted self) (callAgent self stepId stepName prompt maxTurns).
Proof.
  intros s reply s' Hrun.
  apply callAgent_call in Hrun as (Hreply & Ht & seen & Ha & Hp).
  exists [EvAgent prompt maxTurns (replyOk reply)], seen.
  split; [done|]. split; [done|].
  apply path_agent; [by rewrite Hreply | exact Hp].
Qed.

Lemma executeStep_accounted step : Keeps (accounted self) (executeStep self step).
Proof.
  unfold executeStep.
  apply Keeps_bind; [exact accounted_trans | apply log_accounted | intros _].
  apply Keeps_bind; [exact accounted_trans | apply callAgent_accounted | intros r].
  destruct r as [[] result|message];
    (apply Keeps_bind; [exact accounted_trans | apply log_accounted | intros _];
     apply Keeps_ret; exact accounted_refl).
Qed.

Lemma retryLoop_accounted step maxRetries (fuel : nat) :
  ∀ attempt, Keeps (accounted self) (retryLoop self fuel step maxRetries attempt).
Proof.
  induction fuel as [|fuel IH]; intros attempt; simpl;
    (destruct (attempt <=? maxRetries); [|apply Keeps_ret; exact accounted_refl]);
    [apply outOfFuel_keeps|].
  apply Keeps_bind; [exact accounted_trans | apply getAborted_keeps; exact accounted_refl
                    | intros ab].
  destruct ab.
  { apply Keeps_bind; [exact accounted_trans | apply log_accounted | intros _].
    apply Keeps_ret; exact accounted_refl. }
  apply Keeps_bind; [exact accounted_trans | |].
  { destruct (0 <? attempt); [|apply Keeps_ret; exact accounted_refl].
    apply Keeps_bind; [exact accounted_trans | apply log_accounted | intros _].
    apply Keeps_bind; [exact accounted_trans | apply sleep_accounted | intros _].
    apply resume_accounted. }
  intros _.
  apply Keeps_bind; [exact accounted_trans | apply executeStep_accounted | intros ok].
  apply Keeps_bind; [exact accounted_trans | apply resume_accounted | intros _].
  destruct ok; [apply Keeps_ret; exact accounted_refl | apply IH].
Qed.

Lemma executeStepWithRetry_accounted step :
  Keeps (accounted self) (executeStepWithRetry self step).
Proof. apply retryLoop_accounted. Qed.

(** With a count that is not negative and the flag unset, the first
    attempt is made. *)
Lemma retryLoop_first step s :
  let maxRetries := orDefault (st_retryCount step) 0 in
  0 ≤ maxRetries → aborted s = false →
  Runs (executeStepWithRetry self step) s
    (λ _ s', ∃ ok later,
       trace s' = trace s ++
         EvAgent (st_prompt step)
           (orDefault (st_maxTurns step) DEFAULT_MAX_TURNS) ok :: later).
Proof.
  intros maxRetries Hpos Hab. unfold executeStepWithRetry. fold maxRetries.
  destruct (Z.to_nat (maxRetries + 1)) as [|fuel] eqn:Hfuel; [lia|].
  simpl.
  replace (0 <=? maxRetries) with true by (symmetry; apply Z.leb_le; lia).
  apply Runs_bind, getAborted_runs. rewrite Hab.
  apply Runs_bind, Runs_ret.
  run_by (executeStep_runs self). intros ok s1 [Hab1 Htr1].
  run_by (resume_runs (W := W)). intros u2 s2 [Hab2 Htr2].
  destruct ok.
  - apply Runs_ret. exists true, []. congruence.
  - eapply Runs_mono;
      [apply (retryLoop_runs self step maxRetries fuel 1%nat); lia|].
    intros r s3 (outs & Htr3 & _). simpl in Htr3.
    eexists false, _. rewrite Htr3, Htr2, Htr1, <- app_assoc. reflexivity.
Qed.

(** What a run in mission mode does to the world: moves of the host,
    one agent call on the mission, moves of the host. *)
Lemma executeMission_call s r s' :
  executeMission self s = Some (r, s') →
  let mission := default "" (wf_mission (workflow self)) in
  let maxTurns := orDefault (wf_maxTurns (workflow self)) 30 in
  ∃ wa seen,
    path self [] false (world s) wa ∧
    res_success r =
      replyOk (ar_reply (runStepAgent (ctx self) mission maxTurns wa).1) ∧
    res_error r =
      errorOf (ar_reply (runStepAgent (ctx self) mission maxTurns wa).1) ∧
    path self [] seen (runStepAgent (ctx self) mission maxTurns wa).2 (world s') ∧
    aborted s' = aborted s || seen.
Proof.
  intros Hrun mission maxTurns. unfold executeMission in Hrun.
  apply bind_inv in Hrun as (startTime & s1 & Hnow & Hrun).
  apply now_still in Hnow as Hs1.
  apply bind_inv in Hrun as (u2 & s2 & Hlog2 & Hrun).
  apply log_still in Hlog2 as Hs2.
  apply bind_inv in Hrun as (u3 & s3 & Hlog3 & Hrun).
  apply log_still in Hlog3 as Hs3.
  pose proof (still_trans _ _ _ (still_trans _ _ _ Hs1 Hs2) Hs3)
    as (Ht & Ha & Hp).
  apply bind_inv in Hrun as (reply & s4 & Hcall & Hrun).
  apply callAgent_call in Hcall as (Hreply & Htr & seen & Hab & Hafter).
  fold mission maxTurns in Hreply, Hafter.
  exists (world s3), seen. split; [exact Hp|].
  rewrite <- Hreply.
  destruct reply as [success result|message];
    (apply bind_inv in Hrun as (endTime & s5 & Hnow5 & Hrun);
     apply now_still in Hnow5 as Hs5;
     apply bind_inv in Hrun as (u6 & s6 & Hlog6 & Hrun);
     apply log_still in Hlog6 as Hs6;
     apply bind_inv in Hrun as (l & s7 & Hlogs & Hrun);
     unfold getLogs in Hlogs; unfold mret, M_ret in Hrun; simplify_eq; simpl;
     destruct (still_trans _ _ _ Hs5 Hs6) as (Ht6 & Ha6 & Hp6)).
  - split; [done|]. split; [by destruct success|].
    split; [by eapply path_then|]. congruence.
  - split; [done|]. split; [done|].
    split; [by eapply path_then|]. congruence.
Qed.

End Calls.

(** *** The agent calls of the executor *)

Section ExecutorCalls.
Context {W : Type} `{!JsBuiltins} `{!Host W}.
Implicit Types (s : ExecState W) (self : WorkflowExecutor W).

(** C6.  [executeStepWithRetry] returns.  Its calls to the outside are
    agent calls on the prompt and turn bound of the step, as many as
    [outs] has entries, each but the first after a timer of 1000 ms:
    the world goes through these calls of [runStepAgent] and these
    timers, in that order and through no others, and each entry of
    [outs] tells how the call ended.  The calls number at most
    [retryCount + 1] (none for a negative count), and with a count that
    is not negative and the flag [aborted] unset on entry the first of
    them is made.  When [executeStepWithRetry] returns [true] the last
    attempt succeeded and all before it failed; when it returns [false]
    every attempt failed, and either all [retryCount + 1] were made or
    the flag is set.  The flag is set on return exactly if it was set on
    entry or a poll at the end of a suspension found [abort()] called.
    Entered with the flag set it returns [false] without an agent call
    and without a timer, and so does every later turn of its loop. *)
Theorem executeStepWithRetry_attempts self (step : WorkflowStep) s :
  let maxRetries := orDefault (st_retryCount step) 0 in
  Runs (executeStepWithRetry self step) s
    (λ r s', ∃ (outs : list bool) (seen : bool),
       trace s' = trace s ++
         attemptsFrom (st_prompt step)
           (orDefault (st_maxTurns step) DEFAULT_MAX_TURNS) 0 outs ∧
       path self
         (attemptsFrom (st_prompt step)
            (orDefault (st_maxTurns step) DEFAULT_MAX_TURNS) 0 outs)
         seen (world s) (world s') ∧
       aborted s' = aborted s || seen ∧
       Z.of_nat (length outs) ≤ Z.max 0 (maxRetries + 1) ∧
       (r = true → ∃ n, outs = repeat false n ++ [true]) ∧
       (r = false →
          outs = repeat false (length outs) ∧
          (aborted s' = true ∨
           Z.of_nat (length outs) = Z.max 0 (maxRetries + 1))) ∧
       (aborted s = true → r = false ∧ outs = []) ∧
       (aborted s = false → 0 ≤ maxRetries → outs ≠ [])) ∧
  (∀ (fuel : nat) (attempt : Z),
     attempt ≤ maxRetries → aborted s = true →
     Runs (retryLoop self (S fuel) step maxRetries attempt) s
       (λ r s', r = false ∧ trace s' = trace s ∧
                path self [] false (world s) (world s'))).
Proof.
  intros maxRetries. split.
  - destruct (executeStepWithRetry_runs self step s)
      as (r & s' & Hrun & outs & Htr & Hlen & Hab & Hr).
    fold maxRetries in Hlen, Hr.
    destruct (executeStepWithRetry_accounted self step _ _ _ Hrun)
      as (events & seen & Hev & Hflag & Hpath).
    assert (events = attemptsFrom (st_prompt step)
                       (orDefault (st_maxTurns step) DEFAULT_MAX_TURNS) 0 outs)
      as -> by (apply (app_inv_head (trace s)); congruence).
    exists r, s'. split; [exact Hrun|]. exists outs, seen.
    split; [done|]. split; [done|]. split; [done|]. split; [done|].
    assert (Hfirst : aborted s = false → 0 ≤ maxRetries → outs ≠ []).
    { intros Hunset Hpos ->.
      destruct (Runs_inv _ _ _ _ _ (retryLoop_first self step s Hpos Hunset) Hrun)
        as (ok & later & Htr0).
      rewrite Htr in Htr0. by apply app_inv_head in Htr0. }
    destruct r.
    + split; [done|]. split; [done|]. split; [|exact Hfirst].
      intros Ha. destruct (Hab Ha) as [_ ->].
      destruct Hr as [n Hn]. by destruct n.
    + split; [done|]. split; [done|]. split; [|exact Hfirst].
      intros Ha. by destruct (Hab Ha).
  - intros fuel attempt Hle Hab. simpl.
    replace (attempt <=? maxRetries) with true by (symmetry; apply Z.leb_le; lia).
    apply Runs_bind, getAborted_runs. rewrite Hab.
    apply Runs_bind.
    match goal with
    | |- Runs (log self ?a ?b ?c ?d) s _ =>
        destruct (log_runs self a b c d s) as (u1 & s1 & Hlog & _)
    end.
    exists u1, s1. split; [exact Hlog|].
    apply log_still in Hlog as (Htr & _ & Hp).
    apply Runs_ret. done.
Qed.

(** C3.  When [mission] is a non-empty string whose [trim()] is non-empty,
    [execute] returns a result with [stepsExecuted = 1] and [lastStepId =
    "mission"], whatever the agent does.  Its only call to the outside
    is one agent call: the world moves by readings of the clock and log
    entries to a world [wa], there [runStepAgent] of the context is
    called with the mission and [maxTurns || 30], and from the world
    that this call leaves the world moves again by the host only.
    [success] is what that call reported (false when it raised),
    [error] is absent after a success and else the text the call
    reported or raised, and the flag is set afterwards exactly if it was
    set before or [abort()] was called during the call.  Replacing
    [steps] by any other list changes nothing. *)
Theorem execute_mission_mode self s (mission : string) :
  wf_mission (workflow self) = Some mission →
  mission ≠ "" →
  String_trim mission ≠ "" →
  Runs (execute self) s
    (λ r s', res_stepsExecuted r = 1 ∧
             res_lastStepId r = Some "mission" ∧
             (res_success r = true ↔ res_error r = None) ∧
             trace s' = trace s ++
               [EvAgent mission (orDefault (wf_maxTurns (workflow self)) 30)
                  (res_success r)] ∧
             ∃ (wa : W) (seen : bool),
               path self [] false (world s) wa ∧
               res_success r =
                 replyOk (ar_reply
                   (runStepAgent (ctx self) mission
                      (orDefault (wf_maxTurns (workflow self)) 30) wa).1) ∧
               res_error r =
                 errorOf (ar_reply
                   (runStepAgent (ctx self) mission
                      (orDefault (wf_maxTurns (workflow self)) 30) wa).1) ∧
               path self [] seen
                 (runStepAgent (ctx self) mission
                    (orDefault (wf_maxTurns (workflow self)) 30) wa).2
                 (world s') ∧
               aborted s' = aborted s || seen) ∧
  ∀ steps, execute (withSteps steps self) s = execute self s.
Proof.
  intros Hmission Hne Htrim.
  assert (Hmode : missionMode self = true).
  { unfold missionMode. rewrite Hmission. simpl.
    apply String.eqb_neq in Hne, Htrim. by rewrite Hne, Htrim. }
  split.
  - rewrite (execute_mission self Hmode).
    destruct (now_runs s) as (startTime & s1 & Hnow & Hab1 & Htr1).
    destruct (log_runs self "workflow" (wf_name (workflow self)) LInfo
                ("🚀 워크플로우 시작: " +:+ wf_name (workflow self)) s1)
      as (u2 & s2 & Hlog & Hab2 & Htr2).
    destruct (executeMission_runs self s2)
      as (r & s3 & Hrun & Hn & Hlast & Herr & Htr3).
    exists r, s3. split.
    { rewrite (bind_run _ _ _ _ _ Hnow), (bind_run _ _ _ _ _ Hlog). exact Hrun. }
    rewrite Hmission in Htr3. simpl in Htr3.
    split; [done|]. split; [done|]. split; [done|]. split; [congruence|].
    destruct (executeMission_call self _ _ _ Hrun)
      as (wa & seen & Hbefore & Hok & Herror & Hafter & Hflag).
    rewrite Hmission in Hok, Herror, Hafter. simpl in Hok, Herror, Hafter.
    exists wa, seen.
    split.
    { destruct (still_trans self _ _ _ (now_still self _ _ _ Hnow)
                  (log_still self _ _ _ _ _ _ _ Hlog)) as (_ & _ & Hstart).
      pose proof (path_app self _ _ _ _ Hstart _ _ _ Hbefore) as Hp.
      exact Hp. }
    split; [exact Hok|]. split; [exact Herror|]. split; [exact Hafter|].
    congruence.
  - intros steps.
    rewrite (execute_mission self Hmode).
    rewrite (execute_mission (withSteps steps self)); [reflexivity|].
    exact Hmode.
Qed.

End ExecutorCalls.

(** A mission that the agent reports as failed: one call is made, the
    reply of the script is used up, and the result carries the text of
    the failure. *)
Lemma execute_mission_mode_witness :
  wf_mission (workflow (Sim.executor Ex.missionFlow)) = Some "open the inbox" ∧
  "open the inbox" ≠ "" ∧
  String_trim "open the inbox" ≠ "" ∧
  Runs (execute (Sim.executor Ex.missionFlow))
    (Sim.start (Sim.world0 0 [Sim.ko "no inbox"] []))
    (λ r s', res_stepsExecuted r = 1 ∧ res_lastStepId r = Some "mission" ∧
             ∃ wa : Sim.World,
               res_success r =
                 replyOk (ar_reply (runStepAgent Sim.agent "open the inbox" 30 wa).1) ∧
               res_error r =
                 errorOf (ar_reply (runStepAgent Sim.agent "open the inbox" 30 wa).1)) ∧
  ∃ r s',
    execute (Sim.executor Ex.missionFlow)
      (Sim.start (Sim.world0 0 [Sim.ko "no inbox"] [])) = Some (r, s') ∧
    res_success r = false ∧ res_error r = Some "no inbox" ∧
    Sim.replies (world s') = [] ∧
    trace s' = [EvAgent "open the inbox" 30 false].
Proof.
  assert (H1 : "open the inbox" ≠ "") by discriminate.
  assert (H2 : String_trim "open the inbox" ≠ "") by (vm_compute; discriminate).
  split; [reflexivity|]. split; [exact H1|]. split; [exact H2|]. split.
  - destruct (execute_mission_mode (Sim.executor Ex.missionFlow)
                (Sim.start (Sim.world0 0 [Sim.ko "no inbox"] []))
                "open the inbox" eq_refl H1 H2)
      as [Hrun _].
    eapply Runs_mono; [exact Hrun|].
    intros r s' (Hn & Hlast & _ & _ & wa & seen & _ & Hok & Herr & _).
    split; [exact Hn|]. split; [exact Hlast|]. exists wa. by split.
  - vm_compute. eexists _, _. repeat split; reflexivity.
Defined.

(** A step with two retries whose first attempt fails and whose second
    succeeds: two calls of the agent with a timer between them. *)
Lemma executeStepWithRetry_attempts_witness :
  Runs (executeStepWithRetry (Sim.executor Ex.twoSteps) Ex.firstStep)
    (Sim.start (Sim.world0 0 [Sim.ko "x"; Sim.ok "y"] []))
    (λ r s', ∃ outs seen,
       trace s' = attemptsFrom "do a" 20 0 outs ∧
       path (Sim.executor Ex.twoSteps) (attemptsFrom "do a" 20 0 outs) seen
         (Sim.world0 0 [Sim.ko "x"; Sim.ok "y"] []) (world s') ∧
       outs ≠ [] ∧
       (r = true → ∃ n, outs = repeat false n ++ [true])) ∧
  ∃ s',
    executeStepWithRetry (Sim.executor Ex.twoSteps) Ex.firstStep
      (Sim.start (Sim.world0 0 [Sim.ko "x"; Sim.ok "y"] [])) = Some (true, s') ∧
    trace s' = [EvAgent "do a" 20 false; EvSleep 1000; EvAgent "do a" 20 true] ∧
    Sim.replies (world s') = [] ∧
    aborted s' = false.
Proof.
  split.
  - destruct (executeStepWithRetry_attempts (Sim.executor Ex.twoSteps) Ex.firstStep
                (Sim.start (Sim.world0 0 [Sim.ko "x"; Sim.ok "y"] [])))
      as [Hrun _].
    eapply Runs_mono; [exact Hrun|].
    intros r s' (outs & seen & Htr & Hpath & _ & _ & Htrue & _ & _ & Hfirst).
    exists outs, seen. split; [exact Htr|]. split; [exact Hpath|].
    split; [apply Hfirst; [reflexivity | vm_compute; discriminate]|].
    exact Htrue.
  - vm_compute. eexists. repeat split; reflexivity.
Defined.
(** ** Storage *)

Section StorageFacts.
Context {W : Type} `{!JsBuiltins} `{!Host W}.

Lemma toJson_name workflow :
  getProp "name" (toJson workflow) = Some (JStr (wf_name workflow)).
Proof. reflexivity. Qed.

Lemma toJson_steps workflow :
  getProp "steps" (toJson workflow) = Some (JArr (stepToJson <$> wf_steps workflow)).
Proof.
  unfold toJson.
  destruct (wf_description workflow), (wf_mission workflow), (wf_maxTurns workflow);
    reflexivity.
Qed.

Lemma toJson_identity id name createdAt updatedAt workflow :
  setProp "updatedAt" (JNum updatedAt)
    (setProp "createdAt" (JNum createdAt)
       (setProp "name" (JStr name)
          (setProp "id" (JStr id) (toJson workflow)))) =
  toJson (withIdentity id name createdAt updatedAt workflow).
Proof.
  unfold toJson, withIdentity.
  destruct (wf_description workflow), (wf_mission workflow),
    (wf_maxTurns workflow), (wf_schedule workflow); reflexivity.
Qed.

Lemma toJson_reidentify id createdAt updatedAt workflow :
  setProp "updatedAt" (JNum updatedAt)
    (setProp "createdAt" (JNum createdAt)
       (setProp "id" (JStr id) (toJson workflow))) =
  toJson (withIdentity id (wf_name workflow) createdAt updatedAt workflow).
Proof.
  unfold toJson, withIdentity.
  destruct (wf_description workflow), (wf_mission workflow),
    (wf_maxTurns workflow), (wf_schedule workflow); reflexivity.
Qed.

Lemma importWorkflow_accepts text v (w : W) :
  JSON_parse text = Some v → importable v = true →
  importWorkflow text w =
    (Some (setProp "updatedAt" (JNum (Date_now w).1)
             (setProp "createdAt" (JNum (Date_now w).1)
                (setProp "id" (JStr (generateWorkflowId (Date_now w).2).1) v))),
     (generateWorkflowId (Date_now w).2).2).
Proof.
  intros Hparse Hok. unfold importWorkflow, importable in *. rewrite Hparse.
  apply andb_true_iff in Hok as [Hname Hsteps].
  destruct v; try discriminate Hname.
  rewrite Hname, Hsteps. simpl.
  destruct (Date_now w) as [now w1]. simpl.
  destruct (generateWorkflowId w1) as [id w2]. reflexivity.
Qed.

Lemma importWorkflow_rejects text (w : W) :
  (importWorkflow text w).1 = None ↔
  JSON_parse text = None ∨
  ∃ v, JSON_parse text = Some v ∧ importable v = false.
Proof.
  unfold importWorkflow, importable.
  destruct (JSON_parse text) as [v|]; [|simpl; tauto].
  split.
  - intros Hrej. right. exists v. split; [done|].
    destruct (truthy (getProp "name" v) && isArray (getProp "steps" v)) eqn:E; [|done].
    apply andb_true_iff in E as [Hname Hsteps].
    rewrite Hname, Hsteps in Hrej.
    destruct v; try discriminate Hname.
    simpl in Hrej. destruct (Date_now w) as [now w1].
    destruct (generateWorkflowId w1). discriminate Hrej.
  - intros [|[v' [Hv Himp]]]; [done|]. injection Hv as <-.
    apply andb_false_iff in Himp.
    destruct v; try reflexivity.
    all: destruct Himp as [-> | ->]; simpl; try reflexivity.
    all: by rewrite orb_true_r.
Qed.

(** C9, amended.  For a workflow with a non-empty name, written by
    [exportWorkflow] and read back by [JSON.parse], [importWorkflow]
    accepts the text, and what it returns is the workflow with a newly
    generated id and with [createdAt] and [updatedAt] set to the current
    time: [name], [description], [steps], [mission], [schedule] (and
    [enabled], [maxTurns]) are those of the original.  [importWorkflow]
    rejects a text exactly when it does not parse, or the parsed value
    has no truthy [name], or its [steps] is not an array; it looks no
    further into either. *)
Theorem import_export_roundtrip :
  (∀ (workflow : Workflow) (w : W),
     wf_name workflow ≠ "" →
     JSON_parse (exportWorkflow workflow) = Some (toJson workflow) →
     let now := (Date_now w).1 in
     let fresh := generateWorkflowId (Date_now w).2 in
     importWorkflow (exportWorkflow workflow) w =
       (Some (toJson (withIdentity fresh.1 (wf_name workflow) now now workflow)),
        fresh.2)) ∧
  (∀ (text : string) (w : W),
     (importWorkflow text w).1 = None ↔
     JSON_parse text = None ∨
     ∃ v, JSON_parse text = Some v ∧
          (truthy (getProp "name" v) = false ∨
           isArray (getProp "steps" v) = false)).
Proof.
  split.
  - intros workflow w Hname Hparse now fresh.
    rewrite (importWorkflow_accepts _ _ w Hparse).
    + by rewrite toJson_reidentify.
    + unfold importable. rewrite toJson_name, toJson_steps. simpl.
      apply String.eqb_neq in Hname. by rewrite Hname.
  - intros text w. rewrite importWorkflow_rejects. unfold importable.
    split; (intros [Hnone|(v & Hv & Hbad)]; [by left|right; exists v; split; [done|]]).
    + by apply andb_false_iff.
    + by apply andb_false_iff.
Qed.

(** C10.  [duplicateWorkflow] returns the object of a workflow that has
    a newly generated id, the name followed by [" (복사본)"], and
    [createdAt] and [updatedAt] set to the current time; every other
    field is that of the original.  The schedule with its [lastRun] and
    [nextRun] is among them, so the copy is due at exactly the ticks at
    which the original is. *)
Theorem duplicateWorkflow_copies (workflow : Workflow) (w : W) :
  JSON_parse (JSON_stringify (toJson workflow)) = Some (toJson workflow) →
  let now := (Date_now w).1 in
  let fresh := generateWorkflowId (Date_now w).2 in
  let copy := withIdentity fresh.1 (wf_name workflow +:+ " (복사본)") now now
                workflow in
  duplicateWorkflow workflow w = (Some (toJson copy), fresh.2) ∧
  wf_description copy = wf_description workflow ∧
  wf_enabled copy = wf_enabled workflow ∧
  wf_mission copy = wf_mission workflow ∧
  wf_maxTurns copy = wf_maxTurns workflow ∧
  wf_steps copy = wf_steps workflow ∧
  wf_schedule copy = wf_schedule workflow ∧
  ∀ t, Scheduler.isDue copy t = Scheduler.isDue workflow t.
Proof.
  intros Hparse now fresh copy. split; [|done].
  unfold duplicateWorkflow. subst now fresh copy.
  destruct (Date_now w) as [now w1]. rewrite Hparse. simpl.
  destruct (generateWorkflowId w1) as [id w2]. simpl.
  by rewrite <- toJson_identity.
Qed.

End StorageFacts.

(** C9, as stated, fails: [importWorkflow] accepts the text
    [{"name":42,"steps":[null]}], whose name is not a string and whose
    steps are not steps. *)
Lemma import_accepts_ill_typed :
  Ex.illTypedText =
    "{" +:+ Sim.dquote +:+ "name" +:+ Sim.dquote +:+ ":42," +:+
    Sim.dquote +:+ "steps" +:+ Sim.dquote +:+ ":[null]}" ∧
  ∃ v w', importWorkflow Ex.illTypedText (Sim.world0 5 [] []) = (Some v, w') ∧
          getProp "name" v = Some (JNum 42) ∧
          getProp "steps" v = Some (JArr [JNull]).
Proof.
  split; [reflexivity|]. eexists _, _. split; [vm_compute; reflexivity|].
  split; reflexivity.
Qed.

Lemma import_export_roundtrip_witness :
  wf_name Ex.twoSteps ≠ "" ∧
  JSON_parse (exportWorkflow Ex.twoSteps) = Some (toJson Ex.twoSteps) ∧
  importWorkflow (exportWorkflow Ex.twoSteps) (Sim.world0 5 [] []) =
    (Some (toJson (withIdentity "wf-6-k3x9q0z7a" "demo" 5 5 Ex.twoSteps)),
     Sim.world0 7 [] []).
Proof.
  assert (H1 : wf_name Ex.twoSteps ≠ "") by discriminate.
  assert (H2 : JSON_parse (exportWorkflow Ex.twoSteps) = Some (toJson Ex.twoSteps))
    by (vm_compute; reflexivity).
  split; [exact H1|]. split; [exact H2|].
  destruct (import_export_roundtrip (W := Sim.World)) as [Hround _].
  exact (Hround Ex.twoSteps (Sim.world0 5 [] []) H1 H2).
Defined.

Lemma duplicateWorkflow_copies_witness :
  JSON_parse (JSON_stringify (toJson (Ex.overdue))) = Some (toJson Ex.overdue) ∧
  ∃ copy w',
    duplicateWorkflow Ex.overdue (Sim.world0 1000 [] []) = (Some (toJson copy), w') ∧
    wf_schedule copy = wf_schedule Ex.overdue ∧
    Scheduler.isDue copy 1000 = true.
Proof.
  assert (H1 : JSON_parse (JSON_stringify (toJson (Ex.overdue)))
               = Some (toJson Ex.overdue)) by (vm_compute; reflexivity).
  split; [exact H1|].
  destruct (duplicateWorkflow_copies Ex.overdue (Sim.world0 1000 [] []) H1)
    as (Hdup & _ & _ & _ & _ & _ & Hsched & Hdue).
  eexists _, _. split; [exact Hdup|]. split; [exact Hsched|].
  rewrite Hdue. reflexivity.
Defined.
(** ** Next run *)

Section DateFacts.
Import Scheduler.
Context `{!JsBuiltins}.

(** The facts of this section are those of a zone of fixed offset. *)
Variable offset : Z.
Hypothesis zone : fixedOffset offset.

Lemma LocalTime_fixed t : LocalTime t = t + offset.
Proof. unfold LocalTime. by rewrite zone. Qed.

Lemma UTC_fixed t : UTC t = t - offset.
Proof. unfold UTC. by rewrite zone. Qed.

Lemma atTime_fixed h m t :
  atTime h m t =
  (t + offset) / msPerDay * msPerDay + (h * msPerHour + m * msPerMinute) - offset.
Proof. unfold atTime, localDay. by rewrite UTC_fixed, LocalTime_fixed. Qed.

Lemma addDays_fixed k t : Date_addDays k t = t + k * msPerDay.
Proof. unfold Date_addDays. rewrite UTC_fixed, LocalTime_fixed. lia. Qed.

Lemma localDay_atTime h m t : validTime h m → localDay (atTime h m t) = localDay t.
Proof.
  intros [Hh Hm]. rewrite atTime_fixed. unfold localDay.
  rewrite !LocalTime_fixed. unfold msPerDay, msPerHour, msPerMinute.
  Z.div_mod_to_equations. lia.
Qed.

Lemma localTimeOfDay_atTime h m t :
  validTime h m →
  localTimeOfDay (atTime h m t) = h * msPerHour + m * msPerMinute.
Proof.
  intros [Hh Hm]. rewrite atTime_fixed. unfold localTimeOfDay.
  rewrite !LocalTime_fixed. unfold msPerDay, msPerHour, msPerMinute.
  Z.div_mod_to_equations. lia.
Qed.

Lemma localDay_addDays k t : localDay (Date_addDays k t) = localDay t + k.
Proof.
  rewrite addDays_fixed. unfold localDay. rewrite !LocalTime_fixed.
  unfold msPerDay. Z.div_mod_to_equations. lia.
Qed.

Lemma localTimeOfDay_addDays k t :
  localTimeOfDay (Date_addDays k t) = localTimeOfDay t.
Proof.
  rewrite addDays_fixed. unfold localTimeOfDay. rewrite !LocalTime_fixed.
  unfold msPerDay. Z.div_mod_to_equations. lia.
Qed.

Lemma atTime_bounds h m t :
  validTime h m → t - msPerDay < atTime h m t < t + msPerDay.
Proof.
  intros [Hh Hm]. rewrite atTime_fixed. unfold msPerDay, msPerHour, msPerMinute.
  Z.div_mod_to_equations. lia.
Qed.

(** Two instants on the same weekday at the same time of day are a whole
    number of weeks apart. *)
Lemma same_weekday_time r r' :
  Date_getDay r = Date_getDay r' → localTimeOfDay r = localTimeOfDay r' →
  ∃ k, r' = r + k * (7 * msPerDay).
Proof.
  unfold Date_getDay, localTimeOfDay, localDay. rewrite !LocalTime_fixed.
  unfold msPerDay. intros Hday Htime.
  exists (((r' + offset) / 86400000 - (r + offset) / 86400000) / 7).
  revert Hday Htime. Z.div_mod_to_equations. lia.
Qed.


Lemma getDay_atTime h m t : validTime h m → Date_getDay (atTime h m t) = Date_getDay t.
Proof. intros Hv. unfold Date_getDay. by rewrite localDay_atTime. Qed.

Lemma getDay_range t : 0 ≤ Date_getDay t ≤ 6.
Proof. unfold Date_getDay. Z.div_mod_to_equations. lia. Qed.

Lemma getDay_addDays k t d :
  0 ≤ d ≤ 6 → (k = d - Date_getDay t ∨ k = d - Date_getDay t + 7) →
  Date_getDay (Date_addDays k t) = d.
Proof.
  intros Hd Hk. unfold Date_getDay in *. rewrite localDay_addDays.
  revert Hk. Z.div_mod_to_equations. lia.
Qed.

Lemma setHours_same_day hours minutes now date :
  localDay date = localDay now →
  Date_setHours hours minutes date = Date_setHours hours minutes now.
Proof. intros Hday. unfold Date_setHours. by rewrite Hday. Qed.

Lemma dailyNext_spec schedule h m now date :
  parseTime (sc_time schedule) = (Num h, Num m) → validTime h m →
  localDay date = localDay now →
  ∃ r, dailyNext schedule now date = Num r ∧
       r = (if atTime h m now <=? now then atTime h m now + msPerDay
            else atTime h m now) ∧
       now < r ∧
       localTimeOfDay r = h * msPerHour + m * msPerMinute ∧
       localDay r = (if atTime h m now <=? now then localDay now + 1
                     else localDay now).
Proof.
  intros Hparse Hv Hsame. unfold dailyNext. rewrite Hparse.
  rewrite (setHours_same_day _ _ now date Hsame). simpl.
  fold (atTime h m now).
  pose proof (atTime_bounds h m now Hv) as Hb.
  pose proof (localDay_atTime h m now Hv) as Hday.
  pose proof (localTimeOfDay_atTime h m now Hv) as Htod.
  destruct (Z.leb_spec (atTime h m now) now) as [Hle|Hgt].
  - eexists. split; [reflexivity|].
    pose proof (addDays_fixed 1 (atTime h m now)) as Hadd.
    split; [lia|]. split; [lia|].
    split.
    + by rewrite localTimeOfDay_addDays.
    + rewrite localDay_addDays. lia.
  - eexists. split; [reflexivity|]. split; [done|]. split; [lia|]. done.
Qed.

Lemma weeklyNext_spec schedule h m d now date :
  parseTime (sc_time schedule) = (Num h, Num m) → validTime h m →
  localDay date = localDay now →
  default 1 (sc_dayOfWeek schedule) = d → 0 ≤ d ≤ 6 →
  ∃ r, weeklyNext schedule now date = Num r ∧
       now < r ∧
       Date_getDay r = d ∧
       localTimeOfDay r = h * msPerHour + m * msPerMinute ∧
       (∀ r', now < r' → Date_getDay r' = d →
              localTimeOfDay r' = h * msPerHour + m * msPerMinute → r ≤ r') ∧
       (Date_getDay now = d → atTime h m now ≤ now →
        r = atTime h m now + 7 * msPerDay).
Proof.
  intros Hparse Hv Hdays Hd Hrange. unfold weeklyNext. rewrite Hparse, Hd.
  rewrite (setHours_same_day _ _ now date Hdays). simpl.
  fold (atTime h m now).
  pose proof (atTime_bounds h m now Hv) as Hb.
  pose proof (localTimeOfDay_atTime h m now Hv) as Htod.
  pose proof (getDay_atTime h m now Hv) as Hwd.
  pose proof (getDay_range now) as Hwr.
  rewrite Hwd.
  set (next := atTime h m now) in *.
  set (du := if (d - Date_getDay now <? 0) ||
                ((d - Date_getDay now =? 0) && (next <=? now))
             then d - Date_getDay now + 7 else d - Date_getDay now).
  assert (Hdu : (du = d - Date_getDay now ∨ du = d - Date_getDay now + 7) ∧
                0 ≤ du ≤ 7 ∧ (du = 0 → now < next) ∧ (du = 7 → next ≤ now) ∧
                (Date_getDay now = d → next ≤ now → du = 7)).
  { subst du.
    destruct (Z.ltb_spec (d - Date_getDay now) 0),
             (Z.eqb_spec (d - Date_getDay now) 0),
             (Z.leb_spec next now); simpl; lia. }
  destruct Hdu as (Hcase & Hdur & Hdu0 & Hdu7 & Hroll).
  exists (Date_addDays du next). split; [reflexivity|].
  assert (Hr : Date_addDays du next = next + du * msPerDay) by apply addDays_fixed.
  assert (Hms : msPerDay = 86400000) by reflexivity.
  assert (Hfuture : now < Date_addDays du next) by (rewrite Hr; nia).
  assert (Hday : Date_getDay (Date_addDays du next) = d).
  { apply getDay_addDays; [done|]. by rewrite Hwd. }
  assert (Htime : localTimeOfDay (Date_addDays du next) =
                  h * msPerHour + m * msPerMinute).
  { by rewrite localTimeOfDay_addDays. }
  split; [done|]. split; [done|]. split; [done|]. split.
  - intros r' Hr' Hday' Htime'.
    destruct (same_weekday_time (Date_addDays du next) r') as [k Hk];
      [congruence|congruence|].
    rewrite Hr in *. nia.
  - intros Hsame Hpast. rewrite Hr, (Hroll Hsame Hpast). lia.
Qed.

End DateFacts.

Section NextRun.
Import Scheduler.
Context {W : Type} `{!JsBuiltins} `{!Host W}.


End NextRun.




(** In a zone with daylight saving the equations of C8 on ["daily"] and
    ["weekly"] need not hold: at 01:00 on the day the clocks go forward,
    a daily 00:30 is tomorrow's, which is 23 hours after today's 00:30,
    not [msPerDay]. *)
Example daily_across_clock_change :
  let now := Dst.change - 3600000 in
  let today := Dst.change - 5400000 in
  @atTime Dst.builtins 0 30 now = today ∧
  (@Scheduler.calculateNextRun Sim.World Dst.builtins Sim.host Dst.nightly
     (Sim.world0 now [] [])).1 = Some (Num (today + 23 * 3600000)) ∧
  @Scheduler.localTimeOfDay Dst.builtins (today + 23 * 3600000) = 30 * 60000 ∧
  ¬ @fixedOffset Dst.builtins 0.
Proof.
  split; [reflexivity|]. split; [reflexivity|]. split; [reflexivity|].
  intros Hfixed. specialize (Hfixed Dst.change true). discriminate Hfixed.
Qed.
(** ** The scheduler *)

Section SchedulerFacts.
Import Scheduler.
Context {W : Type} `{!JsBuiltins} `{!Host W}.
Variable cb : SchedulerCallbacks W.
Implicit Types (s : SchedState W) (w x : Workflow).

Lemma saveWorkflow_store x (st : gmap string Workflow) (wd : W) :
  (saveWorkflow x st wd).1.2 = <[wf_id x := withUpdatedAt (Date_now wd).1 x]> st.
Proof. unfold saveWorkflow. by destruct (Date_now wd). Qed.

Lemma no_calls s k :
  ∃ extra : list (Workflow * RunOutcome),
    invoked s = invoked s ++ extra ∧ ∀ e, e ∈ extra → wf_id e.1 ≠ k.
Proof.
  exists []. rewrite app_nil_r. split; [done|].
  intros e He. by apply elem_of_nil in He.
Qed.

(** One turn of the loop on [x] touches no file but that of [x] and
    calls [onWorkflowRun] on nothing but [x]. *)
Lemma checkOne_frame now x s k :
  wf_id x ≠ k →
  store (checkOne cb now x s) !! k = store s !! k ∧
  ∃ extra, invoked (checkOne cb now x s) = invoked s ++ extra ∧
           ∀ e, e ∈ extra → wf_id e.1 ≠ k.
Proof.
  intros Hk. unfold checkOne.
  pose proof (conj (eq_refl (store s !! k)) (no_calls s k)) as Hsame.
  destruct (wf_schedule x) as [schedule|]; [|exact Hsame].
  destruct (negb (sc_enabled schedule) || negb (wf_enabled x)); [exact Hsame|].
  destruct (negb (truthyNum (sc_nextRun schedule))).
  - destruct (calculateNextRun x (world s)) as [r w1].
    pose proof (saveWorkflow_store
      (withSchedule (withNextRun (orUndefined r) schedule) x) (store s) w1) as Hsave.
    destruct (saveWorkflow _ (store s) w1) as [[x' st'] w2]. simpl in *.
    subst st'. rewrite lookup_insert_ne by done. split; [done|].
    apply no_calls.
  - destruct (default 0 (sc_nextRun schedule) <=? now); [|exact Hsame].
    destruct (onWorkflowRun cb x _) as [outcome w2].
    destruct outcome as [|message].
    + destruct (calculateNextRun _ w2) as [r w3].
      match goal with
      | |- context [saveWorkflow ?y (store s) w3] =>
          pose proof (saveWorkflow_store y (store s) w3) as Hsave;
          destruct (saveWorkflow y (store s) w3) as [[x' st'] w4]
      end.
      simpl in *. subst st'. rewrite lookup_insert_ne by done. split; [done|].
      eexists. split; [reflexivity|].
      intros e He. apply list_elem_of_singleton in He. by subst e.
    + simpl. split; [done|]. eexists. split; [reflexivity|].
      intros e He. apply list_elem_of_singleton in He. by subst e.
Qed.

Lemma insert_storeOK (st : gmap string Workflow) x t :
  storeOK st → storeOK (<[wf_id x := withUpdatedAt t x]> st).
Proof.
  intros Hok k v. rewrite lookup_insert.
  case_decide; [|apply Hok]. intros [= <-]. by subst k.
Qed.

Lemma checkOne_storeOK now x s :
  storeOK (store s) → storeOK (store (checkOne cb now x s)).
Proof.
  intros Hok. unfold checkOne.
  destruct (wf_schedule x) as [schedule|]; [|exact Hok].
  destruct (negb (sc_enabled schedule) || negb (wf_enabled x)); [exact Hok|].
  destruct (negb (truthyNum (sc_nextRun schedule))).
  - destruct (calculateNextRun x (world s)) as [r w1].
    pose proof (saveWorkflow_store
      (withSchedule (withNextRun (orUndefined r) schedule) x) (store s) w1) as Hsave.
    destruct (saveWorkflow _ (store s) w1) as [[x' st'] w2]. simpl in *.
    subst st'. by apply (insert_storeOK _ (withSchedule _ x)).
  - destruct (default 0 (sc_nextRun schedule) <=? now); [|exact Hok].
    destruct (onWorkflowRun cb x _) as [outcome w2].
    destruct outcome as [|message]; [|exact Hok].
    destruct (calculateNextRun _ w2) as [r w3].
    match goal with
    | |- context [saveWorkflow ?y (store s) w3] =>
        pose proof (saveWorkflow_store y (store s) w3) as Hsave;
        destruct (saveWorkflow y (store s) w3) as [[x' st'] w4]
    end.
    simpl in *. subst st'. by apply (insert_storeOK _ (withSchedule _ x)).
Qed.

(** One turn of the loop on a workflow that is due calls
    [onWorkflowRun] on it, once, and writes its file only if the call
    returns. *)
Lemma checkOne_due now w s :
  isDue w now = true →
  store s !! wf_id w = Some w →
  ∃ outcome,
    invoked (checkOne cb now w s) = invoked s ++ [(w, outcome)] ∧
    settledAt now w outcome (store (checkOne cb now w s) !! wf_id w).
Proof.
  unfold isDue, checkOne.
  destruct (wf_schedule w) as [schedule|] eqn:Hsched; [|discriminate].
  intros Hdue Hw.
  apply andb_true_iff in Hdue as [Hdue Hle].
  apply andb_true_iff in Hdue as [Hdue Hnext].
  apply andb_true_iff in Hdue as [Hen Hwen].
  rewrite Hen, Hwen, Hnext, Hle. simpl.
  destruct (onWorkflowRun cb w _) as [outcome w2].
  destruct outcome as [|message].
  - destruct (calculateNextRun _ w2) as [r w3] eqn:Hcalc.
    match goal with
    | |- context [saveWorkflow ?y (store s) w3] =>
        pose proof (saveWorkflow_store y (store s) w3) as Hsave;
        destruct (saveWorkflow y (store s) w3) as [[x' st'] w4]
    end.
    simpl in *. subst st'. exists RunResolved. split; [done|].
    exists schedule, w2, (Date_now w3).1. split; [done|].
    unfold rescheduled. rewrite Hcalc. simpl. by rewrite lookup_insert_eq.
  - exists (RunRejected message). done.
Qed.

Lemma pass_frame now (l : list Workflow) k :
  ∀ s, (∀ x, x ∈ l → wf_id x ≠ k) →
  store (pass cb now s l) !! k = store s !! k ∧
  ∃ extra, invoked (pass cb now s l) = invoked s ++ extra ∧
           ∀ e, e ∈ extra → wf_id e.1 ≠ k.
Proof.
  unfold pass. induction l as [|x l IH]; intros s Hl; simpl.
  - split; [done|]. apply no_calls.
  - destruct (checkOne_frame now x s k) as (Hst & extra1 & Hinv1 & Hex1).
    { apply Hl. left. }
    destruct (IH (checkOne cb now x s)) as (Hst2 & extra2 & Hinv2 & Hex2).
    { intros y Hy. apply Hl. by right. }
    split; [congruence|].
    exists (extra1 ++ extra2). rewrite Hinv2, Hinv1, <- app_assoc.
    split; [done|]. intros e He. apply elem_of_app in He as [He|He]; eauto.
Qed.

Lemma pass_storeOK now (l : list Workflow) :
  ∀ s, storeOK (store s) → storeOK (store (pass cb now s l)).
Proof.
  unfold pass. induction l as [|x l IH]; intros s Hok; simpl; [done|].
  apply IH. by apply checkOne_storeOK.
Qed.

Lemma pass_cons now x (l : list Workflow) s :
  pass cb now s (x :: l) = pass cb now (checkOne cb now x s) l.
Proof. reflexivity. Qed.

(** A pass over workflows of distinct ids runs a due workflow once. *)
Lemma pass_due now w (l : list Workflow) :
  ∀ s, NoDup (wf_id <$> l) → w ∈ l → isDue w now = true →
  store s !! wf_id w = Some w →
  ∃ outcome before after,
    invoked (pass cb now s l) = invoked s ++ before ++ (w, outcome) :: after ∧
    (∀ e, e ∈ before ++ after → wf_id e.1 ≠ wf_id w) ∧
    settledAt now w outcome (store (pass cb now s l) !! wf_id w).
Proof.
  induction l as [|x l IH]; intros s Hnd Hin Hdue Hw.
  { by apply elem_of_nil in Hin. }
  rewrite fmap_cons in Hnd. apply NoDup_cons in Hnd as [Hx Hnd].
  rewrite pass_cons.
  destruct (decide (x = w)) as [->|Hne].
  - destruct (checkOne_due now w s Hdue Hw) as (outcome & Hinv & Hset).
    destruct (pass_frame now l (wf_id w) (checkOne cb now w s))
      as (Hst & after & Hinv2 & Hafter).
    { intros y Hy Heq. apply Hx. rewrite <- Heq.
      apply list_elem_of_fmap. by exists y. }
    exists outcome, [], after. simpl.
    split; [rewrite Hinv2, Hinv, <- app_assoc; done|].
    split; [done|]. by rewrite Hst.
  - apply elem_of_cons in Hin as [->|Hin]; [done|].
    assert (Hid : wf_id x ≠ wf_id w).
    { intros Heq. apply Hx. rewrite Heq. apply list_elem_of_fmap. by exists w. }
    destruct (checkOne_frame now x s (wf_id w) Hid) as (Hst & extra & Hinv & Hextra).
    destruct (IH (checkOne cb now x s) Hnd Hin Hdue)
      as (outcome & before & after & Hinv2 & Hother & Hset); [congruence|].
    exists outcome, (extra ++ before), after.
    split; [rewrite Hinv2, Hinv, <- !app_assoc; done|].
    split; [|done].
    intros e He. rewrite <- app_assoc in He.
    apply elem_of_app in He as [He|He]; eauto.
Qed.

Lemma loadWorkflows_elem (st : gmap string Workflow) w :
  st !! wf_id w = Some w → w ∈ loadWorkflows st.
Proof.
  intros Hw. unfold loadWorkflows. rewrite merge_sort_Permutation.
  apply list_elem_of_fmap. exists (wf_id w, w). split; [done|].
  by apply elem_of_map_to_list.
Qed.

Lemma loadWorkflows_NoDup (st : gmap string Workflow) :
  storeOK st → NoDup (wf_id <$> loadWorkflows st).
Proof.
  intros Hok. unfold loadWorkflows. rewrite merge_sort_Permutation.
  rewrite <- list_fmap_compose.
  rewrite (list_fmap_ext (wf_id ∘ snd) fst (map_to_list st)).
  - apply NoDup_fst_map_to_list.
  - intros i [k v] Hi. simpl. apply Hok. apply elem_of_map_to_list.
    eapply list_elem_of_lookup_2; eauto.
Qed.

Lemma isDue_later w now later :
  isDue w now = true → now ≤ later → isDue w later = true.
Proof.
  unfold isDue. destruct (wf_schedule w) as [schedule|]; [|done].
  intros Hdue Hle.
  apply andb_true_iff in Hdue as [Hdue Hnext].
  rewrite Hdue. simpl. apply Z.leb_le. apply Z.leb_le in Hnext. lia.
Qed.

Lemma isDue_fields w schedule nextRun now :
  wf_enabled w = true → wf_schedule w = Some schedule →
  sc_enabled schedule = true → sc_nextRun schedule = Some nextRun →
  nextRun ≠ 0 → nextRun ≤ now → isDue w now = true.
Proof.
  intros Hen Hsched Hon Hnext Hnz Hle. unfold isDue, truthyNum.
  rewrite Hsched, Hon, Hen, Hnext. simpl.
  apply Z.eqb_neq in Hnz. rewrite Hnz. simpl. by apply Z.leb_le.
Qed.

Lemma checkSchedules_due s w :
  storeOK (store s) →
  store s !! wf_id w = Some w →
  isDue w (Date_now (world s)).1 = true →
  storeOK (store (checkSchedules (Some cb) s)) ∧
  ∃ outcome before after,
    invoked (checkSchedules (Some cb) s) =
      invoked s ++ before ++ (w, outcome) :: after ∧
    (∀ e, e ∈ before ++ after → wf_id e.1 ≠ wf_id w) ∧
    settledAt (Date_now (world s)).1 w outcome
      (store (checkSchedules (Some cb) s) !! wf_id w).
Proof.
  intros Hok Hw Hdue. unfold checkSchedules.
  destruct (Date_now (world s)) as [now w1]. simpl in Hdue |- *.
  split.
  - by apply (pass_storeOK now _
                {| world := w1; store := store s; invoked := invoked s |}).
  - apply (pass_due now w (loadWorkflows (store s))
             {| world := w1; store := store s; invoked := invoked s |}); try done.
    + by apply loadWorkflows_NoDup.
    + by apply loadWorkflows_elem.
Qed.

(** *** The runs of a tick, told from the world *)

Lemma ran_app calls1 (wa wb : W) :
  ran cb calls1 wa wb →
  ∀ calls2 wc, ran cb calls2 wb wc → ran cb (calls1 ++ calls2) wa wc.
Proof.
  induction 1 as [wa|calls wa wb wc Hmove Hran IH
                 |x outcome calls wa wb Hout Hran IH];
    intros calls2 wd Hrest; simpl.
  - exact Hrest.
  - eapply ran_move; [exact Hmove | by apply IH].
  - apply ran_call; [exact Hout | by apply IH].
Qed.

Lemma ran_then calls (wa wb wc : W) :
  ran cb calls wa wb → ran cb [] wb wc → ran cb calls wa wc.
Proof.
  intros H1 H2. pose proof (ran_app _ _ _ H1 _ _ H2) as Hr.
  by rewrite app_nil_r in Hr.
Qed.

Lemma ran_clock (wa : W) : ran cb [] wa (Date_now wa).2.
Proof. eapply ran_move; [apply tick_clock | apply ran_nil]. Qed.

Lemma ran_log message (wa : W) : ran cb [] wa (onLog cb message wa).
Proof. eapply ran_move; [apply tick_log | apply ran_nil]. Qed.

Lemma calculateNextRun_ran x (wa : W) : ran cb [] wa (calculateNextRun x wa).2.
Proof.
  unfold calculateNextRun.
  destruct (wf_schedule x) as [schedule|]; [|apply ran_nil].
  destruct (negb (sc_enabled schedule)); [apply ran_nil|].
  pose proof (ran_clock wa) as H1.
  destruct (Date_now wa) as [now w1]. simpl in H1.
  destruct (String.eqb (sc_type schedule) "interval"); [exact H1|].
  pose proof (ran_clock w1) as H2.
  destruct (Date_now w1) as [date w2]. simpl in H2.
  destruct (String.eqb (sc_type schedule) "daily"); [by eapply ran_then|].
  destruct (String.eqb (sc_type schedule) "weekly"); [by eapply ran_then|].
  exact H1.
Qed.

Lemma saveWorkflow_world x (st : gmap string Workflow) (wa : W) :
  (saveWorkflow x st wa).2 = (Date_now wa).2.
Proof. unfold saveWorkflow. by destruct (Date_now wa). Qed.

Lemma no_runs s :
  ∃ calls : list (Workflow * RunOutcome),
    invoked s = invoked s ++ calls ∧ ran cb calls (world s) (world s).
Proof. exists []. rewrite app_nil_r. split; [done|]. apply ran_nil. Qed.

(** One turn of the loop moves the world by the calls it records. *)
Lemma checkOne_ran now x s :
  ∃ calls,
    invoked (checkOne cb now x s) = invoked s ++ calls ∧
    ran cb calls (world s) (world (checkOne cb now x s)).
Proof.
  unfold checkOne.
  destruct (wf_schedule x) as [schedule|]; [|apply no_runs].
  destruct (negb (sc_enabled schedule) || negb (wf_enabled x)); [apply no_runs|].
  destruct (negb (truthyNum (sc_nextRun schedule))).
  - pose proof (calculateNextRun_ran x (world s)) as H1.
    destruct (calculateNextRun x (world s)) as [r w1]. simpl in H1.
    pose proof (saveWorkflow_world
      (withSchedule (withNextRun (orUndefined r) schedule) x) (store s) w1) as Hw.
    destruct (saveWorkflow _ (store s) w1) as [[x' st'] w2]. simpl in *.
    subst w2. exists []. rewrite app_nil_r. split; [done|].
    eapply ran_then; [exact H1 | apply ran_clock].
  - destruct (default 0 (sc_nextRun schedule) <=? now); [|apply no_runs].
    pose proof (ran_log ("[Scheduler] 워크플로우 실행: " +:+ wf_name x) (world s))
      as H1.
    set (w1 := onLog cb ("[Scheduler] 워크플로우 실행: " +:+ wf_name x) (world s))
      in *.
    pose proof (ran_call cb x _ [] w1 _ eq_refl (ran_nil cb _)) as H2.
    destruct (onWorkflowRun cb x w1) as [outcome w2]. simpl in H2.
    destruct outcome as [|message].
    + pose proof (calculateNextRun_ran
        (withSchedule (withLastRun (Some now) schedule) x) w2) as H3.
      destruct (calculateNextRun _ w2) as [r w3]. simpl in H3.
      match goal with
      | |- context [saveWorkflow ?y (store s) w3] =>
          pose proof (saveWorkflow_world y (store s) w3) as Hw;
          destruct (saveWorkflow y (store s) w3) as [[x' st'] w4]
      end.
      simpl in *. subst w4. eexists. split; [reflexivity|].
      eapply (ran_app [] _ _ H1), ran_then; [exact H2|].
      eapply ran_then; [exact H3|].
      eapply ran_then; [apply ran_clock | apply ran_log].
    + simpl. eexists. split; [reflexivity|].
      eapply (ran_app [] _ _ H1), ran_then; [exact H2 | apply ran_log].
Qed.

Lemma pass_ran now (l : list Workflow) :
  ∀ s, ∃ calls,
    invoked (pass cb now s l) = invoked s ++ calls ∧
    ran cb calls (world s) (world (pass cb now s l)).
Proof.
  unfold pass. induction l as [|x l IH]; intros s; simpl; [apply no_runs|].
  destruct (checkOne_ran now x s) as (c1 & Hinv1 & Hran1).
  destruct (IH (checkOne cb now x s)) as (c2 & Hinv2 & Hran2).
  exists (c1 ++ c2). split; [by rewrite Hinv2, Hinv1, app_assoc|].
  by eapply ran_app.
Qed.

Lemma checkSchedules_ran s :
  ∃ calls,
    invoked (checkSchedules (Some cb) s) = invoked s ++ calls ∧
    ran cb calls (world s) (world (checkSchedules (Some cb) s)).
Proof.
  unfold checkSchedules.
  pose proof (ran_clock (world s)) as H1.
  destruct (Date_now (world s)) as [now w1]. simpl in H1.
  destruct (pass_ran now (loadWorkflows (store s))
              {| world := w1; store := store s; invoked := invoked s |})
    as (calls & Hinv & Hran).
  exists calls. split; [exact Hinv|]. exact (ran_app [] _ _ H1 _ _ Hran).
Qed.

(** One turn of the loop on a workflow that is due: [onWorkflowRun] is
    called on it, in the world that the line announcing the run leaves,
    and its file is written only if the call returns. *)
Lemma checkOne_run now w s :
  isDue w now = true →
  ∃ wa : W,
    ran cb [] (world s) wa ∧
    invoked (checkOne cb now w s) = invoked s ++ [(w, (onWorkflowRun cb w wa).1)] ∧
    ran cb [] (onWorkflowRun cb w wa).2 (world (checkOne cb now w s)) ∧
    match (onWorkflowRun cb w wa).1 with
    | RunRejected _ => store (checkOne cb now w s) = store s
    | RunResolved =>
        ∃ schedule,
          wf_schedule w = Some schedule ∧
          store (checkOne cb now w s) =
            <[wf_id w :=
                rescheduled now (onWorkflowRun cb w wa).2
                  (Date_now
                     (calculateNextRun
                        (withSchedule (withLastRun (Some now) schedule) w)
                        (onWorkflowRun cb w wa).2).2).1
                  schedule w]> (store s)
    end.
Proof.
  unfold isDue, checkOne.
  destruct (wf_schedule w) as [schedule|] eqn:Hsched; [|discriminate].
  intros Hdue.
  apply andb_true_iff in Hdue as [Hdue Hle].
  apply andb_true_iff in Hdue as [Hdue Hnext].
  apply andb_true_iff in Hdue as [Hen Hwen].
  rewrite Hen, Hwen, Hnext, Hle. simpl.
  exists (onLog cb ("[Scheduler] 워크플로우 실행: " +:+ wf_name w) (world s)).
  split; [apply ran_log|].
  destruct (onWorkflowRun cb w _) as [outcome w2]. simpl.
  destruct outcome as [|message].
  - pose proof (calculateNextRun_ran
      (withSchedule (withLastRun (Some now) schedule) w) w2) as H3.
    destruct (calculateNextRun _ w2) as [r w3] eqn:Hcalc. simpl in H3.
    match goal with
    | |- context [saveWorkflow ?y (store s) w3] =>
        pose proof (saveWorkflow_store y (store s) w3) as Hsave;
        pose proof (saveWorkflow_world y (store s) w3) as Hw;
        destruct (saveWorkflow y (store s) w3) as [[x' st'] w4]
    end.
    simpl in *. subst st' w4.
    split; [done|]. split.
    + eapply ran_then; [exact H3|].
      eapply ran_then; [apply ran_clock | apply ran_log].
    + exists schedule. split; [done|]. unfold rescheduled. by rewrite Hcalc.
  - simpl. split; [done|]. split; [apply ran_log | done].
Qed.

(** A pass over workflows of distinct ids runs a due workflow once, in
    the world that the turns before it leave. *)
Lemma pass_run now w (l : list Workflow) :
  ∀ s, NoDup (wf_id <$> l) → w ∈ l → isDue w now = true →
  store s !! wf_id w = Some w →
  ∃ (wa : W) before after,
    ran cb before (world s) wa ∧
    invoked (pass cb now s l) =
      invoked s ++ before ++ (w, (onWorkflowRun cb w wa).1) :: after ∧
    ran cb after (onWorkflowRun cb w wa).2 (world (pass cb now s l)) ∧
    (∀ e, e ∈ before ++ after → wf_id e.1 ≠ wf_id w) ∧
    match (onWorkflowRun cb w wa).1 with
    | RunRejected _ => store (pass cb now s l) !! wf_id w = Some w
    | RunResolved =>
        ∃ schedule,
          wf_schedule w = Some schedule ∧
          store (pass cb now s l) !! wf_id w =
            Some (rescheduled now (onWorkflowRun cb w wa).2
                    (Date_now
                       (calculateNextRun
                          (withSchedule (withLastRun (Some now) schedule) w)
                          (onWorkflowRun cb w wa).2).2).1
                    schedule w)
    end.
Proof.
  induction l as [|x l IH]; intros s Hnd Hin Hdue Hw.
  { by apply elem_of_nil in Hin. }
  rewrite fmap_cons in Hnd. apply NoDup_cons in Hnd as [Hx Hnd].
  rewrite pass_cons.
  destruct (decide (x = w)) as [->|Hne].
  - destruct (checkOne_run now w s Hdue) as (wa & Hbefore & Hinv & Hafter & Hset).
    destruct (pass_frame now l (wf_id w) (checkOne cb now w s))
      as (Hst & after & Hinv2 & Hothers).
    { intros y Hy Heq. apply Hx. rewrite <- Heq.
      apply list_elem_of_fmap. by exists y. }
    destruct (pass_ran now l (checkOne cb now w s)) as (after' & Hinv3 & Hran).
    assert (after' = after) as ->.
    { apply (app_inv_head (invoked (checkOne cb now w s))). congruence. }
    exists wa, [], after. simpl.
    split; [exact Hbefore|].
    split; [rewrite Hinv2, Hinv, <- app_assoc; done|].
    split; [by eapply (ran_app [])|].
    split; [done|]. rewrite Hst.
    destruct (onWorkflowRun cb w wa).1 as [|message].
    + destruct Hset as (schedule & Hsched & Hstore).
      exists schedule. split; [done|]. by rewrite Hstore, lookup_insert_eq.
    + by rewrite Hset.
  - apply elem_of_cons in Hin as [->|Hin]; [done|].
    assert (Hid : wf_id x ≠ wf_id w).
    { intros Heq. apply Hx. rewrite Heq. apply list_elem_of_fmap. by exists w. }
    destruct (checkOne_frame now x s (wf_id w) Hid) as (Hst & extra & Hinv & Hextra).
    destruct (checkOne_ran now x s) as (extra' & Hinv' & Hran).
    assert (extra' = extra) as ->.
    { apply (app_inv_head (invoked s)). congruence. }
    destruct (IH (checkOne cb now x s) Hnd Hin Hdue)
      as (wa & before & after & Hbefore & Hinv2 & Hafter & Hother & Hset);
      [congruence|].
    exists wa, (extra ++ before), after.
    split; [by eapply ran_app|].
    split; [rewrite Hinv2, Hinv, <- !app_assoc; done|].
    split; [done|]. split; [|done].
    intros e He. rewrite <- app_assoc in He.
    apply elem_of_app in He as [He|He]; eauto.
Qed.

Lemma checkSchedules_run s w :
  storeOK (store s) →
  store s !! wf_id w = Some w →
  isDue w (Date_now (world s)).1 = true →
  let now := (Date_now (world s)).1 in
  let s' := checkSchedules (Some cb) s in
  ∃ (wa : W) before after,
    ran cb before (world s) wa ∧
    invoked s' = invoked s ++ before ++ (w, (onWorkflowRun cb w wa).1) :: after ∧
    ran cb after (onWorkflowRun cb w wa).2 (world s') ∧
    (∀ e, e ∈ before ++ after → wf_id e.1 ≠ wf_id w) ∧
    match (onWorkflowRun cb w wa).1 with
    | RunRejected _ => store s' !! wf_id w = Some w
    | RunResolved =>
        ∃ schedule,
          wf_schedule w = Some schedule ∧
          store s' !! wf_id w =
            Some (rescheduled now (onWorkflowRun cb w wa).2
                    (Date_now
                       (calculateNextRun
                          (withSchedule (withLastRun (Some now) schedule) w)
                          (onWorkflowRun cb w wa).2).2).1
                    schedule w)
    end.
Proof.
  intros Hok Hw Hdue now s'. subst now s'. unfold checkSchedules.
  pose proof (ran_clock (world s)) as H1.
  destruct (Date_now (world s)) as [now w1]. simpl in Hdue, H1 |- *.
  destruct (pass_run now w (loadWorkflows (store s))
              {| world := w1; store := store s; invoked := invoked s |})
    as (wa & before & after & Hbefore & Hrest); try done.
  - by apply loadWorkflows_NoDup.
  - by apply loadWorkflows_elem.
  - exists wa, before, after. split; [|exact Hrest].
    exact (ran_app [] _ _ H1 _ _ Hbefore).
Qed.

End SchedulerFacts.

Section SchedulerClaims.
Import Scheduler.
Context {W : Type} `{!JsBuiltins} `{!Host W}.

(** C1.  The directory holds each workflow under its id.  A workflow [w]
    in it is enabled, its schedule is enabled, and its [nextRun] is set
    (and not 0, which the code reads as unset) and at or before the
    [now] that a tick of [checkSchedules] reads.
    Then that tick calls [onWorkflowRun] on [w], once: the world goes
    through the runs recorded before it to a world [wa], there
    [onWorkflowRun] of the callbacks is applied to [w], and from the
    world this call leaves the world goes on through the runs recorded
    after it; no other run of the tick is of a workflow with the id of
    [w].  If the call raises, the file of [w] is as before ([lastRun],
    [nextRun] and all else unchanged, nothing written), and a tick on
    that directory at the same or a later time calls [onWorkflowRun] on
    [w] again.  If the call returns, the file of [w] holds [w] with
    [lastRun] set to this tick's [now], [nextRun] computed anew by
    [calculateNextRun] from the schedule with that [lastRun], in the
    world the run left, and the [updatedAt] that [saveWorkflow] reads
    from the clock next. *)
Theorem checkSchedules_retry_until_success (cb : SchedulerCallbacks W)
    (s : SchedState W) (w : Workflow) (schedule : Schedule) (nextRun : Z) :
  let now := (Date_now (world s)).1 in
  let s' := checkSchedules (Some cb) s in
  storeOK (store s) →
  store s !! wf_id w = Some w →
  wf_enabled w = true →
  wf_schedule w = Some schedule →
  sc_enabled schedule = true →
  sc_nextRun schedule = Some nextRun →
  nextRun ≠ 0 →
  nextRun ≤ now →
  ∃ (wa : W) before after,
    ran cb before (world s) wa ∧
    invoked s' = invoked s ++ before ++ (w, (onWorkflowRun cb w wa).1) :: after ∧
    ran cb after (onWorkflowRun cb w wa).2 (world s') ∧
    (∀ e, e ∈ before ++ after → wf_id e.1 ≠ wf_id w) ∧
    match (onWorkflowRun cb w wa).1 with
    | RunRejected _ =>
        store s' !! wf_id w = Some w ∧
        ∀ s2 : SchedState W,
          store s2 = store s' → now ≤ (Date_now (world s2)).1 →
          ∃ (wa2 : W) before2 after2,
            ran cb before2 (world s2) wa2 ∧
            invoked (checkSchedules (Some cb) s2) =
              invoked s2 ++ before2 ++ (w, (onWorkflowRun cb w wa2).1) :: after2 ∧
            ran cb after2 (onWorkflowRun cb w wa2).2
              (world (checkSchedules (Some cb) s2))
    | RunResolved =>
        let wr := (onWorkflowRun cb w wa).2 in
        let next :=
          calculateNextRun (withSchedule (withLastRun (Some now) schedule) w) wr in
        let saved := rescheduled now wr (Date_now next.2).1 schedule w in
        store s' !! wf_id w = Some saved ∧
        (wf_schedule saved ≫= sc_lastRun) = Some now ∧
        (wf_schedule saved ≫= sc_nextRun) = orUndefined next.1 ∧
        wf_updatedAt saved = (Date_now next.2).1
    end.
Proof.
  intros now s' Hok Hw Hen Hsched Hon Hnext Hnz Hle.
  pose proof (isDue_fields w schedule nextRun now Hen Hsched Hon Hnext Hnz Hle)
    as Hdue.
  destruct (checkSchedules_run cb s w Hok Hw Hdue)
    as (wa & before & after & Hbefore & Hinv & Hafter & Hother & Hset).
  pose proof (checkSchedules_due cb s w Hok Hw Hdue) as [Hok' _].
  exists wa, before, after.
  split; [exact Hbefore|]. split; [exact Hinv|]. split; [exact Hafter|].
  split; [exact Hother|].
  fold now s' in Hset.
  destruct (onWorkflowRun cb w wa).1 as [|message].
  - destruct Hset as (schedule' & Hsched' & Hentry).
    assert (schedule' = schedule) as -> by congruence.
    split; [exact Hentry|]. split; [reflexivity|]. split; reflexivity.
  - split; [exact Hset|].
    intros s2 Hstore Hlater.
    destruct (checkSchedules_run cb s2 w)
      as (wa2 & before2 & after2 & Hbefore2 & Hinv2 & Hafter2 & _).
    + rewrite Hstore. exact Hok'.
    + by rewrite Hstore.
    + by apply (isDue_later w now).
    + by exists wa2, before2, after2.
Qed.

End SchedulerClaims.

(** The scenario of the specification: [onWorkflowRun] raises on a
    workflow whose [nextRun] is in the past.  The tick makes that one
    call, the file is unchanged, and the next tick runs the workflow
    again. *)
Lemma checkSchedules_retry_until_success_witness :
  storeOK Ex.overdueStore ∧
  Ex.overdueStore !! wf_id Ex.overdue = Some Ex.overdue ∧
  500 ≤ (Date_now (Scheduler.world Ex.failingTick)).1 ∧
  (∃ (wa : Sim.World) before after,
     ran Sim.callbacks before (Scheduler.world Ex.failingTick) wa ∧
     Scheduler.invoked (Scheduler.checkSchedules (Some Sim.callbacks) Ex.failingTick)
       = before ++
         (Ex.overdue, (Scheduler.onWorkflowRun Sim.callbacks Ex.overdue wa).1)
           :: after) ∧
  Scheduler.invoked (Scheduler.checkSchedules (Some Sim.callbacks) Ex.failingTick)
    = [(Ex.overdue, Scheduler.RunRejected "browser closed")] ∧
  Scheduler.store (Scheduler.checkSchedules (Some Sim.callbacks) Ex.failingTick)
    !! "wf-3" = Some Ex.overdue ∧
  Sim.outcomes
    (Scheduler.world (Scheduler.checkSchedules (Some Sim.callbacks) Ex.failingTick))
    = [] ∧
  Scheduler.invoked
    (Scheduler.checkSchedules (Some Sim.callbacks)
       (Scheduler.checkSchedules (Some Sim.callbacks) Ex.failingTick))
    = [(Ex.overdue, Scheduler.RunRejected "browser closed");
       (Ex.overdue, Scheduler.RunResolved)].
Proof.
  assert (Hok : storeOK Ex.overdueStore).
  { intros k v Hkv. unfold Ex.overdueStore in Hkv.
    apply lookup_singleton_Some in Hkv as [<- <-]. reflexivity. }
  assert (Hw : Ex.overdueStore !! wf_id Ex.overdue = Some Ex.overdue)
    by apply lookup_singleton_eq.
  assert (Hle : 500 ≤ (Date_now (Scheduler.world Ex.failingTick)).1)
    by (simpl; lia).
  split; [exact Hok|]. split; [exact Hw|]. split; [exact Hle|].
  split.
  - destruct (checkSchedules_retry_until_success Sim.callbacks Ex.failingTick
                Ex.overdue _ 500 Hok Hw eq_refl eq_refl eq_refl eq_refl
                ltac:(discriminate) Hle)
      as (wa & before & after & Hbefore & Hinv & _).
    exists wa, before, after. split; [exact Hbefore|exact Hinv].
  - repeat split; vm_compute; reflexivity.
Defined.

(** * Further properties *)

(** ** The log, and runs that execute no step *)

Section ExecutorLog.
Context {W : Type} `{!JsBuiltins} `{!Host W}.
Implicit Types (s : ExecState W) (self : WorkflowExecutor W).

Lemma grows_refl s : grows s s.
Proof. exists []. by rewrite app_nil_r. Qed.

Lemma grows_same s s' : logs s' = logs s → grows s s'.
Proof. intros Hl. exists []. by rewrite app_nil_r. Qed.

Lemma grows_trans s1 s2 s3 : grows s1 s2 → grows s2 s3 → grows s1 s3.
Proof.
  intros [d1 H1] [d2 H2]. exists (d1 ++ d2). by rewrite H2, H1, app_assoc.
Qed.

Lemma now_inv s t s' :
  now s = Some (t, s') →
  logs s' = logs s ∧ aborted s' = aborted s ∧ trace s' = trace s.
Proof.
  unfold now. destruct (Date_now (world s)) as [t0 w]. intros Hrun.
  by simplify_eq.
Qed.

Lemma log_inv self stepId stepName type message s u s' :
  log self stepId stepName type message s = Some (u, s') →
  aborted s' = aborted s ∧ trace s' = trace s ∧
  ∃ t, logs s' = logs s ++
         [{| log_timestamp := t; log_stepId := stepId;
             log_stepName := stepName; log_type := type;
             log_message := message |}].
Proof.
  unfold log. intros Hrun. inv_bind Hrun.
  apply now_inv in Hm as (Hl & Ha & Ht).
  unfold pushLog in Hrun. simplify_eq. simpl.
  split; [done|]. split; [done|]. exists a. by rewrite Hl.
Qed.

Lemma getAborted_inv s ab s' :
  getAborted s = Some (ab, s') → ab = aborted s ∧ s' = s.
Proof. unfold getAborted. intros Hrun. by simplify_eq. Qed.

Lemma getLogs_inv s l s' : getLogs s = Some (l, s') → l = logs s ∧ s' = s.
Proof. unfold getLogs. intros Hrun. by simplify_eq. Qed.

Section Grows.
Variable self : WorkflowExecutor W.

Lemma now_grows : Keeps grows (now (W := W)).
Proof.
  intros s t s' Hrun. apply now_inv in Hrun as (Hl & _).
  by apply grows_same.
Qed.

Lemma pushLog_grows entry : Keeps grows (pushLog self entry).
Proof.
  intros s u s' Hrun. unfold pushLog in Hrun. simplify_eq. by exists [entry].
Qed.

Lemma record_grows e : Keeps grows (record (W := W) e).
Proof.
  intros s u s' Hrun. unfold record in Hrun. simplify_eq. by apply grows_same.
Qed.

Lemma resume_grows : Keeps grows (resume (W := W)).
Proof.
  intros s u s' Hrun. unfold resume in Hrun.
  destruct (abortCalled (world s)) as [b w]. simplify_eq. by apply grows_same.
Qed.

Lemma sleep_grows ms : Keeps grows (sleep (W := W) ms).
Proof.
  intros s u s' Hrun. unfold sleep in Hrun. simplify_eq. by apply grows_same.
Qed.

Lemma agentRun_grows prompt maxTurns : Keeps grows (agentRun self prompt maxTurns).
Proof.
  intros s u s' Hrun. unfold agentRun in Hrun.
  destruct (runStepAgent (ctx self) prompt maxTurns (world s)) as [r w].
  simplify_eq. by apply grows_same.
Qed.

Lemma callAgent_grows stepId stepName prompt maxTurns :
  Keeps grows (callAgent self stepId stepName prompt maxTurns).
Proof.
  apply callAgent_keeps; intros;
    eauto using grows_refl, grows_trans, pushLog_grows, record_grows,
      resume_grows, agentRun_grows.
Qed.

Lemma walk_grows fuel cur v : Keeps grows (walk self fuel cur v).
Proof.
  apply walk_keeps; intros;
    eauto using grows_refl, grows_trans, now_grows, pushLog_grows, record_grows,
      resume_grows, sleep_grows, agentRun_grows.
Qed.

End Grows.

Lemma execute_empty_runs self s :
  missionMode self = false →
  wf_steps (workflow self) = [] →
  Runs (execute self) s
    (λ r s',
       res_success r = false ∧ res_error r = Some emptyError ∧
       res_stepsExecuted r = 0 ∧ res_lastStepId r = None ∧
       trace s' = trace s ∧ aborted s' = aborted s ∧
       res_logs r = logs s' ∧
       ∃ t, logs s' = logs s ++ [startEntry t (workflow self)]).
Proof.
  intros Hmode Hsteps.
  destruct (execute_total self s) as (r & s' & Hrun & _).
  exists r, s'. split; [exact Hrun|].
  unfold execute in Hrun. rewrite Hmode, Hsteps in Hrun.
  inv_bind Hrun. apply now_inv in Hm as (Hl0 & Ha0 & Ht0).
  inv_bind Hrun. apply log_inv in Hm as (Ha1 & Ht1 & t & Hl1).
  inv_bind Hrun. apply now_inv in Hm as (Hl2 & Ha2 & Ht2).
  inv_bind Hrun. apply getLogs_inv in Hm as [-> ->].
  inv_ret Hrun. simpl.
  repeat split; try congruence.
  exists t. unfold startEntry. congruence.
Qed.


(** X2.  [abort()] called before [execute()]: in step mode the run hands
    no step to the agent and returns [success = false] with the abort
    error, [stepsExecuted = 0] and no [lastStepId]; the log gets the
    opening entry and the entry of the failure.  The flag is still set
    afterwards (nothing resets it), so the same holds for every later
    [execute()] of that executor. *)
Theorem execute_after_abort self s (first : WorkflowStep)
    (rest : list WorkflowStep) :
  missionMode self = false →
  wf_steps (workflow self) = first :: rest →
  aborted s = true →
  Runs (execute self) s
    (λ r s',
       res_success r = false ∧ res_error r = Some abortError ∧
       res_stepsExecuted r = 0 ∧ res_lastStepId r = None ∧
       trace s' = trace s ∧ aborted s' = true ∧
       ∃ t0 t1,
         logs s' = logs s ++
           [startEntry t0 (workflow self);
            {| log_timestamp := t1; log_stepId := "workflow";
               log_stepName := wf_name (workflow self); log_type := LError;
               log_message := "워크플로우 실패: " +:+ abortError |}]).
Proof.
  intros Hmode Hsteps Hab.
  destruct (execute_total self s) as (r & s' & Hrun & _).
  exists r, s'. split; [exact Hrun|].
  unfold execute in Hrun. rewrite Hmode, Hsteps in Hrun.
  inv_bind Hrun. apply now_inv in Hm as (Hl0 & Ha0 & Ht0).
  inv_bind Hrun. apply log_inv in Hm as (Ha1 & Ht1 & t0 & Hl1).
  inv_bind Hrun.
  rewrite walk_aborted in Hm by congruence. simplify_eq.
  inv_bind Hrun. apply getAborted_inv in Hm as [-> ->].
  assert (Hab1 : aborted s2 = true) by congruence.
  rewrite Hab1 in Hrun. simpl in Hrun.
  inv_bind Hrun. apply now_inv in Hm as (Hl2 & Ha2 & Ht2).
  inv_bind Hrun. apply log_inv in Hm as (Ha3 & Ht3 & t1 & Hl3).
  inv_bind Hrun. apply getLogs_inv in Hm as [-> ->].
  inv_ret Hrun. simpl.
  repeat split; try congruence.
  exists t0, t1. rewrite Hl3, Hl2, Hl1, Hl0, <- app_assoc. reflexivity.
Qed.

(** X3.  [execute] only adds to the log: the entries that were there
    stay, the first one added is the opening entry, and the result holds
    the whole log.  Unless the workflow is empty (no mission, no steps),
    the last entry added tells the outcome: its type is [success] when
    the result has [success = true] and [error] otherwise, under the
    step id ["mission"] in mission mode and ["workflow"] in step mode. *)
Theorem execute_log self s :
  Runs (execute self) s
    (λ r s',
       res_logs r = logs s' ∧
       ∃ t rest,
         logs s' = logs s ++ startEntry t (workflow self) :: rest ∧
         (missionMode self = true ∨ wf_steps (workflow self) ≠ [] →
          ∃ before final,
            rest = before ++ [final] ∧
            log_stepId final =
              (if missionMode self then "mission" else "workflow") ∧
            log_type final = (if res_success r then LSuccess else LError))).
Proof.
  destruct (execute_total self s) as (r & s' & Hrun & _).
  exists r, s'. split; [exact Hrun|].
  unfold execute in Hrun.
  apply bind_inv in Hrun as (startTime & s1 & Hnow & Hrun).
  apply now_inv in Hnow as (Hl1 & _).
  apply bind_inv in Hrun as (u2 & s2 & Hlog & Hrun).
  apply log_inv in Hlog as (_ & _ & t & Hl2).
  fold (startEntry t (workflow self)) in Hl2. rewrite Hl1 in Hl2.
  destruct (missionMode self) eqn:Hmode.
  - unfold executeMission in Hrun.
    apply bind_inv in Hrun as (t3 & s3 & Hnow & Hrun).
    apply now_inv in Hnow as (Hl3 & _).
    apply bind_inv in Hrun as (u4 & s4 & Hlog & Hrun).
    apply log_inv in Hlog as (_ & _ & t4 & Hl4).
    apply bind_inv in Hrun as (u5 & s5 & Hlog & Hrun).
    apply log_inv in Hlog as (_ & _ & t5 & Hl5).
    apply bind_inv in Hrun as (reply & s6 & Hcall & Hrun).
    apply callAgent_grows in Hcall as [streamed Hl6].
    destruct reply as [success result|message];
      apply bind_inv in Hrun as (t7 & s7 & Hnow & Hrun);
      apply now_inv in Hnow as (Hl7 & _);
      apply bind_inv in Hrun as (u8 & s8 & Hlog & Hrun);
      apply log_inv in Hlog as (_ & _ & t8 & Hl8);
      apply bind_inv in Hrun as (l & s9 & Hget & Hrun);
      apply getLogs_inv in Hget as [-> ->];
      inv_ret Hrun; simpl; (split; [done|]);
      exists t; eexists; rewrite Hl8, Hl7, Hl6, Hl5, Hl4, Hl3, Hl2;
      rewrite <- !app_assoc; simpl; (split; [reflexivity|]); intros _;
      eexists (_ :: _ :: streamed), _; (split; [reflexivity|]); done.
  - destruct (wf_steps (workflow self)) as [|first others] eqn:Hsteps.
    + apply bind_inv in Hrun as (t3 & s3 & Hnow & Hrun).
      apply now_inv in Hnow as (Hl3 & _).
      apply bind_inv in Hrun as (l & s4 & Hget & Hrun).
      apply getLogs_inv in Hget as [-> ->].
      inv_ret Hrun. simpl. split; [done|].
      exists t, []. split; [congruence|]. intros [?|?]; done.
    + apply bind_inv in Hrun as (v & s3 & Hwalk & Hrun).
      apply walk_grows in Hwalk as [walked Hl3].
      apply bind_inv in Hrun as (ab & s4 & Hget & Hrun).
      apply getAborted_inv in Hget as [-> ->].
      apply bind_inv in Hrun as (t5 & s5 & Hnow & Hrun).
      apply now_inv in Hnow as (Hl5 & _).
      apply bind_inv in Hrun as (u6 & s6 & Hlog & Hrun).
      apply log_inv in Hlog as (_ & _ & t6 & Hl6).
      apply bind_inv in Hrun as (l & s7 & Hget & Hrun).
      apply getLogs_inv in Hget as [-> ->].
      inv_ret Hrun. simpl. split; [done|].
      exists t. eexists. rewrite Hl6, Hl5, Hl3, Hl2.
      rewrite <- !app_assoc. simpl. split; [reflexivity|]. intros _.
      eexists walked, _. split; [reflexivity|]. done.
Qed.

End ExecutorLog.

(** ** How a run in step mode ends *)

Section ExecutorOutcome.
Context {W : Type} `{!JsBuiltins} `{!Host W}.
Implicit Types (s : ExecState W) (self : WorkflowExecutor W).

Lemma attemptsFrom_app prompt maxTurns (k : nat) (a b : list bool) :
  attemptsFrom prompt maxTurns k (a ++ b) =
  attemptsFrom prompt maxTurns k a ++
  attemptsFrom prompt maxTurns (k + length a)%nat b.
Proof.
  revert k. induction a as [|x a IH]; intros k; simpl.
  - by rewrite Nat.add_0_r.
  - rewrite IH, <- app_assoc, Nat.add_succ_r. reflexivity.
Qed.

(** Attempts the last of which succeeded end with its agent call. *)
Lemma attemptsFrom_succeeded prompt maxTurns (k n : nat) :
  ∃ pre, attemptsFrom prompt maxTurns k (repeat false n ++ [true]) =
         pre ++ [EvAgent prompt maxTurns true].
Proof.
  rewrite attemptsFrom_app. simpl. eexists (_ ++ _).
  rewrite <- app_assoc. reflexivity.
Qed.

(** One turn of the loop of [execute], taken apart. *)
Lemma walk_inv self fuel cur v s v' s' :
  walk self fuel cur v s = Some (v', s') →
  ((cur = None ∨ aborted s = true) ∧ v' = v ∧ s' = s) ∨
  ∃ c fuel',
    cur = Some c ∧ fuel = S fuel' ∧ aborted s = false ∧
    ((50 < stepsExecuted v + 1 ∧ v' = stepped c (Some limitError) v ∧
      log self (st_id c) (st_name c) LError limitError s = Some ((), s')) ∨
     (stepsExecuted v + 1 ≤ 50 ∧
      ∃ s1 ok s2 s3,
        record (EvStep (st_id c)) s = Some ((), s1) ∧
        executeStepWithRetry self c s1 = Some (ok, s2) ∧
        resume s2 = Some ((), s3) ∧
        ((ok = false ∧ findNextStep self c false = None ∧
          v' = stepped c (Some stepFailureError) v ∧ s' = s3) ∨
         ((ok = true ∨ is_Some (findNextStep self c ok)) ∧
          walk self fuel' (findNextStep self c ok) (stepped c (error v) v) s3
            = Some (v', s'))))).
Proof.
  intros Hrun.
  destruct cur as [c|].
  2:{ left. destruct fuel; simpl in Hrun;
        apply bind_inv in Hrun as (ab & s0 & Hget & Hrun);
        apply getAborted_inv in Hget as [-> ->]; inv_ret Hrun; auto. }
  destruct (aborted s) eqn:Hab.
  { left. rewrite walk_aborted in Hrun by done. simplify_eq. auto. }
  right. destruct fuel as [|fuel'].
  { simpl in Hrun. apply bind_inv in Hrun as (ab & s0 & Hget & Hrun).
    apply getAborted_inv in Hget as [-> ->]. rewrite Hab in Hrun. done. }
  exists c, fuel'. split; [done|]. split; [done|]. split; [done|].
  simpl in Hrun. apply bind_inv in Hrun as (ab & s0 & Hget & Hrun).
  apply getAborted_inv in Hget as [-> ->]. rewrite Hab in Hrun.
  destruct (Z.ltb_spec 50 (stepsExecuted v + 1)) as [Hlim|Hok].
  - left. split; [done|].
    apply bind_inv in Hrun as ([] & s1 & Hlog & Hrun). inv_ret Hrun. done.
  - right. split; [done|].
    apply bind_inv in Hrun as ([] & s1 & Hrec & Hrun).
    apply bind_inv in Hrun as (ok & s2 & Hstep & Hrun).
    apply bind_inv in Hrun as ([] & s3 & Hres & Hrun).
    exists s1, ok, s2, s3. split; [done|]. split; [done|]. split; [done|].
    destruct ok; simpl in Hrun.
    + right. split; [by left | exact Hrun].
    + destruct (findNextStep self c false) as [next|] eqn:Hnext.
      * rewrite bool_decide_true in Hrun by eauto. simpl in Hrun.
        right. split; [right; eauto | exact Hrun].
      * rewrite bool_decide_false in Hrun by (intros [? ?]; done).
        simpl in Hrun. inv_ret Hrun. left. done.
Qed.

Lemma resume_inv s u s' :
  resume s = Some (u, s') →
  trace s' = trace s ∧ logs s' = logs s ∧ (aborted s = true → aborted s' = true).
Proof.
  unfold resume. destruct (abortCalled (world s)) as [b w]. intros Hrun.
  simplify_eq. simpl. split; [done|]. split; [done|]. by intros ->.
Qed.

Lemma record_inv e s u s' :
  record e s = Some (u, s') →
  trace s' = trace s ++ [e] ∧ logs s' = logs s ∧ aborted s' = aborted s.
Proof. unfold record. intros Hrun. by simplify_eq. Qed.

(** The walk sets no error but the two of its own; when it ends with
    none and the flag unset, the last thing it did was an agent call
    that succeeded. *)
Lemma walk_outcome self (fuel : nat) :
  ∀ cur v s v' s',
  walk self fuel cur v s = Some (v', s') →
  (error v' = error v ∨ error v' = Some limitError ∨
   error v' = Some stepFailureError) ∧
  (aborted s' = false → error v' = None →
     (cur = None ∧ v' = v ∧ s' = s) ∨
     (stepsExecuted v < stepsExecuted v' ≤ 50 ∧
      ∃ pre prompt maxTurns,
        trace s' = trace s ++ pre ++ [EvAgent prompt maxTurns true])).
Proof.
  induction fuel as [|fuel IH]; intros cur v s v' s' Hrun;
    apply walk_inv in Hrun
      as [([Hcur|Hab] & -> & ->)
         |(c & fuel' & -> & Hfuel & Hab &
           [(Hlim & -> & Hlog)
           |(Hok & s1 & ok & s2 & s3 & Hrec & Hstep & Hres &
             [(-> & Hnext & -> & ->)|(Hgo & Hrun)])])];
    try discriminate Hfuel; try (split; [auto|]; intros; auto; congruence).
  - split; [simpl; auto|]. simpl. intros _ Herr. discriminate Herr.
  - split; [simpl; auto|]. simpl. intros _ Herr. discriminate Herr.
  - injection Hfuel as <-.
    apply IH in Hrun as [Herr Hend]. simpl in Herr, Hend.
    split; [exact Herr|]. intros Hab' Hnone.
    apply record_inv in Hrec as (Htr1 & _).
    destruct (Runs_inv _ _ _ _ _ (executeStepWithRetry_runs self c s1) Hstep)
      as (outs & Htr2 & _ & _ & Hr).
    apply resume_inv in Hres as (Htr3 & _).
    right. destruct (Hend Hab' Hnone) as [(Hnext & -> & ->)|(Hcount & Hlast)].
    + simpl. split; [lia|].
      destruct Hgo as [->|[next Hsome]]; [|congruence].
      destruct Hr as [n ->].
      destruct (attemptsFrom_succeeded (st_prompt c)
                  (orDefault (st_maxTurns c) DEFAULT_MAX_TURNS) 0 n) as [pre Hpre].
      exists (EvStep (st_id c) :: pre), (st_prompt c),
        (orDefault (st_maxTurns c) DEFAULT_MAX_TURNS).
      rewrite Htr3, Htr2, Htr1, Hpre, <- !app_assoc. reflexivity.
    + simpl in Hcount. split; [lia|].
      destruct Hlast as (pre & prompt & maxTurns & Htr4).
      exists ((EvStep (st_id c) ::
                 attemptsFrom (st_prompt c)
                   (orDefault (st_maxTurns c) DEFAULT_MAX_TURNS) 0 outs) ++ pre),
        prompt, maxTurns.
      rewrite Htr4, Htr3, Htr2, Htr1, <- !app_assoc. reflexivity.
Qed.

(** What is left of [execute] in step mode once the walk is over. *)
Lemma execute_steps_inv self s r s' first others :
  missionMode self = false →
  wf_steps (workflow self) = first :: others →
  execute self s = Some (r, s') →
  ∃ s2 v s3,
    trace s2 = trace s ∧ aborted s2 = aborted s ∧
    walk self 51 (Some first)
      {| stepsExecuted := 0; lastStepId := None; error := None |} s2
      = Some (v, s3) ∧
    trace s' = trace s3 ∧ aborted s' = aborted s3 ∧
    res_stepsExecuted r = stepsExecuted v ∧
    res_lastStepId r = lastStepId v ∧
    res_error r = (if aborted s3 then Some abortError else error v) ∧
    res_success r =
      negb (truthyStr (if aborted s3 then Some abortError else error v)) &&
      negb (aborted s3).
Proof.
  intros Hmode Hsteps Hrun. unfold execute in Hrun.
  rewrite Hmode, Hsteps in Hrun.
  apply bind_inv in Hrun as (startTime & s1 & Hnow & Hrun).
  apply now_inv in Hnow as (_ & Ha1 & Ht1).
  apply bind_inv in Hrun as (u2 & s2 & Hlog & Hrun).
  apply log_inv in Hlog as (Ha2 & Ht2 & _).
  apply bind_inv in Hrun as (v & s3 & Hwalk & Hrun).
  apply bind_inv in Hrun as (ab & s4 & Hget & Hrun).
  apply getAborted_inv in Hget as [-> ->].
  apply bind_inv in Hrun as (t5 & s5 & Hnow & Hrun).
  apply now_inv in Hnow as (_ & Ha5 & Ht5).
  apply bind_inv in Hrun as (u6 & s6 & Hlog & Hrun).
  apply log_inv in Hlog as (Ha6 & Ht6 & _).
  apply bind_inv in Hrun as (l & s7 & Hget & Hrun).
  apply getLogs_inv in Hget as [-> ->].
  inv_ret Hrun.
  exists s2, v, s3.
  split; [congruence|]. split; [congruence|]. split; [exact Hwalk|].
  split; [congruence|]. split; [congruence|].
  cbn [res_stepsExecuted res_lastStepId res_error res_success].
  repeat split; reflexivity.
Qed.


(** X5.  In step mode, with a step to run, the result carries the abort
    error exactly when the flag [aborted] is set at the end of the run:
    an [abort()] that comes while the last step runs turns a run in which
    every step succeeded into a failure, and the abort error replaces
    the error of a failed step. *)
Theorem execute_aborted self s :
  missionMode self = false →
  wf_steps (workflow self) ≠ [] →
  Runs (execute self) s
    (λ r s',
       (aborted s' = true ↔ res_error r = Some abortError) ∧
       (aborted s' = true → res_success r = false)).
Proof.
  intros Hmode Hsteps.
  destruct (execute_total self s) as (r & s' & Hrun & _).
  exists r, s'. split; [exact Hrun|].
  destruct (wf_steps (workflow self)) as [|first others] eqn:Hlist; [done|].
  destruct (execute_steps_inv self s r s' first others Hmode Hlist Hrun)
    as (s2 & v & s3 & Ht2 & Ha2 & Hwalk & Ht3 & Ha3 & Hn & Hlast & Herr & Hok).
  apply walk_outcome in Hwalk as [Hkind _]. simpl in Hkind.
  rewrite Hok, Herr, Ha3.
  destruct (aborted s3); [done|].
  split; [|discriminate].
  split; [discriminate|].
  destruct Hkind as [-> | [-> | ->]]; discriminate.
Qed.

End ExecutorOutcome.

Lemma execute_aborted_witness :
  missionMode (Sim.executor Ex.twoSteps) = false ∧
  wf_steps (workflow (Sim.executor Ex.twoSteps)) ≠ [] ∧
  Runs (execute (Sim.executor Ex.twoSteps))
    (Sim.start (Sim.world0 0 [Sim.ok "x"; Sim.ok "y"] [false; false; true]))
    (λ r s', aborted s' = true ↔ res_error r = Some abortError).
Proof.
  assert (H1 : wf_steps (workflow (Sim.executor Ex.twoSteps)) ≠ [])
    by discriminate.
  split; [reflexivity|]. split; [exact H1|].
  eapply Runs_mono.
  - exact (execute_aborted (Sim.executor Ex.twoSteps)
             (Sim.start (Sim.world0 0 [Sim.ok "x"; Sim.ok "y"] [false; false; true]))
             eq_refl H1).
  - intros r s' [Hiff _]. exact Hiff.
Defined.

(** ** Which steps a run executes *)

Section ExecutorSteps.
Context {W : Type} `{!JsBuiltins} `{!Host W}.
Implicit Types (s : ExecState W) (self : WorkflowExecutor W).

Lemma findNextStep_elem self cur ok next :
  findNextStep self cur ok = Some next → next ∈ wf_steps (workflow self).
Proof.
  unfold findNextStep.
  destruct (String.eqb _ "end"); [done|].
  destruct (String.eqb _ "next").
  { destruct (findIndex _ _) as [i|]; [|done].
    destruct (_ >=? _); [done|]. apply list_elem_of_lookup_2. }
  destruct (String.eqb _ "retry"); [done|].
  intros Hfind.
  pose proof (findById_spec self (if ok then st_onSuccess cur else st_onFailure cur))
    as Hspec.
  rewrite Hfind in Hspec. by destruct Hspec.
Qed.

Lemma attemptsFrom_ofWorkflow steps c (k : nat) outs :
  c ∈ steps →
  Forall (ofWorkflow steps)
    (attemptsFrom (st_prompt c) (orDefault (st_maxTurns c) DEFAULT_MAX_TURNS)
       k outs).
Proof.
  intros Hc. revert k. induction outs as [|ok outs IH]; intros k; simpl.
  - constructor.
  - apply Forall_app. split.
    + destruct k; repeat constructor.
    + constructor; [by exists c | apply IH].
Qed.

(** X24.  Ids need not be distinct, and [findNextStep] goes by the first
    step that carries the id it looks for.  For ["next"] that is the
    first step with the id of the current step: the result is the step
    after that one (none if it is the last), even when the current step
    is a later one with the same id.  For a reference to an id the
    result is the first step with that id. *)
Theorem findNextStep_first_match self (step : WorkflowStep) (success : bool)
    (i : nat) (t : WorkflowStep) :
  let ref := if success then st_onSuccess step else st_onFailure step in
  let key := if String.eqb ref "next" then st_id step else ref in
  ref ≠ "end" → ref ≠ "retry" →
  wf_steps (workflow self) !! i = Some t →
  st_id t = key →
  (∀ j u, (j < i)%nat → wf_steps (workflow self) !! j = Some u → st_id u ≠ key) →
  findNextStep self step success =
    if String.eqb ref "next" then wf_steps (workflow self) !! S i else Some t.
Proof.
  intros ref key Hend Hretry Hi Hid Hfirst.
  assert (Hfind : list_find (λ x : WorkflowStep, st_id x = key)
                    (wf_steps (workflow self))
                  = Some (i, t)).
  { apply list_find_Some. split; [done|]. split; [done|].
    intros j u Hj Hlt. by apply (Hfirst j u). }
  unfold findNextStep. fold ref.
  apply String.eqb_neq in Hend, Hretry. rewrite Hend.
  subst key. destruct (String.eqb ref "next").
  - unfold findIndex. rewrite Hfind. simpl.
    destruct (Z.geb_spec (Z.of_nat i)
                (Z.of_nat (length (wf_steps (workflow self))) - 1)) as [Hge|Hlt];
      [|done].
    symmetry. apply lookup_ge_None. lia.
  - rewrite Hretry. unfold findById. by rewrite Hfind.
Qed.

(** The walk hands on steps of the workflow only, and leaves a step of
    the workflow as the last one. *)
Lemma walk_own_steps self (fuel : nat) :
  ∀ cur v s v' s',
  walk self fuel cur v s = Some (v', s') →
  (∀ c, cur = Some c → c ∈ wf_steps (workflow self)) →
  ∃ delta,
    trace s' = trace s ++ delta ∧
    Forall (ofWorkflow (wf_steps (workflow self))) delta ∧
    (lastStepId v' = lastStepId v ∨
     ∃ st, st ∈ wf_steps (workflow self) ∧ lastStepId v' = Some (st_id st)).
Proof.
  induction fuel as [|fuel IH]; intros cur v s v' s' Hrun Hcur;
    apply walk_inv in Hrun
      as [(_ & -> & ->)
         |(c & fuel' & -> & Hfuel & Hab &
           [(Hlim & -> & Hlog)
           |(Hok & s1 & ok & s2 & s3 & Hrec & Hstep & Hres &
             [(-> & Hnext & -> & ->)|(Hgo & Hrun)])])];
    try discriminate Hfuel;
    try (exists []; rewrite app_nil_r; split; [done|]; split; [constructor|];
         by left).
  - apply log_inv in Hlog as (_ & Htr & _).
    exists []. rewrite app_nil_r. split; [done|]. split; [constructor|].
    right. exists c. split; [by apply Hcur | done].
  - apply record_inv in Hrec as (Htr1 & _).
    destruct (Runs_inv _ _ _ _ _ (executeStepWithRetry_runs self c s1) Hstep)
      as (outs & Htr2 & _).
    apply resume_inv in Hres as (Htr3 & _).
    eexists. split; [rewrite Htr3, Htr2, Htr1, <- app_assoc; reflexivity|].
    split.
    + constructor; [exists c; split; [by apply Hcur | done]|].
      apply attemptsFrom_ofWorkflow. by apply Hcur.
    + right. exists c. split; [by apply Hcur | done].
  - injection Hfuel as <-.
    apply record_inv in Hrec as (Htr1 & _).
    destruct (Runs_inv _ _ _ _ _ (executeStepWithRetry_runs self c s1) Hstep)
      as (outs & Htr2 & _).
    apply resume_inv in Hres as (Htr3 & _).
    apply IH in Hrun as (delta & Htr4 & Hall & Hlast).
    2:{ intros n Hn. by apply findNextStep_elem in Hn. }
    eexists. split; [rewrite Htr4, Htr3, Htr2, Htr1, <- !app_assoc; reflexivity|].
    split.
    + simpl. constructor; [exists c; split; [by apply Hcur | done]|].
      apply Forall_app. split; [|exact Hall].
      apply attemptsFrom_ofWorkflow. by apply Hcur.
    + simpl in Hlast. destruct Hlast as [->|Hlast]; [|by right].
      right. exists c. split; [by apply Hcur | done].
Qed.


End ExecutorSteps.

(** ** The course of a run *)

Section ExecutorCourse.
Context {W : Type} `{!JsBuiltins} `{!Host W}.
Implicit Types (s : ExecState W) (self : WorkflowExecutor W).

Lemma succeeded_attempts (r : bool) (outs : list bool) :
  (if r then ∃ n, outs = repeat false n ++ [true]
   else outs = repeat false (length outs)) →
  succeeded outs = r.
Proof.
  unfold succeeded. destruct r.
  - intros [n ->]. by rewrite last_snoc.
  - intros ->. generalize (length outs) as n. intros n.
    induction n as [|n IH]; [done|].
    simpl. rewrite last_cons. by destruct (last (repeat false n)).
Qed.

Lemma traceOf_cons (a : WorkflowStep) (outs : list bool) (course : Course) :
  traceOf ((a, outs) :: course) =
  EvStep (st_id a) ::
  attemptsFrom (st_prompt a) (orDefault (st_maxTurns a) DEFAULT_MAX_TURNS) 0 outs
  ++ traceOf course.
Proof. reflexivity. Qed.

(** The walk runs a course that starts with the current step, goes from
    step to step by [findNextStep], and, unless the flag or the limit
    stops it, ends where [findNextStep] gives no step. *)
Lemma walk_course self (fuel : nat) :
  ∀ cur v s v' s',
  walk self fuel cur v s = Some (v', s') →
  error v = None →
  ∃ course,
    trace s' = trace s ++ traceOf course ∧
    followed self course ∧
    (∀ a outs rest, course = (a, outs) :: rest → cur = Some a) ∧
    (error v' = Some stepFailureError →
       endsWith self course false (lastStepId v')) ∧
    (error v' = None → aborted s' = false →
       (course = [] ∧ cur = None ∧ v' = v) ∨
       endsWith self course true (lastStepId v')).
Proof.
  induction fuel as [|fuel IH]; intros cur v s v' s' Hrun Hnone;
    apply walk_inv in Hrun
      as [([Hcur|Hab] & -> & ->)
         |(c & fuel' & -> & Hfuel & Hab &
           [(Hlim & -> & Hlog)
           |(Hok & s1 & ok & s2 & s3 & Hrec & Hstep & Hres &
             [(-> & Hnext & -> & ->)|(Hgo & Hrun)])])];
    try discriminate Hfuel;
    try (exists []; rewrite app_nil_r; split; [done|]; split; [done|];
         split; [done|]; split; [congruence|]; intros _ Hflag;
         first [left; done | congruence]).
  - apply log_inv in Hlog as (_ & Htr & _).
    exists []. rewrite app_nil_r. split; [done|]. split; [done|].
    split; [done|]. simpl. split; discriminate.
  - apply record_inv in Hrec as (Htr1 & _).
    destruct (Runs_inv _ _ _ _ _ (executeStepWithRetry_runs self c s1) Hstep)
      as (outs & Htr2 & _ & _ & Hr).
    apply resume_inv in Hres as (Htr3 & _).
    assert (Hout : succeeded outs = false).
    { apply succeeded_attempts. by destruct Hr. }
    exists [(c, outs)]. rewrite traceOf_cons. simpl. rewrite app_nil_r.
    split; [rewrite Htr3, Htr2, Htr1, <- app_assoc; done|].
    split; [done|]. split; [by intros a o rest [= <- _ _]|].
    split; [|discriminate].
    intros _. by exists c, outs.
  - injection Hfuel as <-.
    apply record_inv in Hrec as (Htr1 & _).
    destruct (Runs_inv _ _ _ _ _ (executeStepWithRetry_runs self c s1) Hstep)
      as (outs & Htr2 & _ & _ & Hr).
    apply resume_inv in Hres as (Htr3 & _).
    assert (Hout : succeeded outs = ok).
    { apply succeeded_attempts. destruct ok; [done | by destruct Hr]. }
    apply IH in Hrun as (course & Htr4 & Hpath & Hhead & Hfail & Hend);
      [|exact Hnone].
    exists ((c, outs) :: course). rewrite traceOf_cons.
    split; [rewrite Htr4, Htr3, Htr2, Htr1, <- !app_assoc; done|].
    split.
    { destruct course as [|[b o] rest]; [done|]. simpl.
      split; [|exact Hpath]. rewrite Hout. by apply (Hhead b o rest). }
    split; [by intros a o rest [= <- _ _]|].
    split.
    + intros Herr. destruct (Hfail Herr) as (a & o & Hlast & Hrest).
      exists a, o. split; [|exact Hrest].
      rewrite last_cons, Hlast. done.
    + intros Herr Hflag. right.
      destruct (Hend Herr Hflag)
        as [(-> & Hnext & ->)|(a & o & Hlast & Hrest)].
      * assert (ok = true) as ->.
        { destruct Hgo as [->|[n Hn]]; [done|congruence]. }
        exists c, outs. done.
      * exists a, o. split; [|exact Hrest]. rewrite last_cons, Hlast. done.
Qed.


End ExecutorCourse.

(** ** Runs in which nothing goes wrong *)

Section ExecutorChain.
Context {W : Type} `{!JsBuiltins} `{!Host W}.
Implicit Types (s : ExecState W).

Variable self : WorkflowExecutor W.
Hypothesis agent_succeeds : ∀ prompt maxTurns (w : W),
  replyOk (ar_reply (runStepAgent (ctx self) prompt maxTurns w).1) = true.
Hypothesis nobody_aborts : ∀ w : W, (abortCalled w).1 = false.

Lemma resume_calm s :
  Runs resume s (λ _ s', aborted s' = aborted s ∧ trace s' = trace s).
Proof.
  unfold Runs, resume. pose proof (nobody_aborts (world s)) as Hno.
  destruct (abortCalled (world s)) as [b w]. simpl in Hno. subst b.
  eexists _, _. split; [done|]. simpl. by rewrite orb_false_r.
Qed.

Lemma callAgent_calm stepId stepName prompt maxTurns s :
  Runs (callAgent self stepId stepName prompt maxTurns) s
    (λ r s', replyOk r = true ∧ aborted s' = aborted s ∧
             trace s' = trace s ++ [EvAgent prompt maxTurns true]).
Proof.
  unfold callAgent. apply Runs_bind.
  unfold Runs at 1, agentRun.
  pose proof (agent_succeeds prompt maxTurns (world s)) as Hok.
  destruct (runStepAgent (ctx self) prompt maxTurns (world s)) as [run w].
  simpl in Hok.
  eexists _, _. split; [done|].
  apply Runs_bind. eexists _, _. split; [done|].
  run_by (logStreamed_runs self). intros u1 s1 [Hab Htr].
  run_by (resume_calm). intros u2 s2 [Hab2 Htr2].
  apply Runs_ret. simpl in *. rewrite Hok in Htr.
  split; [done|]. split; congruence.
Qed.

Lemma executeStep_calm step s :
  Runs (executeStep self step) s
    (λ ok s', ok = true ∧ aborted s' = aborted s ∧
              trace s' = trace s ++
                [EvAgent (st_prompt step)
                   (orDefault (st_maxTurns step) DEFAULT_MAX_TURNS) true]).
Proof.
  unfold executeStep. run_by (log_runs self). intros u1 s1 [Hab Htr].
  run_by (callAgent_calm). intros r s2 (Hok & Hab2 & Htr2).
  destruct r as [[] result|message]; try discriminate Hok.
  run_by (log_runs self). intros u3 s3 [Hab3 Htr3].
  apply Runs_ret. split; [done|]. split; congruence.
Qed.

Lemma executeStepWithRetry_calm step s :
  0 ≤ orDefault (st_retryCount step) 0 →
  aborted s = false →
  Runs (executeStepWithRetry self step) s
    (λ ok s', ok = true ∧ aborted s' = false ∧
              trace s' = trace s ++
                [EvAgent (st_prompt step)
                   (orDefault (st_maxTurns step) DEFAULT_MAX_TURNS) true]).
Proof.
  intros Hretry Hab. unfold executeStepWithRetry.
  destruct (Z.to_nat (orDefault (st_retryCount step) 0 + 1)) as [|fuel] eqn:Hfuel;
    [lia|].
  simpl.
  replace (0 <=? orDefault (st_retryCount step) 0) with true
    by (symmetry; apply Z.leb_le; lia).
  apply Runs_bind, getAborted_runs. rewrite Hab.
  apply Runs_bind, Runs_ret.
  run_by (executeStep_calm). intros ok s1 (-> & Hab1 & Htr1).
  run_by (resume_calm). intros u2 s2 [Hab2 Htr2].
  apply Runs_ret. split; [done|]. split; congruence.
Qed.

Lemma findNextStep_chained before c after :
  wf_steps (workflow self) = before ++ c :: after →
  NoDup (st_id <$> wf_steps (workflow self)) →
  st_onSuccess c = "next" →
  findNextStep self c true = head after.
Proof.
  intros Hsteps Hnd Hnext. unfold findNextStep. rewrite Hnext. simpl.
  assert (Hc : wf_steps (workflow self) !! length before = Some c).
  { rewrite Hsteps. by apply list_lookup_middle. }
  rewrite (findIndex_unique self c (length before) Hnd Hc).
  rewrite Hsteps, length_app. simpl.
  destruct after as [|n after]; simpl.
  - replace (_ >=? _) with true; [done|].
    symmetry. apply Z.geb_le. lia.
  - replace (_ >=? _) with false
      by (symmetry; rewrite Z.geb_leb; apply Z.leb_gt; lia).
    rewrite (lookup_app_r before) by lia.
    by replace (S (length before) - length before)%nat with 1%nat by lia.
Qed.

(** The walk from a step of a chain runs that step and all after it. *)
Lemma walk_chain (after : list WorkflowStep) :
  ∀ (fuel : nat) before c v s,
  wf_steps (workflow self) = before ++ c :: after →
  NoDup (st_id <$> wf_steps (workflow self)) →
  Forall chained (c :: after) →
  stepsExecuted v = Z.of_nat (length before) →
  (length (wf_steps (workflow self)) ≤ 50)%nat →
  (length after < fuel)%nat →
  aborted s = false →
  Runs (walk self fuel (Some c) v) s
    (λ v' s',
       aborted s' = false ∧
       stepsExecuted v' = Z.of_nat (length (wf_steps (workflow self))) ∧
       lastStepId v' = Some (st_id (default c (last after))) ∧
       error v' = error v ∧
       trace s' = trace s ++ straightRun (c :: after)).
Proof.
  induction after as [|n after IH];
    intros fuel before c v s Hsteps Hnd Hall Hcount Hlen Hfuel Hab;
    (destruct fuel as [|fuel]; [simpl in Hfuel; lia|]);
    apply Forall_cons in Hall as [[Hnext Hretry] Hall];
    pose proof (findNextStep_chained before c _ Hsteps Hnd Hnext) as Hfind;
    simpl; apply Runs_bind, getAborted_runs; rewrite Hab;
    (replace (50 <? stepsExecuted v + 1) with false
       by (symmetry; apply Z.ltb_ge; rewrite Hsteps, length_app in Hlen;
           simpl in Hlen; lia));
    (run_by (record_runs (W := W)); intros u1 s1 [Hab1 Htr1]);
    (run_by (executeStepWithRetry_calm);
       [exact Hretry|congruence|]; intros ok s2 (-> & Hab2 & Htr2));
    (run_by (resume_calm); intros u3 s3 [Hab3 Htr3]);
    rewrite Hfind; simpl.
  - destruct fuel; simpl; apply Runs_bind, getAborted_runs, Runs_ret; simpl;
      (split; [congruence|]); (split; [rewrite Hsteps, length_app; simpl; lia|]);
      (split; [done|]); (split; [done|]);
      rewrite Htr3, Htr2, Htr1, <- app_assoc; reflexivity.
  - eapply Runs_mono.
    + apply (IH fuel (before ++ [c]) n); try done.
      * by rewrite <- app_assoc.
      * simpl. rewrite length_app. simpl. lia.
      * simpl in Hfuel. lia.
      * congruence.
    + intros v' s' (Hab4 & Hn4 & Hlast4 & Herr4 & Htr4).
      rewrite last_cons. simpl in *.
      split; [done|]. split; [done|]. split.
      * rewrite Hlast4. by destruct (last after).
      * split; [done|].
        rewrite Htr4, Htr3, Htr2, Htr1, <- !app_assoc. reflexivity.
Qed.

End ExecutorChain.

Section ExecutorRuns.
Context {W : Type} `{!JsBuiltins} `{!Host W}.
Implicit Types (s : ExecState W) (self : WorkflowExecutor W).


(** X8.  A step whose retry count ([retryCount || 0]) is negative is
    never attempted: [executeStepWithRetry] returns [false] at once and
    changes nothing, not even the log.  With a count that is not
    negative and the flag unset on entry, the agent is called at least
    once. *)
Theorem executeStepWithRetry_first_attempt self (step : WorkflowStep) s :
  let maxRetries := orDefault (st_retryCount step) 0 in
  (maxRetries < 0 → executeStepWithRetry self step s = Some (false, s)) ∧
  (0 ≤ maxRetries → aborted s = false →
   Runs (executeStepWithRetry self step) s
     (λ _ s', ∃ ok later,
        trace s' = trace s ++
          EvAgent (st_prompt step)
            (orDefault (st_maxTurns step) DEFAULT_MAX_TURNS) ok :: later)).
Proof.
  intros maxRetries. unfold executeStepWithRetry. fold maxRetries. split.
  - intros Hneg.
    replace (Z.to_nat (maxRetries + 1)) with 0%nat by lia. simpl.
    by replace (0 <=? maxRetries) with false by (symmetry; apply Z.leb_gt; lia).
  - intros Hpos Hab.
    destruct (Z.to_nat (maxRetries + 1)) as [|fuel] eqn:Hfuel; [lia|].
    simpl.
    replace (0 <=? maxRetries) with true by (symmetry; apply Z.leb_le; lia).
    apply Runs_bind, getAborted_runs. rewrite Hab.
    apply Runs_bind, Runs_ret.
    run_by (executeStep_runs self). intros ok s1 [Hab1 Htr1].
    run_by (resume_runs (W := W)). intros u2 s2 [Hab2 Htr2].
    destruct ok.
    + apply Runs_ret. exists true, []. congruence.
    + eapply Runs_mono;
        [apply (retryLoop_runs self step maxRetries fuel 1%nat); lia|].
      intros r s3 (outs & Htr3 & _). simpl in Htr3.
      eexists false, _. rewrite Htr3, Htr2, Htr1, <- app_assoc. reflexivity.
Qed.

End ExecutorRuns.


Lemma execute_after_abort_witness :
  missionMode (Sim.executor Ex.twoSteps) = false ∧
  wf_steps (workflow (Sim.executor Ex.twoSteps)) = [Ex.firstStep; Ex.secondStep] ∧
  aborted (abort (Sim.start (Sim.world0 0 [] []))) = true ∧
  Runs (execute (Sim.executor Ex.twoSteps)) (abort (Sim.start (Sim.world0 0 [] [])))
    (λ r s', res_error r = Some abortError ∧ res_stepsExecuted r = 0 ∧
             trace s' = []).
Proof.
  split; [reflexivity|]. split; [reflexivity|]. split; [reflexivity|].
  eapply Runs_mono.
  - exact (execute_after_abort (Sim.executor Ex.twoSteps)
             (abort (Sim.start (Sim.world0 0 [] [])))
             Ex.firstStep [Ex.secondStep] eq_refl eq_refl eq_refl).
  - intros r s' (_ & Herr & Hn & _ & Htr & _ & _). done.
Defined.

Lemma findNextStep_first_match_witness :
  wf_steps Cases.twins !! 0%nat = Some (Sim.step "a" "next" "end" None) ∧
  wf_steps Cases.twins !! 2%nat = Some Cases.again ∧
  findNextStep (Sim.executor Cases.twins) Cases.again true
    = Some (Sim.step "b" "next" "end" None).
Proof.
  split; [reflexivity|]. split; [reflexivity|].
  apply (findNextStep_first_match (Sim.executor Cases.twins) Cases.again true
           0%nat (Sim.step "a" "next" "end" None));
    [discriminate | discriminate | reflexivity | reflexivity | intros j u Hj; lia].
Defined.



Lemma executeStepWithRetry_first_attempt_witness :
  orDefault (st_retryCount (Sim.step "a" "next" "end" (Some (-1)))) 0 < 0 ∧
  executeStepWithRetry (Sim.executor Ex.twoSteps)
    (Sim.step "a" "next" "end" (Some (-1))) (Sim.start (Sim.world0 0 [] []))
  = Some (false, Sim.start (Sim.world0 0 [] [])) ∧
  Runs (executeStepWithRetry (Sim.executor Ex.twoSteps) Ex.firstStep)
    (Sim.start (Sim.world0 0 [] []))
    (λ _ s', ∃ ok later, trace s' = EvAgent "do a" 20 ok :: later).
Proof.
  assert (Hneg : orDefault (st_retryCount (Sim.step "a" "next" "end" (Some (-1)))) 0
                 < 0) by (simpl; lia).
  split; [exact Hneg|]. split.
  - exact (proj1 (executeStepWithRetry_first_attempt (Sim.executor Ex.twoSteps)
                    (Sim.step "a" "next" "end" (Some (-1)))
                    (Sim.start (Sim.world0 0 [] []))) Hneg).
  - apply (proj2 (executeStepWithRetry_first_attempt (Sim.executor Ex.twoSteps)
                    Ex.firstStep (Sim.start (Sim.world0 0 [] []))));
      [simpl; lia | reflexivity].
Defined.

(** ** Storage: identifiers *)

Section Identifiers.

Lemma app_cons_l (c : ascii) (s t : string) :
  String c s +:+ t = String c (s +:+ t).
Proof. reflexivity. Qed.

Lemma string_app_assoc (a b c : string) : (a +:+ b) +:+ c = a +:+ (b +:+ c).
Proof.
  induction a as [|x a IH]; [reflexivity|].
  rewrite !app_cons_l. by rewrite IH.
Qed.

Lemma string_length_app (a b : string) :
  String.length (a +:+ b) = (String.length a + String.length b)%nat.
Proof.
  induction a as [|x a IH]; [reflexivity|].
  rewrite app_cons_l. simpl. by rewrite IH.
Qed.

(** A common ending can be taken off. *)
Lemma string_app_inv_tail (a b t : string) : a +:+ t = b +:+ t → a = b.
Proof.
  revert b. induction a as [|x a IH]; intros [|y b] Heq.
  - reflexivity.
  - apply (f_equal String.length) in Heq.
    rewrite !string_length_app in Heq. simpl in Heq. lia.
  - apply (f_equal String.length) in Heq.
    rewrite !string_length_app in Heq. simpl in Heq. lia.
  - rewrite !app_cons_l in Heq. injection Heq as -> Heq. f_equal. by apply IH.
Qed.

Lemma dashFree_app (a b : string) :
  dashFree (a +:+ b) = dashFree a && dashFree b.
Proof.
  induction a as [|x a IH]; [reflexivity|].
  rewrite app_cons_l. simpl. by rewrite IH, andb_assoc.
Qed.

Lemma pretty_N_char_dashFree (x : N) :
  Ascii.eqb (pretty_N_char x) "-" = false.
Proof. unfold pretty_N_char. by repeat case_match. Qed.

Lemma pretty_N_go_dashFree (x : N) :
  ∀ s, ∃ d, pretty_N_go x s = d +:+ s ∧ dashFree d = true.
Proof.
  induction (N.lt_wf_0 x) as [x _ IH]. intros s.
  destruct (decide (x = 0)%N) as [->|Hpos].
  - exists "". by rewrite pretty_N_go_0.
  - rewrite pretty_N_go_step by lia.
    destruct (IH (x `div` 10)%N) with (s := String (pretty_N_char (x `mod` 10)) s)
      as (d & -> & Hd).
    { apply N.div_lt; lia. }
    exists (d +:+ String (pretty_N_char (x `mod` 10)) "").
    split; [by rewrite string_app_assoc|].
    rewrite dashFree_app, Hd. simpl. by rewrite pretty_N_char_dashFree.
Qed.

(** The decimal text of a number that is not negative has no dash. *)
Lemma pretty_Z_dashFree (z : Z) : 0 ≤ z → dashFree (pretty z) = true.
Proof.
  intros Hz. destruct z as [|p|p]; [reflexivity| |lia].
  unfold pretty, pretty_Z, pretty, pretty_positive, pretty, pretty_N.
  rewrite decide_False by done.
  destruct (pretty_N_go_dashFree (N.pos p) "") as (d & -> & Hd).
  by rewrite dashFree_app, Hd.
Qed.

(** Texts without a dash, each followed by a dash and more, are equal
    only part by part. *)
Lemma dash_separates (d1 d2 r1 r2 : string) :
  dashFree d1 = true → dashFree d2 = true →
  d1 +:+ "-" +:+ r1 = d2 +:+ "-" +:+ r2 → d1 = d2 ∧ r1 = r2.
Proof.
  revert d2. induction d1 as [|x d1 IH]; intros [|y d2] H1 H2 Heq.
  - change ("-" +:+ r1 = "-" +:+ r2) in Heq. split; [done|].
    by apply (inj (String.app "-")) in Heq.
  - rewrite app_cons_l in Heq. injection Heq as <- _.
    simpl in H2. discriminate H2.
  - rewrite app_cons_l in Heq. injection Heq as -> _.
    simpl in H1. discriminate H1.
  - rewrite !app_cons_l in Heq. injection Heq as -> Heq.
    simpl in H1, H2. apply andb_true_iff in H1 as [_ H1].
    apply andb_true_iff in H2 as [_ H2].
    destruct (IH d2 H1 H2 Heq) as [-> ->]. done.
Qed.

End Identifiers.

(** ** Storage: creating, importing, listing *)

Section StorageMoreFacts.
Context {W : Type} `{!JsBuiltins} `{!Host W}.

Lemma generateWorkflowId_text (w : W) :
  (generateWorkflowId w).1 =
  "wf-" +:+ pretty (Date_now w).1 +:+ "-" +:+ (Math_random36 (Date_now w).2).1.
Proof.
  unfold generateWorkflowId. destruct (Date_now w) as [t w1]. simpl.
  by destruct (Math_random36 w1) as [r w2].
Qed.

(** X9.  Two ids made by [generateWorkflowId] (at clock readings that are
    not negative) are equal only if the clock read the same millisecond
    and the random text came out the same: ids generated at different
    readings of the clock differ, whatever the random part. *)
Theorem generateWorkflowId_distinct (w w' : W) :
  0 ≤ (Date_now w).1 → 0 ≤ (Date_now w').1 →
  (generateWorkflowId w).1 = (generateWorkflowId w').1 ↔
  (Date_now w).1 = (Date_now w').1 ∧
  (Math_random36 (Date_now w).2).1 = (Math_random36 (Date_now w').2).1.
Proof.
  intros Ht Ht'. rewrite !generateWorkflowId_text. split.
  - intros Heq. apply (inj (String.app "wf-")) in Heq.
    apply dash_separates in Heq as [Hclock Hrandom];
      [|by apply pretty_Z_dashFree..].
    split; [by apply (inj pretty) in Hclock | done].
  - by intros [-> ->].
Qed.

Lemma lookupProp_assignProp_eq k v props :
  lookupProp k (assignProp k v props) = Some v.
Proof.
  induction props as [|[k' v'] props IH]; simpl.
  - by rewrite String.eqb_refl.
  - destruct (String.eqb k k') eqn:E; simpl; [by rewrite String.eqb_refl|].
    by rewrite E.
Qed.

Lemma lookupProp_assignProp_ne k k' v props :
  k' ≠ k → lookupProp k' (assignProp k v props) = lookupProp k' props.
Proof.
  intros Hne. induction props as [|[k0 v0] props IH]; simpl.
  - apply String.eqb_neq in Hne. by rewrite Hne.
  - destruct (String.eqb k k0) eqn:E; simpl.
    + apply String.eqb_eq in E as <-.
      apply String.eqb_neq in Hne. by rewrite Hne.
    + by rewrite IH.
Qed.

(** X10.  What [importWorkflow] accepts it returns as it was parsed, but
    for three properties: [id] is a newly generated id, [createdAt] and
    [updatedAt] are the current time.  Every other property of the
    parsed object, known to [Workflow] or not, is returned unchanged
    (so are [enabled] and a [schedule] with its [nextRun]). *)
Theorem importWorkflow_keeps (text : string) (w : W) (imported : json) (w' : W) :
  importWorkflow text w = (Some imported, w') →
  ∃ props,
    JSON_parse text = Some (JObj props) ∧
    getProp "id" imported = Some (JStr (generateWorkflowId (Date_now w).2).1) ∧
    getProp "createdAt" imported = Some (JNum (Date_now w).1) ∧
    getProp "updatedAt" imported = Some (JNum (Date_now w).1) ∧
    ∀ k, k ≠ "id" → k ≠ "createdAt" → k ≠ "updatedAt" →
         getProp k imported = lookupProp k props.
Proof.
  intros Himport.
  destruct (JSON_parse text) as [v|] eqn:Hparse.
  2:{ unfold importWorkflow in Himport. rewrite Hparse in Himport. done. }
  destruct (importable v) eqn:Hok.
  2:{ pose proof (proj2 (importWorkflow_rejects text w)) as Hrej.
      rewrite Himport in Hrej. simpl in Hrej.
      discriminate Hrej. right. by exists v. }
  rewrite (importWorkflow_accepts text v w Hparse Hok) in Himport.
  injection Himport as <- _.
  unfold importable in Hok. apply andb_true_iff in Hok as [Hname _].
  destruct v as [| | | | |props]; try discriminate Hname.
  exists props. split; [done|]. simpl.
  split.
  { rewrite !lookupProp_assignProp_ne by done.
    apply lookupProp_assignProp_eq. }
  split.
  { rewrite lookupProp_assignProp_ne by done.
    apply lookupProp_assignProp_eq. }
  split; [apply lookupProp_assignProp_eq|].
  intros k Hid Hcreated Hupdated.
  by rewrite !lookupProp_assignProp_ne.
Qed.

Lemma newerFirst_total : Total newerFirst.
Proof. intros a b. unfold newerFirst. lia. Qed.

Lemma newerFirst_trans : Transitive newerFirst.
Proof. intros a b c. unfold newerFirst. lia. Qed.

Lemma loadWorkflows_stored (st : gmap string Workflow) x :
  x ∈ loadWorkflows st → ∃ k, st !! k = Some x.
Proof.
  unfold loadWorkflows. rewrite merge_sort_Permutation.
  intros Hx. apply list_elem_of_fmap in Hx as ([k v] & -> & Hkv).
  exists k. by apply elem_of_map_to_list in Hkv.
Qed.

(** X11.  [loadWorkflows] lists every stored workflow once, the one with
    the latest [updatedAt] first.  So a workflow that [saveWorkflow] has
    just stamped with a time later than that of every other file comes
    first in the list. *)
Theorem loadWorkflows_newest_first (store : gmap string Workflow) :
  Sorted newerFirst (loadWorkflows store) ∧
  loadWorkflows store ≡ₚ (map_to_list store).*2 ∧
  ∀ (workflow : Workflow) (w : W),
    (∀ k v, store !! k = Some v → k ≠ wf_id workflow →
            wf_updatedAt v < (Date_now w).1) →
    head (loadWorkflows (saveWorkflow workflow store w).1.2) =
      Some (saveWorkflow workflow store w).1.1 ∧
    (saveWorkflow workflow store w).1.1 = withUpdatedAt (Date_now w).1 workflow.
Proof.
  pose proof newerFirst_total as Htotal.
  pose proof newerFirst_trans as Htrans.
  split; [by apply Sorted_merge_sort|].
  split; [apply merge_sort_Permutation|].
  intros workflow w Holder.
  rewrite saveWorkflow_store.
  assert (Hsaved : (saveWorkflow workflow store w).1.1
                   = withUpdatedAt (Date_now w).1 workflow).
  { unfold saveWorkflow. by destruct (Date_now w). }
  rewrite Hsaved. split; [|done].
  set (t := (Date_now w).1) in *.
  set (saved := withUpdatedAt t workflow).
  set (store' := <[wf_id workflow := saved]> store).
  assert (Hin : saved ∈ loadWorkflows store').
  { apply loadWorkflows_elem. subst store'. simpl. by rewrite lookup_insert_eq. }
  pose proof (StronglySorted_merge_sort newerFirst (snd <$> map_to_list store'))
    as Hsorted.
  fold (loadWorkflows store') in Hsorted.
  assert (Hmem : ∀ x, x ∈ loadWorkflows store' → x = saved ∨ wf_updatedAt x < t).
  { intros x Hx. apply loadWorkflows_stored in Hx as [k Hk].
    subst store'. rewrite lookup_insert in Hk.
    case_decide; [left; congruence|right]. eapply Holder; eauto. }
  destruct (loadWorkflows store') as [|h tl]; [by apply elem_of_nil in Hin|].
  simpl. f_equal.
  destruct (Hmem h) as [->|Hlt]; [left|done|].
  apply elem_of_cons in Hin as [->|Hin]; [done|].
  apply StronglySorted_inv in Hsorted as [_ Hall].
  rewrite Forall_forall in Hall. apply Hall in Hin.
  unfold newerFirst in Hin. simpl in Hin. lia.
Qed.


End StorageMoreFacts.

(** ** Storage: the files *)

Section FilesFacts.
Context {W : Type} `{!JsBuiltins} `{!Host W}.
Implicit Types (d : Files.Dir).

Lemma getWorkflowPath_inj id id' :
  Files.getWorkflowPath id = Files.getWorkflowPath id' → id = id'.
Proof. apply string_app_inv_tail. Qed.

(** [loadWorkflow] depends on the text of the one file only. *)
Lemma loadWorkflow_read id d :
  Files.loadWorkflow id d =
  match Files.readFileSync (Files.getWorkflowPath id) d ≫= JSON_parse with
  | Some JNull => None
  | r => r
  end.
Proof.
  unfold Files.loadWorkflow, Files.existsSync.
  destruct (Files.readFileSync _ d) as [content|]; reflexivity.
Qed.

Lemma readFileSync_write name content d :
  Files.readFileSync name
    (Files.writeFileSync name content (Files.ensureWorkflowsDir d)) = Some content.
Proof. destruct d as [files|]; simpl; by rewrite lookup_insert_eq. Qed.

Lemma readFileSync_write_ne name name' content d :
  name' ≠ name →
  Files.readFileSync name'
    (Files.writeFileSync name content (Files.ensureWorkflowsDir d))
  = Files.readFileSync name' d.
Proof.
  intros Hne. destruct d as [files|]; simpl; by rewrite lookup_insert_ne.
Qed.

(** X13.  [saveWorkflow] followed by [loadWorkflow] of the same id gives
    back the workflow saved, with the [updatedAt] that [saveWorkflow]
    stamped, whatever the file held before and also when the directory
    did not exist (the runtime reading back what it wrote: [JSON.parse]
    of the text of [JSON.stringify]).  [loadWorkflow] of any other id
    gives what it gave before. *)
Theorem saveWorkflow_loadWorkflow (workflow : Workflow) d (w : W) :
  let saved := (Files.saveWorkflow workflow d w).1.1 in
  let d' := (Files.saveWorkflow workflow d w).1.2 in
  JSON_parse (JSON_stringify2 (toJson saved)) = Some (toJson saved) →
  saved = withUpdatedAt (Date_now w).1 workflow ∧
  Files.loadWorkflow (wf_id workflow) d' = Some (toJson saved) ∧
  ∀ id, id ≠ wf_id workflow →
        Files.loadWorkflow id d' = Files.loadWorkflow id d.
Proof.
  unfold Files.saveWorkflow. destruct (Date_now w) as [t w1]. simpl.
  intros Hparse. split; [done|]. split.
  - rewrite loadWorkflow_read, readFileSync_write. simpl. by rewrite Hparse.
  - intros id Hid. rewrite !loadWorkflow_read, readFileSync_write_ne; [done|].
    intros Heq. by apply getWorkflowPath_inj in Heq.
Qed.

(** X14.  [deleteWorkflow] returns [true] exactly when the file of the id
    existed (even a file whose text [loadWorkflow] cannot read) and the
    file system let [unlinkSync] remove it.  When it returns [false],
    because there was no such file or because [unlinkSync] threw,
    nothing has changed: a file that could not be removed is still
    there and [loadWorkflow] gives what it gave.  After it returned
    [true], [loadWorkflow] of the id gives [null] and deleting again
    returns [false].  The file of no other id is touched. *)
Theorem deleteWorkflow_removes (refused : string → bool) (id : string) d :
  let deleted := (Files.deleteWorkflow refused id d).1 in
  let d' := (Files.deleteWorkflow refused id d).2 in
  (deleted = true ↔
     is_Some (Files.readFileSync (Files.getWorkflowPath id) d) ∧
     refused (Files.getWorkflowPath id) = false) ∧
  (deleted = false → d' = d) ∧
  (deleted = true →
     Files.loadWorkflow id d' = None ∧
     ∀ refused', (Files.deleteWorkflow refused' id d').1 = false) ∧
  ∀ other, other ≠ id → Files.loadWorkflow other d' = Files.loadWorkflow other d.
Proof.
  simpl. unfold Files.deleteWorkflow, Files.unlinkSync, Files.existsSync.
  destruct (Files.readFileSync (Files.getWorkflowPath id) d) as [content|] eqn:Hread.
  - rewrite bool_decide_true by eauto. simpl.
    destruct (refused (Files.getWorkflowPath id)); simpl.
    { split; [split; [done | by intros [_ ?]]|]. done. }
    assert (Hgone : Files.readFileSync (Files.getWorkflowPath id)
                      ((λ files, delete (Files.getWorkflowPath id) files) <$> d)
                    = None).
    { destruct d as [files|]; simpl; [apply lookup_delete_eq | done]. }
    split; [split; eauto|]. split; [done|]. split.
    + intros _. split; [by rewrite loadWorkflow_read, Hgone|].
      intros refused'. rewrite Hgone.
      by rewrite bool_decide_false by (intros [? ?]; done).
    + intros other Hother. rewrite !loadWorkflow_read.
      replace (Files.readFileSync (Files.getWorkflowPath other)
                 ((λ files, delete (Files.getWorkflowPath id) files) <$> d))
        with (Files.readFileSync (Files.getWorkflowPath other) d); [done|].
      destruct d as [files|]; simpl; [|done].
      rewrite lookup_delete_ne; [done|].
      intros Heq. by apply getWorkflowPath_inj in Heq.
  - rewrite bool_decide_false by (intros [? ?]; done). simpl.
    split; [split; [done | by intros [[? ?] _]]|]. done.
Qed.

End FilesFacts.

(** A file that the file system does not let go: [deleteWorkflow]
    returns [false] and the workflow can still be loaded; once the file
    system lets it go, the file is removed. *)
Lemma deleteWorkflow_removes_witness :
  let d : Files.Dir := Some {[ "wf-3.json" := exportWorkflow Ex.overdue ]} in
  ((Files.deleteWorkflow (λ _, true) "wf-3" d).1 = true ↔
     is_Some (Files.readFileSync "wf-3.json" d) ∧ true = false) ∧
  Files.deleteWorkflow (λ _, true) "wf-3" d = (false, d) ∧
  is_Some (Files.loadWorkflow "wf-3" d) ∧
  Files.deleteWorkflow (λ _, false) "wf-3" d = (true, Some ∅).
Proof.
  intros d.
  destruct (deleteWorkflow_removes (λ _, true) "wf-3" d)
    as (Hiff & _).
  split; [exact Hiff|].
  split; [reflexivity|]. split; [vm_compute; eauto|]. reflexivity.
Defined.

Lemma generateWorkflowId_distinct_witness :
  0 ≤ (Date_now (Sim.world0 5 [] [])).1 ∧
  0 ≤ (Date_now (Sim.world0 6 [] [])).1 ∧
  (generateWorkflowId (Sim.world0 5 [] [])).1 ≠
  (generateWorkflowId (Sim.world0 6 [] [])).1.
Proof.
  assert (H5 : 0 ≤ (Date_now (Sim.world0 5 [] [])).1) by (simpl; lia).
  assert (H6 : 0 ≤ (Date_now (Sim.world0 6 [] [])).1) by (simpl; lia).
  split; [exact H5|]. split; [exact H6|].
  intros Heq.
  apply (generateWorkflowId_distinct (Sim.world0 5 [] []) (Sim.world0 6 [] [])
           H5 H6) in Heq as [Hclock _].
  simpl in Hclock. lia.
Defined.

Lemma importWorkflow_keeps_witness :
  ∃ imported w',
    importWorkflow (exportWorkflow Ex.overdue) (Sim.world0 5 [] [])
      = (Some imported, w') ∧
    getProp "id" imported = Some (JStr "wf-6-k3x9q0z7a") ∧
    getProp "schedule" imported = getProp "schedule" (toJson Ex.overdue) ∧
    getProp "enabled" imported = Some (JBool true).
Proof.
  assert (Himport : importWorkflow (exportWorkflow Ex.overdue) (Sim.world0 5 [] [])
    = (Some (toJson (withIdentity "wf-6-k3x9q0z7a" "poll" 5 5 Ex.overdue)),
       Sim.world0 7 [] [])) by (vm_compute; reflexivity).
  eexists _, _. split; [exact Himport|].
  destruct (importWorkflow_keeps _ _ _ _ Himport)
    as (props & Hparse & Hid & _ & _ & Hrest).
  split; [exact Hid|]. split.
  - rewrite (Hrest "schedule") by discriminate.
    assert (Hsame : JSON_parse (exportWorkflow Ex.overdue) = Some (toJson Ex.overdue))
      by (vm_compute; reflexivity).
    rewrite Hsame in Hparse. injection Hparse as <-. reflexivity.
  - reflexivity.
Defined.

Lemma loadWorkflows_newest_first_witness :
  (∀ k v, Ex.overdueStore !! k = Some v → k ≠ wf_id Ex.twoSteps →
          wf_updatedAt v < (Date_now (Sim.world0 3000 [] [])).1) ∧
  head (loadWorkflows
          (saveWorkflow Ex.twoSteps Ex.overdueStore (Sim.world0 3000 [] [])).1.2)
  = Some (withUpdatedAt 3000 Ex.twoSteps).
Proof.
  assert (Holder : ∀ k v, Ex.overdueStore !! k = Some v → k ≠ wf_id Ex.twoSteps →
                          wf_updatedAt v < (Date_now (Sim.world0 3000 [] [])).1).
  { intros k v Hkv _. unfold Ex.overdueStore in Hkv.
    apply lookup_singleton_Some in Hkv as [_ <-]. simpl. lia. }
  split; [exact Holder|].
  destruct (loadWorkflows_newest_first (W := Sim.World) Ex.overdueStore)
    as (_ & _ & Hfirst).
  destruct (Hfirst Ex.twoSteps (Sim.world0 3000 [] []) Holder) as [Hhead _].
  exact Hhead.
Defined.

Lemma saveWorkflow_loadWorkflow_witness :
  let saved := (Files.saveWorkflow Ex.twoSteps None (Sim.world0 5 [] [])).1.1 in
  JSON_parse (JSON_stringify2 (toJson saved)) = Some (toJson saved) ∧
  saved = withUpdatedAt 5 Ex.twoSteps ∧
  Files.loadWorkflow "wf-1"
    (Files.saveWorkflow Ex.twoSteps None (Sim.world0 5 [] [])).1.2
  = Some (toJson saved).
Proof.
  intros saved.
  assert (Hparse : JSON_parse (JSON_stringify2 (toJson saved)) = Some (toJson saved))
    by (vm_compute; reflexivity).
  split; [exact Hparse|].
  destruct (saveWorkflow_loadWorkflow Ex.twoSteps None (Sim.world0 5 [] []) Hparse)
    as (Hsaved & Hload & _).
  split; [exact Hsaved | exact Hload].
Defined.

(** ** The scheduler: what a tick runs and what it writes *)

Section SchedulerMore.
Import Scheduler.
Context {W : Type} `{!JsBuiltins} `{!Host W}.
Variable cb : SchedulerCallbacks W.
Implicit Types (s : SchedState W) (w x : Workflow).

(** One turn of the loop calls [onWorkflowRun] on its workflow if that
    is due, and on nothing else. *)
Lemma checkOne_calls now x s :
  (invoked (checkOne cb now x s)).*1 =
  (invoked s).*1 ++ (if isDue x now then [x] else []).
Proof.
  unfold checkOne, isDue.
  destruct (wf_schedule x) as [schedule|]; [|by rewrite app_nil_r].
  destruct (sc_enabled schedule); [|by rewrite app_nil_r].
  destruct (wf_enabled x); [|by rewrite app_nil_r].
  destruct (truthyNum (sc_nextRun schedule)); simpl.
  - destruct (default 0 (sc_nextRun schedule) <=? now); [|by rewrite app_nil_r].
    destruct (onWorkflowRun cb x _) as [outcome w2].
    destruct outcome as [|message].
    + destruct (calculateNextRun _ w2) as [r w3].
      destruct (saveWorkflow _ (store s) w3) as [[x' st'] w4]. simpl.
      by rewrite fmap_app.
    + simpl. by rewrite fmap_app.
  - destruct (calculateNextRun x (world s)) as [r w1].
    destruct (saveWorkflow _ (store s) w1) as [[x' st'] w2]. simpl.
    by rewrite app_nil_r.
Qed.

Lemma pass_calls now (l : list Workflow) :
  ∀ s, (invoked (pass cb now s l)).*1 =
       (invoked s).*1 ++ filter (λ x, isDue x now = true) l.
Proof.
  induction l as [|x l IH]; intros s.
  - simpl. by rewrite app_nil_r.
  - rewrite pass_cons, IH, checkOne_calls, filter_cons, <- app_assoc.
    destruct (isDue x now).
    + by rewrite decide_True.
    + by rewrite decide_False.
Qed.

Lemma checkSchedules_calls s :
  (invoked (checkSchedules (Some cb) s)).*1 =
  (invoked s).*1 ++
  filter (λ x, isDue x (Date_now (world s)).1 = true) (loadWorkflows (store s)).
Proof.
  unfold checkSchedules. destruct (Date_now (world s)) as [now w1]. simpl.
  apply (pass_calls now (loadWorkflows (store s))
           {| world := w1; store := store s; invoked := invoked s |}).
Qed.

(** X15.  A tick of [checkSchedules] calls [onWorkflowRun] on exactly
    the stored workflows that are due at the time it reads (enabled,
    schedule enabled, [nextRun] set and not later than that time), each
    once, in the order of [loadWorkflows] (latest [updatedAt] first),
    whether the runs before it in the tick returned or raised: never on
    a disabled workflow, on one without a [nextRun], or on one whose
    [nextRun] is still to come.  The world goes through these calls of
    [onWorkflowRun], each applied to the world as the turns before it
    left it, and through no others; besides them it moves by readings
    of the clock and lines given to [onLog] only.  The tick records
    each call with the way it settled. *)
Theorem checkSchedules_runs_due s :
  let s' := checkSchedules (Some cb) s in
  ∃ calls : list (Workflow * RunOutcome),
    invoked s' = invoked s ++ calls ∧
    calls.*1 =
      filter (λ x, isDue x (Date_now (world s)).1 = true)
        (loadWorkflows (store s)) ∧
    ran cb calls (world s) (world s').
Proof.
  intros s'. subst s'.
  destruct (checkSchedules_ran cb s) as (calls & Hinv & Hran).
  exists calls. split; [exact Hinv|]. split; [|exact Hran].
  pose proof (checkSchedules_calls s) as Hcalls.
  rewrite Hinv, fmap_app in Hcalls.
  by apply app_inv_head in Hcalls.
Qed.

Lemma sameDefinition_refl x : sameDefinition x x.
Proof.
  unfold sameDefinition. repeat split.
  destruct (wf_schedule x); constructor. by repeat split.
Qed.

Lemma sameDefinition_trans x y z :
  sameDefinition x y → sameDefinition y z → sameDefinition x z.
Proof.
  unfold sameDefinition.
  intros (? & ? & ? & ? & ? & ? & ? & ? & Hxy) (? & ? & ? & ? & ? & ? & ? & ? & Hyz).
  repeat split; try congruence.
  destruct Hxy as [c c' Hc|]; inversion Hyz as [c1 c'' Hc'|]; subst;
    constructor.
  unfold sameSchedule in *. intuition congruence.
Qed.

(** What [checkSchedules] writes for [x] is [x] with another
    [lastRun], [nextRun] or [updatedAt]. *)
Lemma sameDefinition_written x c c' t :
  wf_schedule x = Some c → sameSchedule c c' →
  sameDefinition x (withUpdatedAt t (withSchedule c' x)).
Proof.
  intros Hsched Hsame. unfold sameDefinition. simpl. rewrite Hsched.
  repeat split. by constructor.
Qed.

Lemma insert_sameFiles (st0 st : gmap string Workflow) x x' :
  st0 !! wf_id x = Some x → sameDefinition x x' → sameFiles st0 st →
  sameFiles st0 (<[wf_id x := x']> st).
Proof.
  intros H0 Hsame Hfiles k. rewrite lookup_insert.
  case_decide; [|apply Hfiles]. subst k. rewrite H0. by constructor.
Qed.

Lemma checkOne_sameFiles now x s (st0 : gmap string Workflow) :
  st0 !! wf_id x = Some x → sameFiles st0 (store s) →
  sameFiles st0 (store (checkOne cb now x s)).
Proof.
  intros H0 Hfiles. unfold checkOne.
  destruct (wf_schedule x) as [schedule|] eqn:Hsched; [|done].
  destruct (negb (sc_enabled schedule) || negb (wf_enabled x)); [done|].
  destruct (negb (truthyNum (sc_nextRun schedule))).
  - destruct (calculateNextRun x (world s)) as [r w1].
    pose proof (saveWorkflow_store
      (withSchedule (withNextRun (orUndefined r) schedule) x) (store s) w1) as Hsave.
    destruct (saveWorkflow _ (store s) w1) as [[x' st'] w2]. simpl in *.
    subst st'. apply (insert_sameFiles st0 (store s) x); [done| |done].
    by apply (sameDefinition_written x schedule).
  - destruct (default 0 (sc_nextRun schedule) <=? now); [|done].
    destruct (onWorkflowRun cb x _) as [outcome w2].
    destruct outcome as [|message]; [|done].
    destruct (calculateNextRun _ w2) as [r w3].
    match goal with
    | |- context [saveWorkflow ?y (store s) w3] =>
        pose proof (saveWorkflow_store y (store s) w3) as Hsave;
        destruct (saveWorkflow y (store s) w3) as [[x' st'] w4]
    end.
    simpl in *. subst st'. apply (insert_sameFiles st0 (store s) x); [done| |done].
    by apply (sameDefinition_written x schedule).
Qed.

Lemma pass_sameFiles now (l : list Workflow) (st0 : gmap string Workflow) :
  ∀ s, (∀ x, x ∈ l → st0 !! wf_id x = Some x) →
  sameFiles st0 (store s) → sameFiles st0 (store (pass cb now s l)).
Proof.
  induction l as [|x l IH]; intros s Hl Hfiles; [done|].
  rewrite pass_cons. apply IH.
  - intros y Hy. apply Hl. by right.
  - apply checkOne_sameFiles; [|done]. apply Hl. left.
Qed.

Lemma sameFiles_refl (st : gmap string Workflow) : sameFiles st st.
Proof.
  intros k. destruct (st !! k); constructor. apply sameDefinition_refl.
Qed.

Lemma loadWorkflows_own_file (st : gmap string Workflow) x :
  storeOK st → x ∈ loadWorkflows st → st !! wf_id x = Some x.
Proof.
  intros Hok Hx. apply loadWorkflows_stored in Hx as [k Hk].
  by rewrite (Hok k x Hk).
Qed.

(** X16.  A tick of [checkSchedules] leaves the directory with the same
    files, each holding the same workflow but for [lastRun], [nextRun]
    and [updatedAt]: it creates and deletes nothing, and changes no
    name, step, mission, flag or schedule setting (the directory holding
    each workflow under its id). *)
Theorem checkSchedules_keeps_definitions s :
  storeOK (store s) →
  sameFiles (store s) (store (checkSchedules (Some cb) s)).
Proof.
  intros Hok. unfold checkSchedules.
  destruct (Date_now (world s)) as [now w1].
  apply (pass_sameFiles now (loadWorkflows (store s)) (store s)
           {| world := w1; store := store s; invoked := invoked s |}).
  - intros x Hx. by apply loadWorkflows_own_file.
  - apply sameFiles_refl.
Qed.
(** *** One workflow through a tick *)

(** A pass over workflows of distinct ids treats [w] by one turn of the
    loop, from a state [s0] in which the file of [w] is still as it
    was; the other turns leave that file and run other workflows. *)
Lemma pass_at now w (l : list Workflow) :
  ∀ s, NoDup (wf_id <$> l) → w ∈ l → store s !! wf_id w = Some w →
  ∃ s0 before after,
    store s0 !! wf_id w = Some w ∧
    invoked s0 = invoked s ++ before ∧
    invoked (pass cb now s l) = invoked (checkOne cb now w s0) ++ after ∧
    store (pass cb now s l) !! wf_id w
      = store (checkOne cb now w s0) !! wf_id w ∧
    ∀ e, e ∈ before ++ after → wf_id e.1 ≠ wf_id w.
Proof.
  induction l as [|x l IH]; intros s Hnd Hin Hw.
  { by apply elem_of_nil in Hin. }
  rewrite fmap_cons in Hnd. apply NoDup_cons in Hnd as [Hx Hnd].
  rewrite pass_cons.
  destruct (decide (x = w)) as [->|Hne].
  - destruct (pass_frame cb now l (wf_id w) (checkOne cb now w s))
      as (Hst & after & Hinv & Hafter).
    { intros y Hy Heq. apply Hx. rewrite <- Heq.
      apply list_elem_of_fmap. by exists y. }
    exists s, [], after. rewrite app_nil_r. repeat split; done.
  - apply elem_of_cons in Hin as [->|Hin]; [done|].
    assert (Hid : wf_id x ≠ wf_id w).
    { intros Heq. apply Hx. rewrite Heq. apply list_elem_of_fmap. by exists w. }
    destruct (checkOne_frame cb now x s (wf_id w) Hid)
      as (Hst & extra & Hinv & Hextra).
    destruct (IH (checkOne cb now x s) Hnd Hin)
      as (s0 & before & after & Hs0 & Hinv0 & Hinv2 & Hst2 & Hother);
      [congruence|].
    exists s0, (extra ++ before), after.
    split; [done|]. split; [by rewrite Hinv0, Hinv, app_assoc|].
    split; [done|]. split; [done|].
    intros e He. rewrite <- app_assoc in He.
    apply elem_of_app in He as [He|He]; eauto.
Qed.

Lemma checkSchedules_at s w :
  storeOK (store s) → store s !! wf_id w = Some w →
  ∃ s0 before after,
    store s0 !! wf_id w = Some w ∧
    invoked s0 = invoked s ++ before ∧
    invoked (checkSchedules (Some cb) s)
      = invoked (checkOne cb (Date_now (world s)).1 w s0) ++ after ∧
    store (checkSchedules (Some cb) s) !! wf_id w
      = store (checkOne cb (Date_now (world s)).1 w s0) !! wf_id w ∧
    ∀ e, e ∈ before ++ after → wf_id e.1 ≠ wf_id w.
Proof.
  intros Hok Hw. unfold checkSchedules.
  destruct (Date_now (world s)) as [now w1]. simpl.
  apply (pass_at now w (loadWorkflows (store s))
           {| world := w1; store := store s; invoked := invoked s |}).
  - by apply loadWorkflows_NoDup.
  - by apply loadWorkflows_elem.
  - done.
Qed.

Lemma checkOne_appends now x s :
  ∃ extra, invoked (checkOne cb now x s) = invoked s ++ extra.
Proof.
  unfold checkOne.
  assert (Hsame : ∃ extra, invoked s = invoked s ++ extra)
    by (exists []; by rewrite app_nil_r).
  destruct (wf_schedule x) as [schedule|]; [|done].
  destruct (negb (sc_enabled schedule) || negb (wf_enabled x)); [done|].
  destruct (negb (truthyNum (sc_nextRun schedule))).
  - destruct (calculateNextRun x (world s)) as [r w1].
    by destruct (saveWorkflow _ (store s) w1) as [[x' st'] w2].
  - destruct (default 0 (sc_nextRun schedule) <=? now); [|done].
    destruct (onWorkflowRun cb x _) as [outcome w2].
    destruct outcome as [|message]; [|by eexists].
    destruct (calculateNextRun _ w2) as [r w3].
    destruct (saveWorkflow _ (store s) w3) as [[x' st'] w4]. by eexists.
Qed.

Lemma checkSchedules_appends s :
  ∃ extra, invoked (checkSchedules (Some cb) s) = invoked s ++ extra.
Proof.
  unfold checkSchedules. destruct (Date_now (world s)) as [now w1].
  change (invoked s) with
    (invoked {| world := w1; store := store s; invoked := invoked s |}) at 2.
  generalize {| world := w1; store := store s; invoked := invoked s |}.
  induction (loadWorkflows (store s)) as [|x l IH]; intros s0; simpl.
  - exists []. by rewrite app_nil_r.
  - destruct (IH (checkOne cb now x s0)) as [more Hmore].
    destruct (checkOne_appends now x s0) as [extra Hextra].
    exists (extra ++ more). by rewrite Hmore, Hextra, app_assoc.
Qed.

Lemma ticks_appends (n : nat) :
  ∀ s, ∃ more, invoked (ticks n cb s) = invoked s ++ more.
Proof.
  induction n as [|n IH]; intros s.
  - exists []. by rewrite app_nil_r.
  - change (ticks (S n) cb s) with (ticks n cb (checkSchedules (Some cb) s)).
    destruct (IH (checkSchedules (Some cb) s)) as [more Hmore].
    destruct (checkSchedules_appends s) as [extra Hextra].
    exists (extra ++ more). by rewrite Hmore, Hextra, app_assoc.
Qed.

Lemma checkSchedules_storeOK s :
  storeOK (store s) → storeOK (store (checkSchedules (Some cb) s)).
Proof.
  intros Hok. unfold checkSchedules.
  destruct (Date_now (world s)) as [now w1].
  by apply (pass_storeOK cb now _
              {| world := w1; store := store s; invoked := invoked s |}).
Qed.

(** The turn of the loop on a workflow that has no [nextRun] yet. *)
Lemma checkOne_unset now w schedule s0 :
  wf_enabled w = true → wf_schedule w = Some schedule →
  sc_enabled schedule = true → truthyNum (sc_nextRun schedule) = false →
  invoked (checkOne cb now w s0) = invoked s0 ∧
  store (checkOne cb now w s0) !! wf_id w =
    Some (withUpdatedAt (Date_now (calculateNextRun w (world s0)).2).1
            (withSchedule
               (withNextRun (orUndefined (calculateNextRun w (world s0)).1)
                  schedule) w)).
Proof.
  intros Hen Hsched Hon Hnext. unfold checkOne.
  rewrite Hsched, Hon, Hen, Hnext. simpl.
  destruct (calculateNextRun w (world s0)) as [r w1]. simpl.
  pose proof (saveWorkflow_store
    (withSchedule (withNextRun (orUndefined r) schedule) w) (store s0) w1) as Hsave.
  destruct (saveWorkflow _ (store s0) w1) as [[x' st'] w2]. simpl in *.
  subst st'. split; [done|]. by rewrite lookup_insert_eq.
Qed.

(** X17.  A tick that finds an enabled workflow with an enabled schedule
    but no [nextRun] (absent or 0) does not run it: it stores the
    workflow with the [nextRun] that [calculateNextRun] gives (none if
    that is [null], [NaN] or 0) and a new [updatedAt], and calls
    [onWorkflowRun] on it at the next tick at the earliest. *)
Theorem checkSchedules_initialises s w schedule :
  storeOK (store s) →
  store s !! wf_id w = Some w →
  wf_enabled w = true →
  wf_schedule w = Some schedule →
  sc_enabled schedule = true →
  truthyNum (sc_nextRun schedule) = false →
  (∀ e, e ∈ drop (length (invoked s)) (invoked (checkSchedules (Some cb) s)) →
        wf_id e.1 ≠ wf_id w) ∧
  ∃ (wa : W) t,
    store (checkSchedules (Some cb) s) !! wf_id w =
      Some (withUpdatedAt t
              (withSchedule
                 (withNextRun (orUndefined (calculateNextRun w wa).1) schedule)
                 w)).
Proof.
  intros Hok Hw Hen Hsched Hon Hnext.
  destruct (checkSchedules_at s w Hok Hw)
    as (s0 & before & after & Hs0 & Hinv0 & Hinv & Hst & Hother).
  destruct (checkOne_unset (Date_now (world s)).1 w schedule s0 Hen Hsched Hon Hnext)
    as [Hsame Hfile].
  split.
  - rewrite Hinv, Hsame, Hinv0, <- app_assoc, drop_app_length. exact Hother.
  - eexists _, _. rewrite Hst. exact Hfile.
Qed.

Lemma calculateNextRun_interval x schedule (wa : W) :
  wf_schedule x = Some schedule → sc_enabled schedule = true →
  sc_type schedule = "interval" →
  (calculateNextRun x wa).1 = Some (Num (intervalNext schedule)).
Proof.
  intros Hsched Hon Htype. unfold calculateNextRun.
  rewrite Hsched, Hon, Htype. simpl. by destruct (Date_now wa).
Qed.

Lemma calculateNextRun_unknown x schedule (wa : W) :
  wf_schedule x = Some schedule → unknownType schedule →
  (calculateNextRun x wa).1 = None.
Proof.
  intros Hsched (Hi & Hd & Hw). unfold calculateNextRun. rewrite Hsched.
  destruct (negb (sc_enabled schedule)); [done|].
  destruct (Date_now wa) as [now w1].
  apply String.eqb_neq in Hi, Hd, Hw. by rewrite Hi, Hd, Hw.
Qed.

Lemma orDefault_unset (x : option Z) (d : Z) :
  truthyNum x = false → orDefault x d = d.
Proof.
  destruct x as [z|]; simpl; [|done].
  destruct (z =? 0); [done|discriminate].
Qed.

(** X18.  An enabled workflow on an interval schedule that has never run
    ([lastRun] and [nextRun] unset, the interval [intervalMinutes || 60]
    positive) is not run by the tick that first finds it; that tick
    stores [nextRun] as the interval counted from the epoch.  Every tick
    after it that reads a time not before that instant (any time of our
    days) runs the workflow: the first run does not wait for the
    interval to pass. *)
Theorem interval_first_run s w schedule :
  let m := orDefault (sc_intervalMinutes schedule) 60 in
  let s1 := checkSchedules (Some cb) s in
  storeOK (store s) →
  store s !! wf_id w = Some w →
  wf_enabled w = true →
  wf_schedule w = Some schedule →
  sc_enabled schedule = true →
  sc_type schedule = "interval" →
  truthyNum (sc_nextRun schedule) = false →
  truthyNum (sc_lastRun schedule) = false →
  0 < m →
  ∃ w1,
    store s1 !! wf_id w = Some w1 ∧
    sameDefinition w w1 ∧
    (wf_schedule w1 ≫= sc_nextRun) = Some (m * 60000) ∧
    (∀ e, e ∈ drop (length (invoked s)) (invoked s1) → wf_id e.1 ≠ wf_id w) ∧
    ∀ s2 : SchedState W,
      store s2 = store s1 → m * 60000 ≤ (Date_now (world s2)).1 →
      ∃ outcome,
        (w1, outcome) ∈
          drop (length (invoked s2)) (invoked (checkSchedules (Some cb) s2)).
Proof.
  intros m s1 Hok Hw Hen Hsched Hon Htype Hnext Hlast Hm.
  destruct (checkSchedules_at s w Hok Hw)
    as (s0 & before & after & Hs0 & Hinv0 & Hinv & Hst & Hother).
  destruct (checkOne_unset (Date_now (world s)).1 w schedule s0 Hen Hsched Hon Hnext)
    as [Hsame Hfile].
  rewrite (calculateNextRun_interval w schedule _ Hsched Hon Htype) in Hfile.
  assert (Hnext1 : orUndefined (Some (Num (intervalNext schedule)))
                   = Some (m * 60000)).
  { unfold intervalNext. rewrite (orDefault_unset (sc_lastRun schedule) 0 Hlast).
    fold m. simpl.
    replace (0 + m * 60 * 1000) with (m * 60000) by lia.
    replace (m * 60000 =? 0) with false by (symmetry; apply Z.eqb_neq; lia).
    done. }
  rewrite Hnext1 in Hfile.
  eexists. split; [subst s1; rewrite Hst; exact Hfile|].
  split; [by apply (sameDefinition_written w schedule)|].
  split; [done|].
  split.
  { subst s1. rewrite Hinv, Hsame, Hinv0, <- app_assoc, drop_app_length.
    exact Hother. }
  intros s2 Hstore Hlater.
  match goal with
  | |- ∃ outcome, (?w1, _) ∈ _ =>
      destruct (checkSchedules_due cb s2 w1)
        as (_ & outcome2 & b2 & a2 & Hinv2 & _)
  end.
  - rewrite Hstore. by apply checkSchedules_storeOK.
  - rewrite Hstore. subst s1. exact (eq_trans Hst Hfile).
  - apply (isDue_fields _ (withNextRun (Some (m * 60000)) schedule) (m * 60000));
      try done; lia.
  - exists outcome2. rewrite Hinv2, drop_app_length.
    apply elem_of_app. right. left.
Qed.

(** X19.  An interval workflow that a tick runs, the run returning: the
    tick stores [lastRun] as the time it read at its start and
    [nextRun] as that time plus the interval ([intervalMinutes || 60]
    minutes); from then on the workflow is due exactly at the ticks that
    read a time not before that [nextRun].  The interval counts from
    the start of the tick, not from the end of the run. *)
Theorem interval_rescheduled s w schedule (nextRun : Z) :
  let now := (Date_now (world s)).1 in
  let m := orDefault (sc_intervalMinutes schedule) 60 in
  let s' := checkSchedules (Some cb) s in
  storeOK (store s) →
  store s !! wf_id w = Some w →
  wf_enabled w = true →
  wf_schedule w = Some schedule →
  sc_enabled schedule = true →
  sc_type schedule = "interval" →
  sc_nextRun schedule = Some nextRun →
  nextRun ≠ 0 →
  nextRun ≤ now →
  0 < now →
  0 < m →
  (w, RunResolved) ∈ drop (length (invoked s)) (invoked s') →
  ∃ w',
    store s' !! wf_id w = Some w' ∧
    sameDefinition w w' ∧
    (wf_schedule w' ≫= sc_lastRun) = Some now ∧
    (wf_schedule w' ≫= sc_nextRun) = Some (now + m * 60000) ∧
    ∀ later, isDue w' later = true ↔ now + m * 60000 ≤ later.
Proof.
  intros now m s' Hok Hw Hen Hsched Hon Htype Hnext Hnz Hle Hnow Hm Hran.
  pose proof (isDue_fields w schedule nextRun now Hen Hsched Hon Hnext Hnz Hle)
    as Hdue.
  destruct (checkSchedules_due cb s w Hok Hw Hdue)
    as (_ & outcome & before & after & Hinv & Hother & Hset).
  fold s' in Hinv, Hset. fold now in Hset.
  rewrite Hinv, drop_app_length in Hran.
  assert (outcome = RunResolved) as ->.
  { apply elem_of_app in Hran as [Hin|Hin].
    - exfalso. eapply Hother; [apply elem_of_app; left; exact Hin|done].
    - apply elem_of_cons in Hin as [Heq|Hin]; [congruence|].
      exfalso. eapply Hother; [apply elem_of_app; right; exact Hin|done]. }
  destruct Hset as (schedule' & wa & t & Hsched' & Hentry).
  assert (schedule' = schedule) as -> by congruence.
  unfold rescheduled in Hentry.
  rewrite (calculateNextRun_interval _ (withLastRun (Some now) schedule) wa)
    in Hentry by done.
  assert (Hnext1 : orUndefined (Some (Num (intervalNext (withLastRun (Some now) schedule))))
                   = Some (now + m * 60000)).
  { unfold intervalNext. simpl. fold m.
    replace (now =? 0) with false by (symmetry; apply Z.eqb_neq; lia).
    replace (now + m * 60 * 1000) with (now + m * 60000) by lia.
    replace (now + m * 60000 =? 0) with false by (symmetry; apply Z.eqb_neq; lia).
    done. }
  rewrite Hnext1 in Hentry.
  eexists. split; [exact Hentry|].
  split; [by apply (sameDefinition_written w schedule)|].
  split; [done|]. split; [done|].
  intros later. unfold isDue. simpl. rewrite Hon, Hen. simpl.
  replace (now + m * 60000 =? 0) with false by (symmetry; apply Z.eqb_neq; lia).
  simpl. apply Z.leb_le.
Qed.

(** X20.  An enabled workflow whose schedule is enabled but of a type
    that [calculateNextRun] does not know, and that has no [nextRun],
    is never run, however many ticks pass: every tick stores it again
    without a [nextRun] (and with a new [updatedAt], the rest of its
    definition unchanged). *)
Theorem unknown_type_never_runs (n : nat) :
  ∀ s w schedule,
  storeOK (store s) →
  store s !! wf_id w = Some w →
  wf_enabled w = true →
  wf_schedule w = Some schedule →
  sc_enabled schedule = true →
  unknownType schedule →
  truthyNum (sc_nextRun schedule) = false →
  (∀ e, e ∈ drop (length (invoked s)) (invoked (ticks n cb s)) →
        wf_id e.1 ≠ wf_id w) ∧
  ∃ w', store (ticks n cb s) !! wf_id w = Some w' ∧
        sameDefinition w w' ∧
        truthyNum (wf_schedule w' ≫= sc_nextRun) = false.
Proof.
  induction n as [|n IH]; intros s w schedule Hok Hw Hen Hsched Hon Htype Hnext.
  { simpl. rewrite drop_all. split; [intros e He; by apply elem_of_nil in He|].
    exists w. split; [done|]. split; [apply sameDefinition_refl|].
    by rewrite Hsched. }
  change (ticks (S n) cb s) with (ticks n cb (checkSchedules (Some cb) s)).
  destruct (checkSchedules_at s w Hok Hw)
    as (s0 & before & after & Hs0 & Hinv0 & Hinv & Hst & Hother).
  destruct (checkOne_unset (Date_now (world s)).1 w schedule s0 Hen Hsched Hon Hnext)
    as [Hsame Hfile].
  rewrite (calculateNextRun_unknown w schedule _ Hsched Htype) in Hfile.
  simpl in Hfile. rewrite <- Hst in Hfile.
  match type of Hfile with
  | _ = Some ?x =>
      destruct (IH (checkSchedules (Some cb) s) x (withNextRun None schedule))
        as (Hnone & w' & Hw' & Hdef & Hunset); try done
  end.
  { by apply checkSchedules_storeOK. }
  cbn [wf_id withUpdatedAt withIdentity withSchedule] in Hnone, Hw'. split.
  - intros e He.
    pose proof (ticks_appends n (checkSchedules (Some cb) s)) as Hgrow.
    destruct Hgrow as [more Hmore].
    rewrite Hmore in He, Hnone. rewrite drop_app_length in Hnone.
    rewrite Hinv, Hsame, Hinv0, <- !app_assoc, drop_app_length in He.
    rewrite app_assoc in He.
    apply elem_of_app in He as [He|He]; [by apply Hother | by apply Hnone].
  - exists w'. split; [done|]. split; [|done].
    eapply sameDefinition_trans; [|exact Hdef].
    by apply (sameDefinition_written w schedule).
Qed.

End SchedulerMore.

Lemma only_storeOK (w : Workflow) (t : Z) :
  storeOK (Scheduler.store (Cases.only w t)).
Proof.
  intros k v Hkv. simpl in Hkv.
  by apply lookup_singleton_Some in Hkv as [<- <-].
Qed.

Lemma only_lookup (w : Workflow) (t : Z) :
  Scheduler.store (Cases.only w t) !! wf_id w = Some w.
Proof. apply lookup_singleton_eq. Qed.

Lemma checkSchedules_keeps_definitions_witness :
  storeOK (Scheduler.store (Cases.only Ex.overdue 1000)) ∧
  sameFiles (Scheduler.store (Cases.only Ex.overdue 1000))
    (Scheduler.store
       (Scheduler.checkSchedules (Some Sim.callbacks) (Cases.only Ex.overdue 1000))).
Proof.
  split; [apply only_storeOK|].
  apply (checkSchedules_keeps_definitions Sim.callbacks (Cases.only Ex.overdue 1000)).
  apply only_storeOK.
Defined.

Lemma checkSchedules_initialises_witness :
  Scheduler.truthyNum
    (sc_nextRun (Ex.scheduleOf "daily" None (Some "09:00") None None)) = false ∧
  ∃ (wa : Sim.World) t,
    Scheduler.store
      (Scheduler.checkSchedules (Some Sim.callbacks)
         (Cases.only Ex.mornings Ex.monday0830)) !! "wf-3" =
    Some (withUpdatedAt t
            (withSchedule
               (withNextRun
                  (Scheduler.orUndefined
                     (Scheduler.calculateNextRun Ex.mornings wa).1)
                  (Ex.scheduleOf "daily" None (Some "09:00") None None))
               Ex.mornings)).
Proof.
  split; [reflexivity|].
  destruct (checkSchedules_initialises Sim.callbacks
              (Cases.only Ex.mornings Ex.monday0830) Ex.mornings
              (Ex.scheduleOf "daily" None (Some "09:00") None None)
              (only_storeOK _ _) (only_lookup _ _) eq_refl eq_refl eq_refl eq_refl)
    as [_ Hfile].
  exact Hfile.
Defined.

Lemma interval_first_run_witness :
  0 < orDefault (sc_intervalMinutes (Ex.scheduleOf "interval" (Some 5) None None None)) 60 ∧
  ∃ w1,
    Scheduler.store
      (Scheduler.checkSchedules (Some Sim.callbacks)
         (Cases.only Cases.neverRun Ex.monday0830)) !! "wf-3" = Some w1 ∧
    (wf_schedule w1 ≫= sc_nextRun) = Some 300000.
Proof.
  assert (Hm : 0 < orDefault (sc_intervalMinutes
                               (Ex.scheduleOf "interval" (Some 5) None None None)) 60)
    by (simpl; lia).
  split; [exact Hm|].
  destruct (interval_first_run Sim.callbacks
              (Cases.only Cases.neverRun Ex.monday0830) Cases.neverRun
              (Ex.scheduleOf "interval" (Some 5) None None None)
              (only_storeOK _ _) (only_lookup _ _) eq_refl eq_refl eq_refl eq_refl
              eq_refl eq_refl Hm)
    as (w1 & Hfile & _ & Hnext & _).
  exists w1. split; [exact Hfile | exact Hnext].
Defined.

Lemma interval_rescheduled_witness :
  (Ex.overdue, Scheduler.RunResolved) ∈
    drop (length (Scheduler.invoked (Cases.only Ex.overdue 1000)))
      (Scheduler.invoked
         (Scheduler.checkSchedules (Some Sim.callbacks)
            (Cases.only Ex.overdue 1000))) ∧
  ∃ w',
    Scheduler.store
      (Scheduler.checkSchedules (Some Sim.callbacks) (Cases.only Ex.overdue 1000))
      !! "wf-3" = Some w' ∧
    (wf_schedule w' ≫= sc_nextRun) = Some (1000 + 5 * 60000) ∧
    Scheduler.isDue w' 300999 = false.
Proof.
  assert (Hran : (Ex.overdue, Scheduler.RunResolved) ∈
    drop (length (Scheduler.invoked (Cases.only Ex.overdue 1000)))
      (Scheduler.invoked
         (Scheduler.checkSchedules (Some Sim.callbacks)
            (Cases.only Ex.overdue 1000)))).
  { replace (Scheduler.invoked
               (Scheduler.checkSchedules (Some Sim.callbacks)
                  (Cases.only Ex.overdue 1000)))
      with [(Ex.overdue, Scheduler.RunResolved)] by (vm_compute; reflexivity).
    left. }
  split; [exact Hran|].
  destruct (interval_rescheduled Sim.callbacks (Cases.only Ex.overdue 1000)
              Ex.overdue (Ex.scheduleOf "interval" (Some 5) None None (Some 500)) 500
              (only_storeOK _ _) (only_lookup _ _) eq_refl eq_refl eq_refl eq_refl
              eq_refl ltac:(discriminate) ltac:(simpl; lia) ltac:(simpl; lia)
              ltac:(simpl; lia) Hran)
    as (w' & Hfile & _ & _ & Hnext & Hdue).
  exists w'. split; [exact Hfile|]. split; [exact Hnext|].
  destruct (Scheduler.isDue w' 300999) eqn:E; [|reflexivity].
  apply Hdue in E. simpl in E. lia.
Defined.

Lemma unknown_type_never_runs_witness :
  unknownType (Ex.scheduleOf "hourly" None None None None) ∧
  ∀ e, e ∈ Scheduler.invoked (ticks 3 Sim.callbacks (Cases.only Cases.hourly 1000)) →
       wf_id e.1 ≠ "wf-3".
Proof.
  assert (Htype : unknownType (Ex.scheduleOf "hourly" None None None None)).
  { repeat split; discriminate. }
  split; [exact Htype|].
  destruct (unknown_type_never_runs Sim.callbacks 3
              (Cases.only Cases.hourly 1000) Cases.hourly
              (Ex.scheduleOf "hourly" None None None None)
              (only_storeOK _ _) (only_lookup _ _) eq_refl eq_refl eq_refl Htype
              eq_refl)
    as [Hnone _].
  exact Hnone.
Defined.

(** ** The scheduler: starting and stopping *)

Section SchedulerControlFacts.
Import Scheduler.
Context {W : Type} `{!JsBuiltins} `{!Host W}.
Implicit Types (s : SchedState W) (p : SchedulerModule W) (x : Workflow).

Lemma initOne_invoked s x : invoked (initOne s x).2 = invoked s.
Proof.
  unfold initOne. destruct (wf_schedule x) as [c|]; [|done].
  destruct (sc_enabled c && negb (truthyNum (sc_nextRun c))); [|done].
  destruct (calculateNextRun x (world s)) as [r w1].
  by destruct (saveWorkflow _ (store s) w1) as [[x' st'] w2].
Qed.

Lemma initOne_store s x :
  store (initOne s x).2 =
  match wf_schedule x with
  | Some c =>
      if needsNextRun x then
        <[wf_id x :=
            withUpdatedAt (Date_now (getNextRunTime x (world s)).2).1
              (withSchedule (withNextRun (getNextRunTime x (world s)).1 c) x)]>
          (store s)
      else store s
  | None => store s
  end.
Proof.
  unfold initOne, needsNextRun, getNextRunTime.
  destruct (wf_schedule x) as [c|]; [|done].
  destruct (sc_enabled c && negb (truthyNum (sc_nextRun c))); [|done].
  destruct (calculateNextRun x (world s)) as [r w1]. simpl.
  pose proof (saveWorkflow_store
    (withSchedule (withNextRun (orUndefined r) c) x) (store s) w1) as Hsave.
  destruct (saveWorkflow _ (store s) w1) as [[x' st'] w2]. simpl in *.
  by subst st'.
Qed.

Lemma initOne_frame s x k :
  wf_id x ≠ k → store (initOne s x).2 !! k = store s !! k.
Proof.
  intros Hk. rewrite initOne_store.
  destruct (wf_schedule x) as [c|]; [|done].
  destruct (needsNextRun x); [|done]. by rewrite lookup_insert_ne.
Qed.

Lemma initAll_cons x (l : list Workflow) s :
  (initAll (x :: l) s).2 = (initAll l (initOne s x).2).2.
Proof.
  simpl. destruct (initOne s x) as [x' s1]. simpl.
  by destruct (initAll l s1) as [l' s2].
Qed.

Lemma initAll_invoked (l : list Workflow) :
  ∀ s, invoked (initAll l s).2 = invoked s.
Proof.
  induction l as [|x l IH]; intros s; [done|].
  by rewrite initAll_cons, IH, initOne_invoked.
Qed.

Lemma initAll_frame (l : list Workflow) k :
  ∀ s, (∀ x, x ∈ l → wf_id x ≠ k) →
  store (initAll l s).2 !! k = store s !! k.
Proof.
  induction l as [|x l IH]; intros s Hl; [done|].
  rewrite initAll_cons, IH.
  - apply initOne_frame, Hl. left.
  - intros y Hy. apply Hl. by right.
Qed.

(** The first loop of [startScheduler] treats [x] by one turn, from a
    state in which the file of [x] is as it was. *)
Lemma initAll_at x (l : list Workflow) :
  ∀ s, NoDup (wf_id <$> l) → x ∈ l →
  ∃ s0, store s0 !! wf_id x = store s !! wf_id x ∧
        store (initAll l s).2 !! wf_id x = store (initOne s0 x).2 !! wf_id x.
Proof.
  induction l as [|y l IH]; intros s Hnd Hin.
  { by apply elem_of_nil in Hin. }
  rewrite fmap_cons in Hnd. apply NoDup_cons in Hnd as [Hy Hnd].
  rewrite initAll_cons.
  destruct (decide (y = x)) as [->|Hne].
  - exists s. split; [done|]. apply initAll_frame.
    intros z Hz Heq. apply Hy. rewrite <- Heq.
    apply list_elem_of_fmap. by exists z.
  - apply elem_of_cons in Hin as [->|Hin]; [done|].
    assert (Hid : wf_id y ≠ wf_id x).
    { intros Heq. apply Hy. rewrite Heq. apply list_elem_of_fmap. by exists x. }
    destruct (IH (initOne s y).2 Hnd Hin) as (s0 & Hs0 & Hst).
    exists s0. split; [|done]. by rewrite Hs0, initOne_frame.
Qed.

Lemma startScheduler_sched cb p :
  store (sched (startScheduler cb p))
    = store (initAll (loadWorkflows (store (sched p))) (sched p)).2 ∧
  invoked (sched (startScheduler cb p))
    = invoked (initAll (loadWorkflows (store (sched p))) (sched p)).2 ∧
  callbacks (startScheduler cb p) = Some cb.
Proof.
  unfold startScheduler.
  destruct (schedulerInterval p) as [handle|]; simpl;
    by destruct (initAll (loadWorkflows (store (sched p))) (sched p))
      as [workflows' s1].
Qed.


Lemma tick_fields p :
  schedulerInterval (tick p) = schedulerInterval p ∧
  callbacks (tick p) = callbacks p ∧ timers (tick p) = timers p.
Proof. done. Qed.

Lemma ticking_fields (l : list nat) :
  ∀ p, schedulerInterval (foldl (λ p _, tick p) p l) = schedulerInterval p ∧
       callbacks (foldl (λ p _, tick p) p l) = callbacks p ∧
       timers (foldl (λ p _, tick p) p l) = timers p.
Proof.
  induction l as [|h l IH]; intros p; [done|].
  simpl. destruct (IH (tick p)) as (-> & -> & ->). apply tick_fields.
Qed.

Lemma minute_fields p :
  schedulerInterval (minute p) = schedulerInterval p ∧
  callbacks (minute p) = callbacks p ∧ timers (minute p) = timers p.
Proof. apply ticking_fields. Qed.

Lemma clearInterval_own (handle : nat) p :
  timers p = [handle] → timers (clearInterval handle p) = [].
Proof.
  intros Ht. unfold clearInterval. simpl. rewrite Ht.
  rewrite filter_cons, decide_False by (intros Hne; by apply Hne). done.
Qed.

Lemma startScheduler_wired cb p : wired p → wired (startScheduler cb p).
Proof.
  intros [Htimers _]. unfold wired, startScheduler.
  destruct (schedulerInterval p) as [handle|]; simpl in Htimers.
  - pose proof (clearInterval_own handle p Htimers) as Hclear.
    destruct (initAll _ (sched (clearInterval handle p))) as [workflows' s1].
    simpl. simpl in Hclear. rewrite Htimers.
    rewrite filter_cons, decide_False by (intros Hne; by apply Hne).
    split; [done|]. split; discriminate.
  - destruct (initAll _ (sched p)) as [workflows' s1]. simpl.
    rewrite Htimers. split; [done|]. split; discriminate.
Qed.

Lemma stopScheduler_wired p :
  wired p → wired (stopScheduler p) ∧ timers (stopScheduler p) = [].
Proof.
  intros [Htimers _]. unfold wired, stopScheduler.
  destruct (schedulerInterval p) as [handle|]; simpl in Htimers; simpl;
    rewrite Htimers.
  - rewrite filter_cons, decide_False by (intros Hne; by apply Hne). done.
  - done.
Qed.

Lemma minute_wired p : wired p → wired (minute p).
Proof.
  unfold wired. destruct (minute_fields p) as (-> & -> & ->). done.
Qed.

Lemma calls_wired (calls : list (Call W)) :
  ∀ p, wired p → wired (foldl call p calls).
Proof.
  induction calls as [|c calls IH]; intros p Hp; [done|].
  simpl. apply IH. destruct c as [cb| |]; simpl.
  - by apply startScheduler_wired.
  - by apply stopScheduler_wired.
  - by apply minute_wired.
Qed.

(** X22.  Whatever sequence of [startScheduler] and [stopScheduler] calls
    and passing minutes the module has seen since it was loaded, at most
    one interval timer is armed (a second [startScheduler] replaces the
    timer of the first), and one is armed exactly while the module holds
    callbacks: each minute makes one pass of [checkSchedules], never
    two.  After [stopScheduler] no timer is armed, and passing time
    changes nothing. *)
Theorem scheduler_one_timer (calls : list (Call W)) s :
  let p := foldl call (loaded s) calls in
  (length (timers p) ≤ 1)%nat ∧
  (timers p = [] ↔ callbacks p = None) ∧
  minute p = tick p ∧
  timers (stopScheduler p) = [] ∧
  minute (stopScheduler p) = stopScheduler p.
Proof.
  intros p.
  assert (Hp : wired p).
  { apply calls_wired. split; [done|]. done. }
  destruct (stopScheduler_wired p Hp) as [_ Hstopped].
  destruct Hp as [Htimers Hcb].
  split; [rewrite Htimers; destruct (schedulerInterval p); simpl; lia|].
  split.
  { rewrite Hcb, Htimers. destruct (schedulerInterval p); simpl; split; done. }
  split.
  { unfold minute. rewrite Htimers.
    destruct (schedulerInterval p) as [handle|] eqn:Hs; simpl; [done|].
    assert (Hnone : callbacks p = None) by by apply Hcb.
    unfold tick. rewrite Hnone, Hs. simpl.
    destruct p as [int cbs sc tm nx]. simpl in *. by subst. }
  split; [exact Hstopped|].
  unfold minute. by rewrite Hstopped.
Qed.

End SchedulerControlFacts.


(** ** The message [saveWorkflow] *)

Section WebClientFacts.
Context {W : Type} `{!JsBuiltins} `{!Host W}.

Lemma generateWorkflowId_nonempty (w : W) : (generateWorkflowId w).1 ≠ "".
Proof. rewrite generateWorkflowId_text. discriminate. Qed.

(** X23.  The handler of the message [saveWorkflow] never stores a
    workflow under an empty id: a workflow that comes without an id is
    given a generated one and the current time as [createdAt]; one that
    comes with an id keeps it, and its [createdAt].  What the handler
    sends back is what [loadWorkflow] of that id then returns (the
    runtime reading back what it wrote), and it differs from what came
    in only in [id], [createdAt] and [updatedAt]. *)
Theorem onSaveWorkflow_stores (wfData : Workflow) (d : Files.Dir) (w : W) :
  let saved := (onSaveWorkflow wfData d w).1.1 in
  let d' := (onSaveWorkflow wfData d w).1.2 in
  JSON_parse (JSON_stringify2 (toJson saved)) = Some (toJson saved) →
  wf_id saved ≠ "" ∧
  (wf_id wfData ≠ "" →
     wf_id saved = wf_id wfData ∧ wf_createdAt saved = wf_createdAt wfData) ∧
  (wf_id wfData = "" →
     wf_id saved = (generateWorkflowId w).1 ∧
     wf_createdAt saved = (Date_now (generateWorkflowId w).2).1) ∧
  Files.loadWorkflow (wf_id saved) d' = Some (toJson saved) ∧
  saved = withIdentity (wf_id saved) (wf_name wfData) (wf_createdAt saved)
            (wf_updatedAt saved) wfData.
Proof.
  unfold onSaveWorkflow. simpl.
  destruct (String.eqb_spec (wf_id wfData) "") as [Hid|Hid]; simpl.
  - pose proof (generateWorkflowId_nonempty w) as Hfresh.
    destruct (generateWorkflowId w) as [id w1]. simpl in *.
    destruct (Date_now w1) as [createdAt w2].
    destruct (Date_now w2) as [updatedAt w3].
    unfold Files.saveWorkflow. destruct (Date_now w3) as [t w4]. simpl.
    intros Hparse. split; [done|]. split; [done|]. split; [done|].
    split; [|done].
    rewrite loadWorkflow_read, readFileSync_write. simpl. by rewrite Hparse.
  - destruct (Date_now w) as [updatedAt w3].
    unfold Files.saveWorkflow. destruct (Date_now w3) as [t w4]. simpl.
    intros Hparse. split; [done|]. split; [done|]. split; [done|].
    split; [|by destruct wfData].
    rewrite loadWorkflow_read, readFileSync_write. simpl. by rewrite Hparse.
Qed.

End WebClientFacts.

Lemma onSaveWorkflow_stores_witness :
  let unsaved := withIdentity "" "demo" 0 0 Ex.twoSteps in
  let saved := (onSaveWorkflow unsaved None (Sim.world0 5 [] [])).1.1 in
  JSON_parse (JSON_stringify2 (toJson saved)) = Some (toJson saved) ∧
  wf_id saved = "wf-5-k3x9q0z7a" ∧
  Files.loadWorkflow "wf-5-k3x9q0z7a"
    (onSaveWorkflow unsaved None (Sim.world0 5 [] [])).1.2 = Some (toJson saved).
Proof.
  intros unsaved saved.
  assert (Hparse : JSON_parse (JSON_stringify2 (toJson saved)) = Some (toJson saved))
    by (vm_compute; reflexivity).
  split; [exact Hparse|]. split; [reflexivity|].
  destruct (onSaveWorkflow_stores unsaved None (Sim.world0 5 [] []) Hparse)
    as (_ & _ & _ & Hload & _).
  exact Hload.
Defined.

(** The chain of two steps in the world in which nothing goes wrong. *)
#[local] Existing Instance Calm.host.


